(** * geneticAIGeoDash: the headless game engine and the evolutionary trainer

    A shallow embedding of [ga-visualizer.js] (the [Obstacle] and [Game]
    classes, [runGA], [breedNextGeneration], [mutateGenome]) together with
    the properties of the specification that concern them.

    JavaScript numbers are IEEE-754 binary64 values; they are modelled by
    Rocq's primitive [float], which is the same format with the same
    rounding, so that the arithmetic of the model is bit-for-bit the one the
    program performs.  [Math.random] is modelled by an oracle
    [random : N -> float] giving the result of the n-th call, and a cursor
    counting the calls made so far. *)

From Stdlib Require Import ZArith List Bool Lia String.
From Stdlib Require Import Sorted Permutation.
From Stdlib Require Import Floats.
Import ListNotations.

Set Warnings "-inexact-float".

(* ===================================================================== *)
(** ** JavaScript numbers *)
(* ===================================================================== *)

Module JS.
Local Open Scope float_scope.

(** [a > b] and [a >= b] are the mirrored IEEE comparisons. *)
Definition gtb (a b : float) : bool := b <? a.
Definition geb (a b : float) : bool := b <=? a.

(** [Math.min] and [Math.max]: NaN is contagious and [-0] is below [+0]. *)
Definition Math_min (a b : float) : float :=
  if is_nan a || is_nan b then nan
  else if a <? b then a
  else if b <? a then b
  else if get_sign a then a else b.

Definition Math_max (a b : float) : float :=
  if is_nan a || is_nan b then nan
  else if a <? b then b
  else if b <? a then a
  else if get_sign a then b else a.

(** An integer as a number (exact below 2^53 in magnitude). *)
Definition of_Z (z : Z) : float := SF2Prim (binary_normalize prec emax z 0 false).
Definition of_nat (n : nat) : float := of_Z (Z.of_nat n).

(** [Math.floor]: zeros, infinities, NaN and the numbers that have no
    fractional part are returned as they are. *)
Definition Math_floor (x : float) : float :=
  match Prim2SF x with
  | S754_finite s m (Zneg p) =>
      of_Z (Z.div (if s then Zneg m else Zpos m) (Z.pow_pos 2 p))
  | _ => x
  end.

(** The integer that a number is, if it is one. *)
Definition to_integer (x : float) : option Z :=
  match Prim2SF x with
  | S754_zero _ => Some 0%Z
  | S754_finite s m e =>
      let n := if s then Zneg m else Zpos m in
      match e with
      | Zneg p => if (Z.modulo n (Z.pow_pos 2 p) =? 0)%Z
                  then Some (Z.div n (Z.pow_pos 2 p)) else None
      | _ => Some (n * 2 ^ e)%Z
      end
  | _ => None
  end.

(** [l[i]]: an element for an index that is an integer within range,
    [undefined] otherwise. *)
Definition index {A : Type} (l : list A) (i : float) : option A :=
  match to_integer i with
  | Some z => if (z <? 0)%Z then None else nth_error l (Z.to_nat z)
  | None => None
  end.

(** [l.slice(0, k)]: [k] is truncated to an integer, NaN counting as 0; a
    negative [k] counts from the end. *)
Definition slice0 {A : Type} (l : list A) (k : float) : list A :=
  match Prim2SF k with
  | S754_nan | S754_zero _ => []
  | S754_infinity s => if s then [] else l
  | S754_finite s m e =>
      let t := match e with
               | Zneg p => Z.div (Zpos m) (Z.pow_pos 2 p)
               | _ => (Zpos m * 2 ^ e)%Z
               end in
      if s then firstn (List.length l - Z.to_nat t) l else firstn (Z.to_nat t) l
  end.

(** Reading a numeric slot; [undefined] behaves as NaN in arithmetic. *)
Definition num_at (l : list float) (i : nat) : float := nth i l nan.

End JS.

(* ===================================================================== *)
(** ** Obstacles and the bounding-box test *)
(* ===================================================================== *)

(** Anything with a position and a size can take part in the overlap test:
    [collidesWith] only reads [x], [y], [width] and [height]. *)
Class Box (A : Type) : Type := {
  box_x : A -> float;
  box_y : A -> float;
  box_width : A -> float;
  box_height : A -> float
}.

Module Obstacle.
Local Open Scope float_scope.

Record t : Type := make {
  x : float;
  y : float;
  width : float;
  height : float;
  speed : float;
  color : string
}.

(** [new Obstacle(x, y, width, height, speed)] with the default colour. *)
Definition create (x0 y0 w h s : float) : t := make x0 y0 w h s "red".

Definition update (deltaTime : float) (o : t) : t :=
  make (x o - speed o * deltaTime) (y o) (width o) (height o) (speed o) (color o).

Definition isOffScreen (o : t) : bool := x o + width o <? 0.

#[global] Instance box : Box t :=
  {| box_x := x; box_y := y; box_width := width; box_height := height |}.

(** The method reads nothing of its receiver and of its argument but their
    position and size, so any two boxes can take the two roles; the game
    calls it on an obstacle, with the player as argument. *)
Definition collidesWith {T P : Type} `{Box T} `{Box P} (this : T) (player : P) : bool :=
  negb (   (box_x player + box_width player <? box_x this)
        || JS.gtb (box_x player) (box_x this + box_width this)
        || (box_y player + box_height player <? box_y this)
        || JS.gtb (box_y player) (box_y this + box_height this)).

End Obstacle.

Definition minSpawnDelay : float := 0.8.
Definition maxSpawnDelay : float := 2.5.
Definition obstacleSpeed : float := 250.
Definition obstacleSize_w : float := 25.
Definition obstacleSize_h : float := 25.

Definition CANVAS_WIDTH : float := 800.
Definition CANVAS_HEIGHT : float := 450.

(* ===================================================================== *)
(** ** The player *)
(* ===================================================================== *)

Module Player.

Record t : Type := make {
  x : float;
  y : float;
  width : float;
  height : float;
  velocityY : float;
  gravity : float;
  jumpPower : float;
  grounded : bool
}.

Definition set_y (v : float) (p : t) : t :=
  make (x p) v (width p) (height p) (velocityY p) (gravity p) (jumpPower p) (grounded p).
Definition set_velocityY (v : float) (p : t) : t :=
  make (x p) (y p) (width p) (height p) v (gravity p) (jumpPower p) (grounded p).
Definition set_grounded (v : bool) (p : t) : t :=
  make (x p) (y p) (width p) (height p) (velocityY p) (gravity p) (jumpPower p) v.

#[global] Instance box : Box t :=
  {| box_x := x; box_y := y; box_width := width; box_height := height |}.

End Player.

(* ===================================================================== *)
(** ** The headless game *)
(* ===================================================================== *)

Module Game.
Local Open Scope float_scope.

Record t : Type := make {
  w1 : float;
  w2 : float;
  b : float;
  canvasWidth : float;
  canvasHeight : float;
  player : Player.t;
  obstacles : list Obstacle.t;
  spawnTimer : float;
  nextSpawnDelay : float;
  totalTime : float;
  gameOver : bool
}.

Definition FIXED_DT : float := 1 / 60.
Definition MAX_TIME : float := 30.

Section WithRandom.

(** [random n] is what the n-th call of [Math.random] returns. *)
Variable random : N -> float.

Definition getRandomDelay (c : N) : float * N :=
  (minSpawnDelay + random c * (maxSpawnDelay - minSpawnDelay), N.succ c).

(** The constructor; it draws the first spawn delay. *)
Definition create (genome : list float) (c : N) : t * N :=
  let '(delay, c') := getRandomDelay c in
  (make (JS.num_at genome 0) (JS.num_at genome 1) (JS.num_at genome 2)
        CANVAS_WIDTH CANVAS_HEIGHT
        (Player.make (CANVAS_WIDTH / 2 - 10) (CANVAS_HEIGHT - 30) 20 20
                     0 981 (-500) false)
        [] 0 delay 0 false,
   c').

(** Step 2 of [step]: gravity, integration, landing. *)
Definition physics (dt : float) (canvasH : float) (p : Player.t) : Player.t :=
  let p := if negb (Player.grounded p)
           then Player.set_velocityY (Player.velocityY p + Player.gravity p * dt) p
           else p in
  let p := Player.set_y (Player.y p + Player.velocityY p * dt) p in
  let groundY := canvasH - Player.height p in
  if JS.geb (Player.y p) groundY
  then Player.set_grounded true (Player.set_velocityY 0 (Player.set_y groundY p))
  else Player.set_grounded false p.

(** Step 3: the inputs of the linear model and its output. *)
Definition nextObstacle (obs : list Obstacle.t) (p : Player.t) : option Obstacle.t :=
  find (fun o => JS.gtb (Obstacle.x o + Obstacle.width o) (Player.x p)) obs.

Definition distToNext (obs : list Obstacle.t) (p : Player.t) : float :=
  match nextObstacle obs p with
  | Some o => Obstacle.x o - Player.x p
  | None => 999
  end.

Definition normalizedDist (canvasW : float) (obs : list Obstacle.t) (p : Player.t) : float :=
  JS.Math_min (distToNext obs p / canvasW) 1.

Definition normalizedHeight (canvasH : float) (p : Player.t) : float :=
  Player.y p / canvasH.

Definition output (g : t) (p : Player.t) : float :=
  w1 g * normalizedDist (canvasWidth g) (obstacles g) p
  + w2 g * normalizedHeight (canvasHeight g) p
  + b g.

Definition decide (g : t) (p : Player.t) : Player.t :=
  if JS.gtb (output g p) 0 && Player.grounded p
  then Player.set_grounded false (Player.set_velocityY (Player.jumpPower p) p)
  else p.

(** Step 5: the loop runs from the last obstacle to the first, moving each
    one and splicing it out when it has left the screen. *)
Definition updateObstacles (dt : float) (obs : list Obstacle.t) : list Obstacle.t :=
  fold_right (fun o acc => let o' := Obstacle.update dt o in
                           if Obstacle.isOffScreen o' then acc else o' :: acc)
             [] obs.

Definition step (dt : float) (g : t) (c : N) : t * N :=
  (* 1) accumulate survival time *)
  let time := totalTime g + dt in
  (* 2) player physics *)
  let p := physics dt (canvasHeight g) (player g) in
  (* 3) decision *)
  let p := decide g p in
  (* 4) spawn obstacles *)
  let timer := spawnTimer g + dt in
  let '(timer, delay, obs, c) :=
    if JS.geb timer (nextSpawnDelay g)
    then let '(d, c') := getRandomDelay c in
         (0, d,
          obstacles g ++ [Obstacle.create (canvasWidth g) (canvasHeight g - obstacleSize_h)
                                          obstacleSize_w obstacleSize_h obstacleSpeed],
          c')
    else (timer, nextSpawnDelay g, obstacles g, c) in
  (* 5) update and cull obstacles *)
  let obs := updateObstacles dt obs in
  (* 6) collision detection *)
  let over := if existsb (fun o => Obstacle.collidesWith o p) obs
              then true else gameOver g in
  (make (w1 g) (w2 g) (b g) (canvasWidth g) (canvasHeight g)
        p obs timer delay time over,
   c).

(** [run]: the [while] loop, unrolled at most [fuel] times.  [None] means
    that the loop was still running when the fuel ran out. *)
Fixpoint run_loop (fuel : nat) (g : t) (c : N) : option (t * N) :=
  if negb (gameOver g) && (totalTime g <? MAX_TIME)
  then match fuel with
       | O => None
       | S fuel' => let '(g', c') := step FIXED_DT g c in run_loop fuel' g' c'
       end
  else Some (g, c).

(** [run]: the episode is played to its end and the survival time returned. *)
Definition run (fuel : nat) (g : t) (c : N) : option (float * N) :=
  match run_loop fuel g c with
  | Some (g', c') => Some (totalTime g', c')
  | None => None
  end.

End WithRandom.
End Game.

(* ===================================================================== *)
(** ** The evolutionary trainer *)
(* ===================================================================== *)

Module GA.
Local Open Scope float_scope.

(** A fitness record [{ genome, fitness }]. *)
Record scored : Type := mkScored {
  genome : list float;
  fitness : float
}.

(** What can go wrong: a [while] loop still running when the fuel is spent,
    or a property read from [undefined]. *)
Inductive error : Type := OutOfFuel | TypeError.

Inductive result (A : Type) : Type :=
  | Ok (a : A)
  | Err (e : error).
Arguments Ok {A} a.
Arguments Err {A} e.

(** Computations that call [Math.random]: the cursor is threaded through. *)
Definition M (A : Type) : Type := N -> result (A * N).

Definition ret {A : Type} (a : A) : M A := fun c => Ok (a, c).
Definition raise {A : Type} (e : error) : M A := fun _ => Err e.
Definition bind {A B : Type} (m : M A) (k : A -> M B) : M B :=
  fun c => match m c with
           | Ok (a, c') => k a c'
           | Err e => Err e
           end.

Notation "x <- m ;; k" := (bind m (fun x => k))
  (at level 61, m at next level, right associativity).

Definition POP_SIZE : nat := 50.
Definition ELITE_FRACTION : float := 0.1.
Definition GENERATIONS : nat := 100.
Definition MUTATION_RATE : float := 0.1.
Definition Math_PI : float := 3.141592653589793.

(** [Math.max(-2, Math.min(2, v))] *)
Definition clamp (v : float) : float := JS.Math_max (-2) (JS.Math_min 2 v).

(** [scored.sort((a, b) => b.fitness - a.fitness)].  [Array.prototype.sort]
    is stable, and for fitness values that are numbers this comparator is a
    consistent ordering, so the result is the stable arrangement by
    descending fitness; stable insertion computes that arrangement. *)
Fixpoint insertByFitness (s : scored) (l : list scored) : list scored :=
  match l with
  | [] => [s]
  | s' :: l' => if fitness s <? fitness s'
                then s' :: insertByFitness s l'
                else s :: l
  end.

Definition sortByFitness (l : list scored) : list scored :=
  fold_right insertByFitness [] l.

(** [Math.max(...vals)] and [Math.min(...vals)] *)
Definition Math_max_all (vals : list float) : float :=
  fold_left JS.Math_max vals neg_infinity.
Definition Math_min_all (vals : list float) : float :=
  fold_left JS.Math_min vals infinity.

Section WithRandom.

Variable random : N -> float.

(** [Math.log] and [Math.cos] are left to the engine by the language
    standard; the model takes them as given. *)
Variables Math_log Math_cos : float -> float.

(** The budget of every [while] loop whose length the data decides. *)
Variable fuel : nat.

Definition Math_random : M float := fun c => Ok (random c, N.succ c).

Definition randGenome : M (list float) :=
  r1 <- Math_random ;;
  r2 <- Math_random ;;
  r3 <- Math_random ;;
  ret [r1 * 2 - 1; r2 * 2 - 1; r3 * 2 - 1].

(** [let u = 0; while (u === 0) u = Math.random();] *)
Fixpoint draw_nonzero (n : nat) : M float :=
  match n with
  | O => raise OutOfFuel
  | S n' => u <- Math_random ;;
            if u =? 0 then draw_nonzero n' else ret u
  end.

Definition randn : M float :=
  u <- draw_nonzero fuel ;;
  v <- draw_nonzero fuel ;;
  ret (sqrt (-2 * Math_log u) * Math_cos (2 * Math_PI * v)).

(** *** The visual trainer *)

(** The loop of [mutateGenome] over the genes still to visit. *)
Fixpoint mutateGenes (genes : list float) (mutationRate : float) : M (list float) :=
  match genes with
  | [] => ret []
  | g :: rest =>
      r <- Math_random ;;
      g' <- (if r <? mutationRate
             then n <- randn ;; ret (clamp (g + n * 0.2))
             else ret g) ;;
      rest' <- mutateGenes rest mutationRate ;;
      ret (g' :: rest')
  end.

Definition mutateGenome (genome : list float) (mutationRate : float) : M (list float) :=
  mutateGenes genome mutationRate.

(** [elites[Math.floor(Math.random() * count)].genome] *)
Definition pickParent (elites : list scored) (count : float) : M (list float) :=
  r <- Math_random ;;
  match JS.index elites (JS.Math_floor (r * count)) with
  | Some e => ret (genome e)
  | None => raise TypeError
  end.

(** The [while (nextGeneration.length < targetPopSize)] loop; [missing] is
    the number of slots still to fill, each round filling one. *)
Fixpoint fillOffspring (missing : nat) (elites : list scored) (mutationRate : float)
    (nextGeneration : list (list float)) : M (list (list float)) :=
  match missing with
  | O => ret nextGeneration
  | S missing' =>
      parent <- pickParent elites (JS.of_nat (List.length elites)) ;;
      child <- mutateGenome parent mutationRate ;;
      fillOffspring missing' elites mutationRate (nextGeneration ++ [child])
  end.

Definition breedNextGeneration (targetPopSize : nat) (elites : list scored)
    (mutationRate : float) : M (list (list float)) :=
  let nextGeneration := map genome elites in
  fillOffspring (targetPopSize - List.length nextGeneration) elites mutationRate nextGeneration.

(** The number of elites of the visual trainer,
    [Math.floor(scored.length * 0.1)]. *)
Definition eliteCount (n : nat) : float := JS.Math_floor (JS.of_nat n * 0.1).

(** One round of [swarmTrainingLoop], from the records that the visual run
    of the generation produced to the next population. *)
Definition swarmNextPopulation (targetPopSize : nat) (results : list scored)
    (mutationRate : float) : M (list scored * list (list float)) :=
  let ranked := sortByFitness results in
  match ranked with
  | [] => raise TypeError
  | _ :: _ =>
      let elites := JS.slice0 ranked (eliteCount (List.length ranked)) in
      pop <- breedNextGeneration targetPopSize elites mutationRate ;;
      ret (ranked, pop)
  end.

(** *** The headless trainer *)

(** [new Game(genome).run()] *)
Definition evaluate (g : list float) : M scored :=
  fun c =>
    let '(game, c1) := Game.create random g c in
    match Game.run random fuel game c1 with
    | Some (time, c2) => Ok (mkScored g time, c2)
    | None => Err OutOfFuel
    end.

Fixpoint evaluateAll (population : list (list float)) : M (list scored) :=
  match population with
  | [] => ret []
  | g :: rest => s <- evaluate g ;;
                 ss <- evaluateAll rest ;;
                 ret (s :: ss)
  end.

(** [Math.max(0.1, Math.max(...vals) - Math.min(...vals))] *)
Definition spread (vals : list float) : float :=
  JS.Math_max 0.1 (Math_max_all vals - Math_min_all vals).

(** One child of [runGA]. *)
Definition offspring (parent : list float) (s1 s2 sb : float) : M (list float) :=
  n1 <- randn ;;
  n2 <- randn ;;
  n3 <- randn ;;
  ret [clamp (JS.num_at parent 0 + n1 * s1 * MUTATION_RATE);
       clamp (JS.num_at parent 1 + n2 * s2 * MUTATION_RATE);
       clamp (JS.num_at parent 2 + n3 * sb * MUTATION_RATE)].

Fixpoint fillNewPop (missing : nat) (elites : list scored) (count : float)
    (s1 s2 sb : float) (newPop : list (list float)) : M (list (list float)) :=
  match missing with
  | O => ret newPop
  | S missing' =>
      parent <- pickParent elites count ;;
      child <- offspring parent s1 s2 sb ;;
      fillNewPop missing' elites count s1 s2 sb (newPop ++ [child])
  end.

(** The elites of a ranking and the population bred from it. *)
Definition replacement (ranked : list scored) : M (list (list float)) :=
  let eliteCount := JS.Math_floor (JS.of_nat POP_SIZE * ELITE_FRACTION) in
  let elites := JS.slice0 ranked eliteCount in
  let s1 := spread (map (fun e => JS.num_at (genome e) 0) elites) in
  let s2 := spread (map (fun e => JS.num_at (genome e) 1) elites) in
  let sb := spread (map (fun e => JS.num_at (genome e) 2) elites) in
  let newPop := map genome elites in
  fillNewPop (POP_SIZE - List.length newPop) elites eliteCount s1 s2 sb newPop.

(** The body of the [for] loop: evaluate, rank, record the best fitness,
    replace the population. *)
Definition generation (population : list (list float))
    : M (list scored * list (list float)) :=
  results <- evaluateAll population ;;
  let ranked := sortByFitness results in
  match ranked with
  | [] => raise TypeError
  | _ :: _ => newPop <- replacement ranked ;;
              ret (ranked, newPop)
  end.

Fixpoint generations (n : nat) (population : list (list float))
    (bestFitnessHistory : list float) : M (list (list float) * list float) :=
  match n with
  | O => ret (population, bestFitnessHistory)
  | S n' =>
      rp <- generation population ;;
      let best := match fst rp with s :: _ => fitness s | [] => nan end in
      generations n' (snd rp) (bestFitnessHistory ++ [best])
  end.

Fixpoint initialPopulation (n : nat) : M (list (list float)) :=
  match n with
  | O => ret []
  | S n' => g <- randGenome ;;
            gs <- initialPopulation n' ;;
            ret (g :: gs)
  end.

(** [runGA] returns [population[0]], which is [undefined] ([None]) for an
    empty population. *)
Definition runGA : M (option (list float)) :=
  population <- initialPopulation POP_SIZE ;;
  ph <- generations GENERATIONS population [] ;;
  ret (nth_error (fst ph) 0).

End WithRandom.
End GA.

(* ===================================================================== *)
(** ** The notions in which the properties are stated *)
(* ===================================================================== *)

Module Notions.
Local Open Scope float_scope.
Import GA.

(** The comparison of two numbers, through their specification. *)
Definition cmp (x y : float) : option comparison :=
  SFcompare (Prim2SF x) (Prim2SF y).

(** A gene is within range when [-2 <= v] and [v <= 2]. *)
Definition within (v : float) : bool := (-2 <=? v) && (v <=? 2).

(** The shape of a finite number. *)
Definition SFfinite (x : spec_float) : bool :=
  match x with
  | S754_zero _ | S754_finite _ _ _ => true
  | _ => false
  end.

(** The position on the horizontal axis and the size of a player. *)
Definition same_frame (p p' : Player.t) : Prop :=
  Player.x p' = Player.x p
  /\ Player.width p' = Player.width p
  /\ Player.height p' = Player.height p.

(** The clock after [k] more steps: it does not depend on the rest of the
    state. *)
Fixpoint time_after (k : nat) (t : float) : float :=
  match k with
  | O => t
  | S k' => time_after k' (t + Game.FIXED_DT)
  end.

(** The loop has ended in state [g]. *)
Definition ended (g : Game.t) : bool :=
  Game.gameOver g || negb (Game.totalTime g <? Game.MAX_TIME).

(** The number of steps after which the clock of a fresh game first fails
    the test [totalTime < MAX_TIME]. *)
Definition MAX_STEPS : nat := 1801.

(** The clock values an episode can end with. *)
Fixpoint clock_values (k : nat) (t : float) : list float :=
  match k with
  | O => [t]
  | S k' => t :: clock_values k' (t + Game.FIXED_DT)
  end.

(** The largest survival time there is. *)
Definition LONGEST : float := 30.016666666666243.

(** The oracle whose every draw is one half: every spawn delay is 1.65 s. *)
Definition half : N -> float := fun _ => 0.5.

(** A policy that jumps when the next obstacle is close. *)
Definition jumper : list float := [-2; 0; 0.25].

(** [n] consecutive calls of [step]. *)
Fixpoint steps (random : N -> float) (dt : float) (n : nat) (g : Game.t) (c : N)
    : Game.t * N :=
  match n with
  | O => (g, c)
  | S n' => let '(g', c') := Game.step random dt g c in steps random dt n' g' c'
  end.

(** The player rests on the ground of a playfield of height [canvasH]. *)
Definition at_rest (canvasH : float) (p : Player.t) : Prop :=
  Player.y p = canvasH - Player.height p
  /\ Player.velocityY p = 0
  /\ Player.grounded p = true.

(** The output that the policy computes in the step taken from state [g],
    on the player as the physics of that step leaves it, is not strictly
    positive. *)
Definition no_jump (dt : float) (g : Game.t) : Prop :=
  JS.gtb (Game.output g (Game.physics dt (Game.canvasHeight g) (Game.player g))) 0
  = false.

(** A policy that never jumps. *)
Definition still : list float := [0; 0; -1].

(** The never-jumping player, 20 steps into its episode: it has fallen
    the 10 pixels from where it starts and lies on the ground. *)
Definition landed : Game.t * N :=
  Eval vm_compute in
    steps half Game.FIXED_DT 20
          (fst (Game.create half still 0))
          (snd (Game.create half still 0)).

(** The jumping player of [jumper], 203 steps into its episode:
    it is in the air, above the first obstacle. *)
Definition airborne : Game.t * N :=
  Eval vm_compute in
    steps half Game.FIXED_DT 203
          (fst (Game.create half jumper 0))
          (snd (Game.create half jumper 0)).

(** The normalized distance that the step taken from state [g] feeds to
    the policy. *)
Definition fed_distance (dt : float) (g : Game.t) : float :=
  Game.normalizedDist (Game.canvasWidth g) (Game.obstacles g)
                      (Game.physics dt (Game.canvasHeight g) (Game.player g)).

(** A deterministic stand-in for [Math.random] with varied draws, all
    strictly between 0 and 1. *)
Definition lcg (n : N) : float :=
  SF2Prim (binary_normalize prec emax (Z.of_N ((n * 7919 + 104729) mod 10007) + 1) 0 false)
  / 10009.

(** Stand-ins for [Math.log] and [Math.cos] under which every Gaussian
    sample is [sqrt(-2 * -0.5) * 1 = 1]. *)
Definition log_const : float -> float := fun _ => -0.5.
Definition cos_const : float -> float := fun _ => 1.

(** The elite count as the specification words it,
    [ceil(populationSize * eliteFraction)]. *)
Definition eliteCount_spec (n : nat) : float :=
  - JS.Math_floor (- (JS.of_nat n * 0.1)).

(** Fifteen records: record [i] has genome [[i, 0, 0]] and fitness [i]. *)
Definition results15 : list scored :=
  map (fun i => mkScored [JS.of_nat i; 0; 0] (JS.of_nat i)) (seq 0 15).

(** The round of the visual trainer on these records, with a population
    size of 15 and a mutation rate of 0. *)
Definition round15 : result (list scored * list (list float) * N) :=
  Eval vm_compute in
    swarmNextPopulation half log_const cos_const 1 15 results15 0 0%N.

Definition ranked15 : list scored :=
  match round15 with Ok (ranked, _, _) => ranked | Err _ => [] end.
Definition pop15 : list (list float) :=
  match round15 with Ok (_, pop, _) => pop | Err _ => [] end.

(** A population of 50 random genomes and the first generation of [runGA]
    on it. *)
Definition firstGeneration : result (list scored * list (list float) * N) :=
  Eval vm_compute in
    bind (initialPopulation lcg 50)
         (fun p => generation lcg log_const cos_const 1801 p) 0%N.

Definition ranked50 : list scored :=
  match firstGeneration with Ok (ranked, _, _) => ranked | Err _ => [] end.
Definition pop50 : list (list float) :=
  match firstGeneration with Ok (_, pop, _) => pop | Err _ => [] end.
Definition cursor50 : N :=
  match firstGeneration with Ok (_, _, c) => c | Err _ => 0%N end.
Definition initial50 : list (list float) * N :=
  Eval vm_compute in
    match initialPopulation lcg 50 0%N with Ok r => r | Err _ => ([], 0%N) end.

(** No record of [l] has a fitness above that of [h]. *)
Definition tops (h : scored) (l : list scored) : Prop :=
  Forall (fun r => (fitness h <? fitness r) = false) l.

(** Every fitness of [l] is a number. *)
Definition numbers (l : list scored) : Prop :=
  Forall (fun r => is_nan (fitness r) = false) l.

(** [Math.floor(r * n)] is one of the indices 0 to n - 1 of a list of
    [n] elements. *)
Definition picks_index (r : float) (n : nat) : Prop :=
  exists i, (i < n)%nat /\ JS.to_integer (JS.Math_floor (r * JS.of_nat n)) = Some (Z.of_nat i).

(** Every gene of the list is within [-2, 2]. *)
Definition all_within (genes : list float) : Prop :=
  Forall (fun g => within g = true) genes.

(** Every gene of the list is a finite number. *)
Definition all_finite (genes : list float) : Prop :=
  Forall (fun g => is_finite g = true) genes.

(** *** Rounding *)

(** The number of binary digits of a mantissa. *)
Definition D (p : positive) : Z := Zpos (digits2_pos p).

(** The canonical exponent of binary64 for a number of magnitude [d]. *)
Definition fx (d : Z) : Z := fexp prec emax d.

(** The state of the shifter after [k] steps from an exact start [m0]: the
    quotient, no lost bit when the division is exact, and the round bit as
    the last bit shifted out. *)
Definition shifted (m0 : Z) (k : Z) (mrs : shr_record) : Prop :=
  (shr_m mrs = m0 / 2 ^ k
   /\ (m0 mod 2 ^ k = 0 -> shr_r mrs = false /\ shr_s mrs = false)
   /\ (shr_r mrs = true -> 0 < k /\ Z.odd (m0 / 2 ^ (k - 1)) = true))%Z.

(** What [binary_round_aux] makes of the rounded mantissa [m2] at the
    canonical exponent [f]. *)
Definition rounded (s : bool) (m2 f : Z) : spec_float :=
  if (m2 =? 0)%Z then S754_zero s
  else if (m2 <? 2 ^ 53)%Z
       then if (f <=? 971)%Z then S754_finite s (Z.to_pos m2) f else S754_infinity s
       else if (f + 1 <=? 971)%Z then S754_finite s 4503599627370496 (f + 1)
            else S754_infinity s.

(** The magnitude of [r] is at least, or at most, the one of the finite
    number of mantissa [mx] and exponent [ex], and its sign is [s]. *)
Definition above (s : bool) (ex : Z) (mx : positive) (r : spec_float) : Prop :=
  match r with
  | S754_finite s' m e => s' = s /\ ((ex < e)%Z \/ (e = ex /\ (mx <= m)%positive))
  | S754_infinity s' => s' = s
  | S754_nan => True
  | S754_zero _ => False
  end.

Definition below (s : bool) (ex : Z) (mx : positive) (r : spec_float) : Prop :=
  match r with
  | S754_finite s' m e => s' = s /\ ((e < ex)%Z \/ (e = ex /\ (m <= mx)%positive))
  | S754_zero s' => s' = s
  | S754_nan => True
  | S754_infinity _ => False
  end.

Definition signed (s : bool) (r : spec_float) : Prop :=
  match r with
  | S754_finite s' _ _ | S754_infinity s' | S754_zero s' => s' = s
  | S754_nan => True
  end.

(** *** Boxes in contact *)

(** The boxes are not separated on the vertical axis: neither lies wholly
    above the other. *)
Definition meet_vertically {T P : Type} `{Box T} `{Box P} (this : T) (player : P) : Prop :=
  (box_y player + box_height player <? box_y this) = false
  /\ (box_y this + box_height this <? box_y player) = false.

(** The boxes are not separated on the horizontal axis. *)
Definition meet_horizontally {T P : Type} `{Box T} `{Box P} (this : T) (player : P) : Prop :=
  (box_x player + box_width player <? box_x this) = false
  /\ (box_x this + box_width this <? box_x player) = false.

(** A player standing on the ground with its right edge at 410, and an
    obstacle whose left edge is at 410. *)
Definition touching_player : Player.t := Player.make 390 430 20 20 0 981 (-500) true.
Definition touching_obstacle : Obstacle.t := Obstacle.create 410 425 25 25 250.

End Notions.

(* ===================================================================== *)
(** ** The culling loop, index by index *)
(* ===================================================================== *)

Module Cull.
Local Open Scope float_scope.

(** [for (let i = obstacles.length - 1; i >= 0; i--) {
       obstacles[i].update(dt);
       if (obstacles[i].isOffScreen()) obstacles.splice(i, 1); }]
    on the array itself: [loop dt n obs] runs the rounds [i = n - 1] down
    to [i = 0].  A round that finds no element at its index stops with a
    [TypeError] ([None]). *)
Fixpoint loop (dt : float) (n : nat) (obs : list Obstacle.t) : option (list Obstacle.t) :=
  match n with
  | O => Some obs
  | S i =>
      match nth_error obs i with
      | None => None
      | Some o =>
          let o' := Obstacle.update dt o in
          let obs := firstn i obs ++ o' :: skipn (S i) obs in
          let obs := if Obstacle.isOffScreen o'
                     then firstn i obs ++ skipn (S i) obs
                     else obs in
          loop dt i obs
      end
  end.

Definition run (dt : float) (obs : list Obstacle.t) : option (list Obstacle.t) :=
  loop dt (List.length obs) obs.

End Cull.

(* ===================================================================== *)
(** ** The interactive game *)
(* ===================================================================== *)

Module Main.
Local Open Scope float_scope.

(** The globals of the game script; [app_width] and [app_height] are the
    dimensions of the canvas.  The colour of the player, which only the
    drawing reads, is left out. *)
Record state : Type := make {
  app_width : float;
  app_height : float;
  player : Player.t;
  obstacles : list Obstacle.t;
  spawnTimer : float;
  nextSpawnDelay : float;
  lastTime : float;
  bestAIGenome : option (list float);
  aiMode : bool
}.

Section WithRandom.

Variable random : N -> float.

(** The globals as the script leaves them when it has been loaded. *)
Definition load (width height : float) (c : N) : state * N :=
  let '(delay, c') := Game.getRandomDelay random c in
  (make width height
        (Player.make (width / 2 - 10) (height - 30) 20 20 0 981 (-500) false)
        [] 0 delay 0 None false,
   c').

(** [update(currentTime)]: one frame.  The boolean tells whether the next
    frame is requested, which it is unless an obstacle was hit. *)
Definition update (currentTime : float) (s : state) (c : N) : state * bool * N :=
  let deltaTime := (currentTime - lastTime s) / 1000 in
  (* gravity, position, ground *)
  let p := player s in
  let p := if negb (Player.grounded p)
           then Player.set_velocityY (Player.velocityY p + Player.gravity p * deltaTime) p
           else p in
  let p := Player.set_y (Player.y p + Player.velocityY p * deltaTime) p in
  let groundY := app_height s - Player.height p in
  let p := if JS.geb (Player.y p) groundY
           then Player.set_grounded true (Player.set_velocityY 0 (Player.set_y groundY p))
           else Player.set_grounded false p in
  (* the trained genome decides, in AI mode *)
  let p :=
    match aiMode s, bestAIGenome s with
    | true, Some genome =>
        let nextObstacle :=
          find (fun o => JS.gtb (Obstacle.x o + Obstacle.width o) (Player.x p))
               (obstacles s) in
        let distToNext := match nextObstacle with
                          | Some o => Obstacle.x o - Player.x p
                          | None => 999
                          end in
        let playerHeight := Player.y p in
        let normalizedDist := JS.Math_min (distToNext / app_width s) 1 in
        let normalizedHeight := playerHeight / app_height s in
        let output := JS.num_at genome 0 * normalizedDist
                      + JS.num_at genome 1 * normalizedHeight
                      + JS.num_at genome 2 in
        if JS.gtb output 0 && Player.grounded p
        then Player.set_grounded false (Player.set_velocityY (Player.jumpPower p) p)
        else p
    | _, _ => p
    end in
  (* spawning *)
  let timer := spawnTimer s + deltaTime in
  let '(timer, delay, obs, c) :=
    if JS.geb timer (nextSpawnDelay s)
    then let '(d, c') := Game.getRandomDelay random c in
         (0, d,
          obstacles s ++ [Obstacle.create (app_width s) (app_height s - obstacleSize_h)
                                          obstacleSize_w obstacleSize_h obstacleSpeed],
          c')
    else (timer, nextSpawnDelay s, obstacles s, c) in
  (* moving and culling, then the collision test *)
  let obs := Game.updateObstacles deltaTime obs in
  let gameOver := existsb (fun o => Obstacle.collidesWith o p) obs in
  (make (app_width s) (app_height s) p obs timer delay currentTime
        (bestAIGenome s) (aiMode s),
   negb gameOver, c).

(** The [keydown] listener.  The key [t] starts [runGA], whose result
    arrives later ([trained]). *)
Definition keydown (key : string) (s : state) (c : N) : state * N :=
  let p := player s in
  let p := if String.eqb key "ArrowUp" || String.eqb key " "
           then if Player.grounded p
                then Player.set_grounded false (Player.set_velocityY (Player.jumpPower p) p)
                else p
           else p in
  let '(p, obs, timer, delay, c) :=
    if String.eqb key "r" || String.eqb key "R"
    then let p := Player.make (app_width s / 2 - 10) (app_height s - 30)
                              (Player.width p) (Player.height p) 0
                              (Player.gravity p) (Player.jumpPower p) false in
         let '(d, c') := Game.getRandomDelay random c in
         (p, [], 0, d, c')
    else (p, obstacles s, spawnTimer s, nextSpawnDelay s, c) in
  let mode := if String.eqb key "a" || String.eqb key "A"
              then match bestAIGenome s with
                   | Some _ => negb (aiMode s)
                   | None => aiMode s
                   end
              else aiMode s in
  (make (app_width s) (app_height s) p obs timer delay (lastTime s)
        (bestAIGenome s) mode,
   c).

(** [runGA().then(best => { bestAIGenome = best; })] *)
Definition trained (best : option (list float)) (s : state) : state :=
  make (app_width s) (app_height s) (player s) (obstacles s) (spawnTimer s)
       (nextSpawnDelay s) (lastTime s) best (aiMode s).

(** What happens to the page: a frame is drawn, a key is pressed, a
    training run ends. *)
Inductive event : Type :=
  | Frame (currentTime : float)
  | Key (key : string)
  | Trained (best : option (list float)).

Definition handle (e : event) (s : state) (c : N) : state * N :=
  match e with
  | Frame t => let '(s', _, c') := update t s c in (s', c')
  | Key k => keydown k s c
  | Trained best => (trained best s, c)
  end.

Fixpoint handle_all (es : list event) (s : state) (c : N) : state * N :=
  match es with
  | [] => (s, c)
  | e :: es' => let '(s', c') := handle e s c in handle_all es' s' c'
  end.

End WithRandom.
End Main.

(* ===================================================================== *)
(** ** A generation of the visual trainer *)
(* ===================================================================== *)

Module Visual.
Local Open Scope float_scope.

(** A game of the swarm with the genome stored on it, and whether it is
    still in [aliveBots]. *)
Record bot : Type := mkBot {
  game : Game.t;
  genome : list float;
  alive : bool
}.

Section WithRandom.

Variable random : N -> float.
Variables Math_log Math_cos : float -> float.

(** [interrupted n] is [!swarmAnimating || swarmPaused] as the n-th call
    of [simulationStep] finds it: the buttons are handled between frames. *)
Variable interrupted : nat -> bool.

(** The dimensions of the canvas and the speed slider. *)
Variables canvasWidth canvasHeight : float.
Variable swarmSpeedFactor : float.

Variable fuel : nat.

(** [new Game(genome)] with the dimensions of the canvas and the player
    moved to its place on it. *)
Definition createBot (g : list float) : GA.M bot :=
  fun c =>
    let '(gm, c') := Game.create random g c in
    let p := Game.player gm in
    GA.Ok (mkBot (Game.make (Game.w1 gm) (Game.w2 gm) (Game.b gm)
                            canvasWidth canvasHeight
                            (Player.make (canvasWidth / 2 - 10) (canvasHeight - 30)
                                         (Player.width p) (Player.height p)
                                         (Player.velocityY p) (Player.gravity p)
                                         (Player.jumpPower p) (Player.grounded p))
                            (Game.obstacles gm) (Game.spawnTimer gm)
                            (Game.nextSpawnDelay gm) (Game.totalTime gm)
                            (Game.gameOver gm))
                 g true,
           c').

Fixpoint createBots (population : list (list float)) : GA.M (list bot) :=
  match population with
  | [] => GA.ret []
  | g :: rest => GA.bind (createBot g) (fun b =>
                 GA.bind (createBots rest) (fun bs =>
                 GA.ret (b :: bs)))
  end.

Definition dt : float := 1 / 60 * swarmSpeedFactor.

(** The callback of [aliveBots.filter], bot by bot: a bot that has not
    ended takes a step and stays, any other bot leaves [aliveBots]. *)
Fixpoint stepAlive (bots : list bot) (c : N) : list bot * N :=
  match bots with
  | [] => ([], c)
  | b :: rest =>
      let '(b', c1) :=
        if alive b
        then if negb (Game.gameOver (game b)) && (Game.totalTime (game b) <? 30)
             then let '(g', c') := Game.step random dt (game b) c in
                  (mkBot g' (genome b) true, c')
             else (mkBot (game b) (genome b) false, c)
        else (b, c) in
      let '(rest', c2) := stepAlive rest c1 in
      (b' :: rest', c2)
  end.

(** [bots.map(bot => ({ genome: bot.genome, fitness: bot.totalTime }))] *)
Definition results (bots : list bot) : list GA.scored :=
  map (fun b => GA.mkScored (genome b) (Game.totalTime (game b))) bots.

(** [simulationStep], called for the [frame]-th time.  The drawing is left
    out; the draw of [Math.random] that decides about the log line is
    not. *)
Fixpoint simulationStep (n : nat) (frame : nat) (bots : list bot) : GA.M (list GA.scored) :=
  match n with
  | O => GA.raise GA.OutOfFuel
  | S n' =>
      if interrupted frame then GA.ret (results bots)
      else fun c =>
        let '(bots', c1) := stepAlive bots c in
        GA.bind (GA.Math_random random) (fun _ =>
          if existsb alive bots'
          then simulationStep n' (S frame) bots'
          else GA.ret (results bots')) c1
  end.

Definition runSwarmGenerationVisual (population : list (list float))
    : GA.M (list GA.scored) :=
  GA.bind (createBots population) (fun bots => simulationStep fuel 0 bots).

(** The body of the loop of [swarmTrainingLoop]: the generation is run,
    ranked and bred from. *)
Definition swarmRound (targetPopSize : nat) (mutationRate : float)
    (swarmPopulation : list (list float))
    : GA.M (list GA.scored * list (list float)) :=
  GA.bind (runSwarmGenerationVisual swarmPopulation) (fun scored =>
    GA.swarmNextPopulation random Math_log Math_cos fuel targetPopSize scored mutationRate).

End WithRandom.
End Visual.

(* ===================================================================== *)
(** ** More notions *)
(* ===================================================================== *)

Module MoreNotions.
Local Open Scope float_scope.
Import Notions.

(** The ground level of a game: where the top edge of a standing player
    is. *)
Definition groundY (g : Game.t) : float :=
  Game.canvasHeight g - Player.height (Game.player g).

(** The player after a jump started from [q]. *)
Definition jumped (q : Player.t) : Player.t :=
  Player.set_grounded false (Player.set_velocityY (Player.jumpPower q) q).

(** An obstacle as the game spawns them on a playfield of height
    [canvasH]: on the ground, 25 by 25, moving at 250 pixels a second. *)
Definition spawned_shape (canvasH : float) (o : Obstacle.t) : Prop :=
  Obstacle.y o = canvasH - obstacleSize_h
  /\ Obstacle.width o = obstacleSize_w
  /\ Obstacle.height o = obstacleSize_h
  /\ Obstacle.speed o = obstacleSpeed
  /\ Obstacle.color o = "red"%string.

(** The obstacles that a step has to deal with: the ones there were and,
    when the timer says so, a new one at the right edge. *)
Definition due (dt : float) (g : Game.t) : list Obstacle.t :=
  if JS.geb (Game.spawnTimer g + dt) (Game.nextSpawnDelay g)
  then Game.obstacles g ++ [Obstacle.create (Game.canvasWidth g)
                                            (Game.canvasHeight g - obstacleSize_h)
                                            obstacleSize_w obstacleSize_h obstacleSpeed]
  else Game.obstacles g.

(** A game that has been lost. *)
Definition lost : Game.t :=
  Game.make 0 0 0 CANVAS_WIDTH CANVAS_HEIGHT touching_player [touching_obstacle]
            0 1 0.5 true.

End MoreNotions.

Module MainNotions.
Local Open Scope float_scope.
Import Notions.

(** The headless game [g] of the genome is in the state in which the
    interactive game [s] is. *)
Definition mirrors (genome : list float) (s : Main.state) (g : Game.t) : Prop :=
  Game.w1 g = JS.num_at genome 0
  /\ Game.w2 g = JS.num_at genome 1
  /\ Game.b g = JS.num_at genome 2
  /\ Game.canvasWidth g = Main.app_width s
  /\ Game.canvasHeight g = Main.app_height s
  /\ Game.player g = Main.player s
  /\ Game.obstacles g = Main.obstacles s
  /\ Game.spawnTimer g = Main.spawnTimer s
  /\ Game.nextSpawnDelay g = Main.nextSpawnDelay s.

(** No training run of the list has delivered a genome. *)
Definition untrained (es : list Main.event) : Prop :=
  Forall (fun e => match e with Main.Trained (Some _) => False | _ => True end) es.

(** Every training run of the list has delivered a genome. *)
Definition delivering (es : list Main.event) : Prop :=
  Forall (fun e => match e with Main.Trained None => False | _ => True end) es.

(** What no event changes of a player: its place on the horizontal axis
    apart, which the reset sets anew. *)
Definition same_build (p p' : Player.t) : Prop :=
  Player.width p' = Player.width p
  /\ Player.height p' = Player.height p
  /\ Player.gravity p' = Player.gravity p
  /\ Player.jumpPower p' = Player.jumpPower p.

(** The interactive game on the default canvas, in AI mode with the genome
    [jumper], before its first frame. *)
Definition ai_ready : Main.state * N :=
  Eval vm_compute in
    Main.handle_all half [Main.Trained (Some jumper); Main.Key "a"]
                    (fst (Main.load half CANVAS_WIDTH CANVAS_HEIGHT 0))
                    (snd (Main.load half CANVAS_WIDTH CANVAS_HEIGHT 0)).

End MainNotions.

Module TrainerNotions.
Local Open Scope float_scope.
Import Notions GA.

(** Ranked: no record has a fitness below that of a record further down
    the list. *)
Definition ranked_down (l : list scored) : Prop :=
  StronglySorted (fun a b => (fitness a <? fitness b) = false) l.

(** Nine records, too few for the visual trainer to keep an elite. *)
Definition results9 : list scored :=
  map (fun i => mkScored [JS.of_nat i; 0; 0] (JS.of_nat i)) (seq 0 9).

End TrainerNotions.

Module VisualNotions.
Local Open Scope float_scope.
Import Notions.

(** The bots of frame [j] of a generation at speed 1: a bot still in
    [aliveBots] has taken every step so far, any other bot stopped at one
    of the clock values. *)
Definition on_the_clock (j : nat) (bots : list Visual.bot) : Prop :=
  Forall (fun b => if Visual.alive b
                   then Game.totalTime (Visual.game b) = time_after j 0
                   else In (Game.totalTime (Visual.game b)) (clock_values MAX_STEPS 0))
         bots.

(** A survival time that the clock of the game can show. *)
Definition clocked (s : GA.scored) : Prop :=
  In (GA.fitness s) (clock_values MAX_STEPS 0)
  /\ (GA.fitness s <=? LONGEST) = true.

(** The buttons are never touched. *)
Definition undisturbed : nat -> bool := fun _ => false.

(** The pause button is pressed during the third frame. *)
Definition paused_at_3 : nat -> bool := fun n => Nat.leb 3 n.

End VisualNotions.

Module ValueNotions.
Import Notions.
Local Open Scope Z_scope.

(** The value of a finite number, counted in units of [2 ^ E]: an integer
    when [E] is at most the exponent of the number. *)
Definition units (E : Z) (x : spec_float) : Z :=
  match x with
  | S754_finite s m e => cond_Zopp s (Zpos m * 2 ^ (e - E))
  | _ => 0
  end.

(** [E] is at most the exponent of [x]. *)
Definition reaches (E : Z) (x : spec_float) : Prop :=
  match x with
  | S754_finite _ _ e => E <= e
  | _ => True
  end.

(** A number of binary64 that is a zero or finite. *)
Definition proper (x : spec_float) : Prop :=
  valid_binary x = true /\ SFfinite x = true.

(** The value of a finite number counted in units of [2 ^ -1074], the
    smallest positive number of binary64: every finite number is a whole
    number of them. *)
Definition quanta (x : float) : Z := units (-1074) (Prim2SF x).

(** The number [z * 2 ^ e] of binary64, for a [z] of at most 53 digits. *)
Definition dyadic (z e : Z) : float :=
  SF2Prim (binary_normalize prec emax z e false).

End ValueNotions.

Module SpawnNotions.
Import Notions.
Local Open Scope float_scope.

(** What [Math.random] returns: a number from 0 inclusive to 1 exclusive. *)
Definition unit_draw (r : float) : bool := (0 <=? r) && (r <? 1).

(** A delay from [minSpawnDelay] to [maxSpawnDelay], both inclusive. *)
Definition in_delay_range (d : float) : bool :=
  (minSpawnDelay <=? d) && (d <=? maxSpawnDelay).

(** The spawn timer after [k] steps of [FIXED_DT] from 0. *)
Fixpoint timer_after (k : nat) : float :=
  match k with
  | O => 0
  | S k' => timer_after k' + Game.FIXED_DT
  end.

(** The spawn delay is within its range and the spawn timer has not
    reached it. *)
Definition timer_pending (g : Game.t) : Prop :=
  in_delay_range (Game.nextSpawnDelay g) = true
  /\ JS.geb (Game.spawnTimer g) (Game.nextSpawnDelay g) = false.

(** A fresh game on the genome [[1; 1; 1]], with draws of 0.5. *)
Definition fresh_game : Game.t * N :=
  Game.create half [1; 1; 1] 0%N.

(** The same for the globals of the interactive game. *)
Definition main_timer_pending (s : Main.state) : Prop :=
  in_delay_range (Main.nextSpawnDelay s) = true
  /\ JS.geb (Main.spawnTimer s) (Main.nextSpawnDelay s) = false.

(** A session: two frames, a jump, a reset, and a frame long after. *)
Definition session : list Main.event :=
  [Main.Frame 16; Main.Key "ArrowUp"; Main.Frame 33; Main.Key "r"; Main.Frame 5000].

End SpawnNotions.

Module EliteNotions.
Import Notions GA.

(** Fifteen records, as a round of the visual trainer on fifteen bots
    leaves them. *)
Definition fifteen : list scored :=
  map (fun k => mkScored [JS.of_nat k; 0%float; 0%float] (JS.of_nat k)) (seq 0 15).

End EliteNotions.

Module PopulationNotions.
Import Notions GA.
Local Open Scope float_scope.

(** A gene from -1 to 1, both inclusive. *)
Definition within_one (v : float) : bool := (-1 <=? v) && (v <=? 1).

(** A genome of three genes, each within [-2, 2]. *)
Definition well_formed (g : list float) : Prop :=
  List.length g = 3%nat /\ all_within g.

(** A population of such genomes. *)
Definition all_well_formed (pop : list (list float)) : Prop :=
  Forall well_formed pop.

(** Ten records of the visual trainer on the genome [[0; 0; 0]]. *)
Definition records10 : list scored :=
  map (fun k => mkScored [0; 0; 0] (JS.of_nat k)) (seq 0 10).

End PopulationNotions.

Module TrafficNotions.
Import Notions SpawnNotions.
Local Open Scope float_scope.

(** The obstacle that a step of the headless game spawns. *)
Definition spawned : Obstacle.t :=
  Obstacle.create CANVAS_WIDTH (CANVAS_HEIGHT - obstacleSize_h)
                  obstacleSize_w obstacleSize_h obstacleSpeed.

(** The obstacle after [a] steps of [FIXED_DT]: its age decides where it
    is. *)
Fixpoint obstacle_at (a : nat) : Obstacle.t :=
  match a with
  | O => spawned
  | S a' => Obstacle.update Game.FIXED_DT (obstacle_at a')
  end.

Definition on_screen (a : nat) : bool := negb (Obstacle.isOffScreen (obstacle_at a)).

(** Ages, the youngest first, at least 48 steps apart. *)
Definition spaced (ages : list nat) : Prop :=
  StronglySorted (fun young old => (young + 48 <= old)%nat) ages.

(** The ages after one more step: those still on the screen. *)
Definition advance (ages : list nat) : list nat := filter on_screen (map S ages).

(** The obstacles of the game are those of the ages [ages], the oldest
    first; an obstacle younger than 49 steps was the last one spawned, and
    the spawn timer has run since. *)
Definition traffic (g : Game.t) (ages : list nat) : Prop :=
  Game.obstacles g = map obstacle_at (rev ages)
  /\ spaced ages
  /\ Forall (fun a => (1 <= a <= 198)%nat) ages
  /\ (forall a rest, ages = a :: rest -> (a <= 48)%nat ->
                     Game.spawnTimer g = timer_after (a - 1)).

Definition regular (g : Game.t) : Prop :=
  Game.canvasWidth g = CANVAS_WIDTH
  /\ Game.canvasHeight g = CANVAS_HEIGHT
  /\ in_delay_range (Game.nextSpawnDelay g) = true
  /\ exists ages, traffic g ages.

End TrafficNotions.

(* ===================================================================== *)
(** ** Facts about binary64 comparison and arithmetic *)
(* ===================================================================== *)

Module FloatFacts.
Local Open Scope float_scope.
Import Notions.

Lemma ltb_cmp (x y : float) : (x <? y) = true <-> cmp x y = Some Lt.
Proof.
  rewrite ltb_spec. unfold SFltb, cmp.
  destruct (SFcompare _ _) as [[ | | ]|]; split; congruence.
Qed.

Lemma leb_cmp (x y : float) :
  (x <=? y) = true <-> cmp x y = Some Lt \/ cmp x y = Some Eq.
Proof.
  rewrite leb_spec. unfold SFleb, cmp.
  destruct (SFcompare _ _) as [[ | | ]|]; split; intros; try tauto; try congruence;
    destruct H; congruence.
Qed.

Lemma eqb_cmp (x y : float) : (x =? y) = true <-> cmp x y = Some Eq.
Proof.
  rewrite eqb_spec. unfold SFeqb, cmp.
  destruct (SFcompare _ _) as [[ | | ]|]; split; congruence.
Qed.

Lemma SFcompare_antisym (x y : spec_float) :
  SFcompare y x = option_map CompOpp (SFcompare x y).
Proof.
  destruct x as [sx|sx| |sx mx ex], y as [sy|sy| |sy my ey]; simpl;
    try destruct sx; try destruct sy; try reflexivity;
    rewrite (Z.compare_antisym ey ex);
    destruct (ey ?= ex)%Z; simpl; try reflexivity;
    rewrite <- (Pos.compare_cont_antisym _ _ Eq); simpl;
    try rewrite CompOpp_involutive; reflexivity.
Qed.

Lemma cmp_antisym (x y : float) : cmp y x = option_map CompOpp (cmp x y).
Proof. apply SFcompare_antisym. Qed.

Lemma SFcompare_refl (x : spec_float) :
  x <> S754_nan -> SFcompare x x = Some Eq.
Proof.
  destruct x as [s|s| |s m e]; simpl; intros H; try congruence;
    destruct s; try reflexivity;
    rewrite Z.compare_refl, Pos.compare_cont_refl; reflexivity.
Qed.

Lemma SFcompare_None (x y : spec_float) :
  SFcompare x y = None <-> x = S754_nan \/ y = S754_nan.
Proof.
  destruct x as [sx|sx| |sx mx ex], y as [sy|sy| |sy my ey]; simpl;
    split; intros H; try (destruct H; congruence); try congruence; auto;
    try (destruct sx; congruence).
Qed.

Lemma is_nan_spec (x : float) : is_nan x = true <-> Prim2SF x = S754_nan.
Proof.
  unfold is_nan. rewrite eqb_spec. unfold SFeqb. split.
  - intros H. destruct (Prim2SF x) as [s|s| |s m e] eqn:E; auto;
      rewrite SFcompare_refl in H by congruence; discriminate.
  - intros ->. reflexivity.
Qed.

Lemma not_nan_spec (x : float) : is_nan x = false <-> Prim2SF x <> S754_nan.
Proof.
  rewrite <- is_nan_spec. destruct (is_nan x); split; congruence.
Qed.

(** Two numbers are always comparable. *)
Lemma cmp_total (x y : float) :
  is_nan x = false -> is_nan y = false -> exists c, cmp x y = Some c.
Proof.
  rewrite !not_nan_spec. intros Hx Hy. unfold cmp.
  destruct (SFcompare _ _) as [c|] eqn:E; eauto.
  apply SFcompare_None in E. tauto.
Qed.

Lemma cmp_refl (x : float) : is_nan x = false -> cmp x x = Some Eq.
Proof. rewrite not_nan_spec. apply SFcompare_refl. Qed.

Lemma leb_refl (x : float) : is_nan x = false -> (x <=? x) = true.
Proof. intros H. apply leb_cmp. right. now apply cmp_refl. Qed.

Lemma ltb_leb (x y : float) : (x <? y) = true -> (x <=? y) = true.
Proof. rewrite ltb_cmp, leb_cmp. auto. Qed.

Lemma leb_not_ltb (x y : float) : (x <=? y) = true -> (y <? x) = false.
Proof.
  rewrite leb_cmp. intros H.
  destruct (y <? x) eqn:E; auto.
  apply ltb_cmp in E. rewrite cmp_antisym in E.
  destruct H as [H|H]; rewrite H in E; discriminate.
Qed.

Lemma not_ltb_leb (x y : float) :
  is_nan x = false -> is_nan y = false -> (x <? y) = false -> (y <=? x) = true.
Proof.
  intros Hx Hy H. apply leb_cmp. rewrite cmp_antisym.
  destruct (cmp_total x y Hx Hy) as [c Hc]. rewrite Hc.
  destruct c; simpl; auto.
  apply ltb_cmp in Hc. congruence.
Qed.

(** [Math.min] and [Math.max] of two numbers: the result is one of the
    arguments and is on the right side of both. *)
Lemma Math_min_spec (a b : float) :
  is_nan a = false -> is_nan b = false ->
  (JS.Math_min a b = a \/ JS.Math_min a b = b)
  /\ (JS.Math_min a b <=? a) = true /\ (JS.Math_min a b <=? b) = true.
Proof.
  intros Ha Hb. unfold JS.Math_min. rewrite Ha, Hb. simpl.
  destruct (a <? b) eqn:E1; [|destruct (b <? a) eqn:E2].
  - auto using leb_refl, ltb_leb.
  - auto using leb_refl, ltb_leb.
  - pose proof (not_ltb_leb a b Ha Hb E1). pose proof (not_ltb_leb b a Hb Ha E2).
    destruct (get_sign a); auto using leb_refl.
Qed.

Lemma Math_max_spec (a b : float) :
  is_nan a = false -> is_nan b = false ->
  (JS.Math_max a b = a \/ JS.Math_max a b = b)
  /\ (a <=? JS.Math_max a b) = true /\ (b <=? JS.Math_max a b) = true.
Proof.
  intros Ha Hb. unfold JS.Math_max. rewrite Ha, Hb. simpl.
  destruct (a <? b) eqn:E1; [|destruct (b <? a) eqn:E2].
  - auto using leb_refl, ltb_leb.
  - auto using leb_refl, ltb_leb.
  - pose proof (not_ltb_leb a b Ha Hb E1). pose proof (not_ltb_leb b a Hb Ha E2).
    destruct (get_sign a); auto using leb_refl.
Qed.

Lemma Math_min_nan (a b : float) :
  is_nan b = true -> JS.Math_min a b = nan.
Proof. intros H. unfold JS.Math_min. rewrite H, orb_true_r. reflexivity. Qed.

Lemma Math_max_nan (a b : float) :
  is_nan b = true -> JS.Math_max a b = nan.
Proof. intros H. unfold JS.Math_max. rewrite H, orb_true_r. reflexivity. Qed.

Lemma clamp_within (v : float) : is_nan v = false -> within (GA.clamp v) = true.
Proof.
  intros Hv. unfold GA.clamp, within.
  assert (H2 : is_nan 2 = false) by reflexivity.
  assert (Hm2 : is_nan (-2) = false) by reflexivity.
  destruct (Math_min_spec 2 v H2 Hv) as (Hsel & Hle2 & _).
  assert (Hmn : is_nan (JS.Math_min 2 v) = false) by (destruct Hsel as [->| ->]; assumption).
  destruct (Math_max_spec (-2) _ Hm2 Hmn) as (Hsel' & Hge & _).
  rewrite Hge. simpl.
  destruct Hsel' as [->| ->]; [reflexivity | assumption].
Qed.

Lemma clamp_nan (v : float) : is_nan v = true -> GA.clamp v = nan.
Proof.
  intros Hv. unfold GA.clamp. rewrite (Math_min_nan 2 v Hv). reflexivity.
Qed.

Lemma is_finite_spec (x : float) : is_finite x = SFfinite (Prim2SF x).
Proof.
  unfold is_finite, is_infinity.
  destruct (is_nan x) eqn:En.
  - apply is_nan_spec in En. rewrite En. reflexivity.
  - simpl. rewrite eqb_spec, abs_spec.
    apply not_nan_spec in En.
    destruct (Prim2SF x) as [s|s| |s m e]; try congruence; reflexivity.
Qed.

Lemma is_finite_not_nan (x : float) : is_finite x = true -> is_nan x = false.
Proof.
  unfold is_finite. destruct (is_nan x); simpl; congruence.
Qed.

Lemma mul_zero_finite (dt : float) :
  is_finite dt = true -> exists s, Prim2SF (0 * dt) = S754_zero s.
Proof.
  rewrite is_finite_spec, mul_spec.
  change (Prim2SF 0) with (S754_zero false).
  destruct (Prim2SF dt) as [s|s| |s m e]; simpl; intros H; try discriminate; eauto.
Qed.

Lemma add_zero_cmp (y z : float) (s : bool) :
  is_nan y = false -> Prim2SF z = S754_zero s -> cmp y (y + z) = Some Eq.
Proof.
  intros Hy Hz. unfold cmp. rewrite add_spec, Hz.
  apply not_nan_spec in Hy.
  destruct (Prim2SF y) as [sy|sy| |sy my ey] eqn:E; try congruence.
  - destruct sy, s; reflexivity.
  - simpl. destruct sy; reflexivity.
  - unfold SF64add, SFadd. apply SFcompare_refl. congruence.
Qed.

(** Adding a zero velocity times a finite time step does not move a
    coordinate below where it was. *)
Lemma leb_add_zero_mul (y dt : float) :
  is_nan y = false -> is_finite dt = true -> (y <=? y + 0 * dt) = true.
Proof.
  intros Hy Hdt. destruct (mul_zero_finite dt Hdt) as [s Hs].
  apply leb_cmp. right. exact (add_zero_cmp y (0 * dt) s Hy Hs).
Qed.

Ltac cmp_cases :=
  repeat match goal with
  | H : context [Z.compare ?a ?b] |- _ =>
      let E := fresh "E" in destruct (Z.compare_spec a b) as [E|E|E]
  | |- context [Z.compare ?a ?b] =>
      let E := fresh "E" in destruct (Z.compare_spec a b) as [E|E|E]
  | H : context [Pos.compare ?a ?b] |- _ =>
      let E := fresh "E" in destruct (Pos.compare_spec a b) as [E|E|E]
  | |- context [Pos.compare ?a ?b] =>
      let E := fresh "E" in destruct (Pos.compare_spec a b) as [E|E|E]
  end.

Lemma Some_inj {A : Type} (a b : A) : Some a = Some b -> a = b.
Proof. congruence. Qed.

(** [x < y] and [y <= z] give [x < z]; [x <= y] and [y <= z] give [x <= z]. *)
Lemma SFcompare_lt_le_trans (x y z : spec_float) :
  SFcompare x y = Some Lt ->
  (SFcompare y z = Some Lt \/ SFcompare y z = Some Eq) ->
  SFcompare x z = Some Lt.
Proof.
  destruct x as [sx|sx| |sx mx ex], y as [sy|sy| |sy my ey], z as [sz|sz| |sz mz ez];
    simpl; intros H1 [H2|H2];
    try discriminate;
    try (destruct sx; try discriminate); try (destruct sy; try discriminate);
    try (destruct sz; try discriminate); try reflexivity;
    change (Pos.compare_cont Eq) with Pos.compare in *;
    apply Some_inj in H1; apply Some_inj in H2; f_equal;
    cmp_cases; simpl in *; try discriminate; try reflexivity; try lia.
Qed.

Lemma SFcompare_eq_trans (x y z : spec_float) :
  SFcompare x y = Some Eq ->
  SFcompare y z = SFcompare x z.
Proof.
  destruct x as [sx|sx| |sx mx ex], y as [sy|sy| |sy my ey], z as [sz|sz| |sz mz ez];
    simpl; intros H1;
    try discriminate;
    try (destruct sx; try discriminate); try (destruct sy; try discriminate);
    try (destruct sz; try discriminate); try reflexivity;
    change (Pos.compare_cont Eq) with Pos.compare in *;
    apply Some_inj in H1; f_equal;
    cmp_cases; simpl in *; try discriminate; try reflexivity; try lia.
Qed.

Lemma ltb_leb_trans (x y z : float) :
  (x <? y) = true -> (y <=? z) = true -> (x <? z) = true.
Proof.
  rewrite !ltb_cmp, leb_cmp. apply SFcompare_lt_le_trans.
Qed.

Lemma leb_trans (x y z : float) :
  (x <=? y) = true -> (y <=? z) = true -> (x <=? z) = true.
Proof.
  rewrite !leb_cmp. unfold cmp. intros [H1|H1] H2.
  - left. eapply SFcompare_lt_le_trans; eassumption.
  - rewrite <- (SFcompare_eq_trans _ _ _ H1). exact H2.
Qed.

Lemma ltb_irrefl (x : float) : (x <? x) = false.
Proof.
  destruct (x <? x) eqn:E; auto.
  apply ltb_cmp in E. pose proof (cmp_antisym x x) as A.
  rewrite E in A. discriminate.
Qed.

Lemma ltb_asym (x y : float) : (x <? y) = true -> (y <? x) = false.
Proof. intros H. apply leb_not_ltb, ltb_leb, H. Qed.

Lemma shr_1_nonneg (mrs : shr_record) :
  (0 <= shr_m mrs)%Z -> (0 <= shr_m (shr_1 mrs))%Z.
Proof.
  destruct mrs as [m r s]. simpl.
  destruct m as [|p|p]; [| destruct p | lia]; simpl; lia.
Qed.

Lemma iter_pos_invariant {A : Type} (P : A -> Prop) (f : A -> A) :
  (forall x, P x -> P (f x)) ->
  forall (p : positive) (x : A), P x -> P (iter_pos f p x).
Proof.
  intros Hf. induction p as [p IH|p IH|]; intros x Hx; simpl; auto.
Qed.

Lemma shr_nonneg (mrs : shr_record) (e n : Z) :
  (0 <= shr_m mrs)%Z -> (0 <= shr_m (fst (shr mrs e n)))%Z.
Proof.
  intros H. unfold shr. destruct n; simpl; auto.
  apply (iter_pos_invariant (fun r => (0 <= shr_m r)%Z)); auto using shr_1_nonneg.
Qed.

Lemma shr_record_of_loc_m (m : Z) (l : location) : shr_m (shr_record_of_loc m l) = m.
Proof. destruct l as [|[ | | ]]; reflexivity. Qed.

Lemma shr_fexp_nonneg (m e : Z) (l : location) :
  (0 <= m)%Z -> (0 <= shr_m (fst (shr_fexp prec emax m e l)))%Z.
Proof.
  intros H. unfold shr_fexp. apply shr_nonneg. rewrite shr_record_of_loc_m. exact H.
Qed.

Lemma round_nearest_even_nonneg (m : Z) (l : location) :
  (0 <= m)%Z -> (0 <= round_nearest_even m l)%Z.
Proof.
  intros H. unfold round_nearest_even.
  destruct l as [|[ | | ]]; try lia. destruct (Z.even m); lia.
Qed.

Lemma binary_round_aux_not_nan (s : bool) (m e : Z) (l : location) :
  (0 <= m)%Z -> binary_round_aux prec emax s m e l <> S754_nan.
Proof.
  intros H. unfold binary_round_aux.
  pose proof (shr_fexp_nonneg m e l H) as H1.
  destruct (shr_fexp prec emax m e l) as [mrs' e']. simpl in H1.
  pose proof (shr_fexp_nonneg _ e' loc_Exact
                (round_nearest_even_nonneg _ (loc_of_shr_record mrs') H1)) as H2.
  destruct (shr_fexp prec emax _ e' loc_Exact) as [mrs'' e'']. simpl in H2.
  destruct (shr_m mrs'') as [|p|p]; try discriminate; try lia.
  destruct (e'' <=? emax - prec)%Z; discriminate.
Qed.

Lemma binary_normalize_not_nan (m e : Z) (sz : bool) :
  binary_normalize prec emax m e sz <> S754_nan.
Proof.
  unfold binary_normalize, binary_round. destruct m as [|p|p]; try discriminate;
    destruct (shl_align _ _ _) as [mz ez]; apply binary_round_aux_not_nan; lia.
Qed.

Lemma SFmul_finite_not_nan (x y : spec_float) :
  SFfinite x = true -> SFfinite y = true -> SF64mul x y <> S754_nan.
Proof.
  destruct x as [sx|sx| |sx mx ex], y as [sy|sy| |sy my ey]; simpl;
    intros Hx Hy; try discriminate.
  apply binary_round_aux_not_nan. lia.
Qed.

Lemma SFmul_not_nan_r (x : spec_float) (sy : bool) (my : positive) (ey : Z) :
  x <> S754_nan -> SF64mul x (S754_finite sy my ey) <> S754_nan.
Proof.
  destruct x as [sx|sx| |sx mx ex]; simpl; intros Hx; try discriminate; try congruence.
  apply binary_round_aux_not_nan. lia.
Qed.

Lemma SFadd_finite_not_nan (x y : spec_float) :
  SFfinite x = true -> y <> S754_nan -> SF64add x y <> S754_nan.
Proof.
  destruct x as [sx|sx| |sx mx ex], y as [sy|sy| |sy my ey]; simpl;
    intros Hx Hy; try discriminate; try congruence.
  - destruct sx, sy; discriminate.
  - apply binary_normalize_not_nan.
Qed.

(** Products and sums of numbers that are numbers. *)
Lemma mul_finite_not_nan (x y : float) :
  is_finite x = true -> is_finite y = true -> is_nan (x * y) = false.
Proof.
  rewrite !is_finite_spec, not_nan_spec, mul_spec. apply SFmul_finite_not_nan.
Qed.

Lemma mul_rate_not_nan (x : float) :
  is_nan x = false -> is_nan (x * GA.MUTATION_RATE) = false.
Proof.
  rewrite !not_nan_spec, mul_spec.
  change (Prim2SF GA.MUTATION_RATE)
    with (S754_finite false 7205759403792794 (-56)).
  apply SFmul_not_nan_r.
Qed.

Lemma add_finite_not_nan (x y : float) :
  is_finite x = true -> is_nan y = false -> is_nan (x + y) = false.
Proof.
  rewrite is_finite_spec, !not_nan_spec, add_spec. apply SFadd_finite_not_nan.
Qed.

(** A number between two finite numbers is finite. *)
Lemma SFfinite_between (x : spec_float) (s1 s2 : bool) (m1 m2 : positive) (e1 e2 : Z) :
  SFleb (S754_finite s1 m1 e1) x = true ->
  SFleb x (S754_finite s2 m2 e2) = true ->
  SFfinite x = true.
Proof.
  unfold SFleb. destruct x as [s|s| |s m e]; simpl; auto.
  destruct s; [destruct s1 | destruct s2]; discriminate.
Qed.

Lemma within_finite (v : float) : within v = true -> is_finite v = true.
Proof.
  unfold within. rewrite andb_true_iff, is_finite_spec, !leb_spec.
  change (Prim2SF (-2)) with (S754_finite true 4503599627370496 (-51)).
  change (Prim2SF 2) with (S754_finite false 4503599627370496 (-51)).
  intros [H1 H2]. eapply SFfinite_between; eassumption.
Qed.

(** A draw from [0, 1) that is not zero is strictly between 0 and 1. *)
Lemma nonzero_unit (u : float) :
  (0 <=? u) && (u <? 1) = true -> (u =? 0) = false ->
  (0 <? u) = true /\ (u <? 1) = true.
Proof.
  rewrite andb_true_iff. intros [H0 H1] Hz. split; [|exact H1].
  apply leb_cmp in H0. destruct H0 as [H0|H0]; [apply ltb_cmp, H0|].
  assert (E : (u =? 0) = true).
  { apply eqb_cmp. rewrite cmp_antisym, H0. reflexivity. }
  congruence.
Qed.

End FloatFacts.

(* ===================================================================== *)
(** ** Rounding to nearest is monotone around a binary64 number *)
(* ===================================================================== *)

Module Rounding.
Import Notions.
Local Open Scope Z_scope.


Lemma D_pos (p : positive) : 1 <= D p.
Proof. unfold D. lia. Qed.

Lemma D_bounds (p : positive) : 2 ^ (D p - 1) <= Zpos p < 2 ^ D p.
Proof.
  unfold D. induction p as [p IH|p IH|]; simpl digits2_pos.
  - rewrite Pos2Z.inj_succ.
    replace (Z.succ (Z.pos (digits2_pos p)) - 1) with (Z.succ (Z.pos (digits2_pos p) - 1)) by lia.
    rewrite !Z.pow_succ_r by lia. lia.
  - rewrite Pos2Z.inj_succ.
    replace (Z.succ (Z.pos (digits2_pos p)) - 1) with (Z.succ (Z.pos (digits2_pos p) - 1)) by lia.
    rewrite !Z.pow_succ_r by lia. lia.
  - simpl. lia.
Qed.

(** Digits from magnitude *)
Lemma D_unique (p : positive) (d : Z) :
  2 ^ (d - 1) <= Zpos p < 2 ^ d -> D p = d.
Proof.
  intros [H1 H2]. pose proof (D_bounds p) as [B1 B2]. pose proof (D_pos p).
  assert (0 < d).
  { destruct (Z.le_gt_cases d 0) as [Hd|Hd]; auto.
    assert (2 ^ d <= 2 ^ 0) by (apply Z.pow_le_mono_r; lia). simpl in *. lia. }
  destruct (Z.lt_trichotomy (D p) d) as [Hlt|[Heq|Hgt]]; auto.
  - assert (2 ^ D p <= 2 ^ (d - 1)) by (apply Z.pow_le_mono_r; lia). lia.
  - assert (2 ^ d <= 2 ^ (D p - 1)) by (apply Z.pow_le_mono_r; lia). lia.
Qed.

Lemma D_le (p q : positive) (a b : Z) :
  0 <= a -> 0 <= b ->
  Zpos p * 2 ^ a <= Zpos q * 2 ^ b -> D p + a <= D q + b.
Proof.
  intros Ha Hb H.
  pose proof (D_bounds p) as [P1 _]. pose proof (D_bounds q) as [_ Q2].
  pose proof (D_pos p). pose proof (D_pos q).
  destruct (Z.le_gt_cases (D p + a) (D q + b)) as [|Hgt]; auto.
  exfalso.
  assert (E1 : 2 ^ (D p - 1) * 2 ^ a <= Zpos p * 2 ^ a).
  { apply Z.mul_le_mono_nonneg_r; [apply Z.pow_nonneg; lia | lia]. }
  assert (E2 : Zpos q * 2 ^ b < 2 ^ D q * 2 ^ b).
  { apply Z.mul_lt_mono_pos_r; [apply Z.pow_pos_nonneg; lia | lia]. }
  rewrite <- Z.pow_add_r in E1, E2 by lia.
  assert (2 ^ (D q + b) <= 2 ^ (D p - 1 + a)) by (apply Z.pow_le_mono_r; lia).
  lia.
Qed.

Lemma iter_xO_value (m d : positive) : Zpos (Pos.iter xO m d) = Zpos m * 2 ^ Zpos d.
Proof.
  change (Pos.iter xO m d) with (shift_pos d m).
  rewrite shift_pos_correct, Z.pow_pos_fold. lia.
Qed.

Lemma D_shift (m d : positive) : D (Pos.iter xO m d) = D m + Zpos d.
Proof.
  apply D_unique. rewrite iter_xO_value.
  pose proof (D_bounds m) as [B1 B2]. pose proof (D_pos m).
  replace (D m + Z.pos d - 1) with ((D m - 1) + Z.pos d) by lia.
  rewrite !Z.pow_add_r by lia.
  split.
  - apply Z.mul_le_mono_nonneg_r; [apply Z.pow_nonneg; lia | lia].
  - apply Z.mul_lt_mono_pos_r; [apply Z.pow_pos_nonneg; lia | lia].
Qed.

(** [shl_align] keeps the value and lowers the exponent to at most the target *)
Lemma shl_align_spec (m : positive) (e e' : Z) :
  let '(m', e'') := shl_align m e e' in
  e'' = Z.min e e'
  /\ Zpos m' = Zpos m * 2 ^ (e - e'')
  /\ D m' + e'' = D m + e.
Proof.
  unfold shl_align. destruct (e' - e) as [|d|d] eqn:E.
  - rewrite Z.min_l by lia. rewrite Z.sub_diag. simpl. lia.
  - rewrite Z.min_l by lia. rewrite Z.sub_diag. simpl. lia.
  - rewrite Z.min_r by lia.
    replace (e - e') with (Zpos d) by lia.
    rewrite iter_xO_value, D_shift. lia.
Qed.

Lemma iter_pos_count {A : Type} (f : A -> A) (P : Z -> A -> Prop) :
  (forall k x, 0 <= k -> P k x -> P (k + 1) (f x)) ->
  forall (p : positive) (k : Z) (x : A),
    0 <= k -> P k x -> P (k + Zpos p) (iter_pos f p x).
Proof.
  intros Hf. induction p as [p IH|p IH|]; intros k x Hk Hx; simpl.
  - replace (k + Z.pos p~1) with (k + 1 + Zpos p + Zpos p) by lia.
    apply IH; [lia|]. apply IH; [lia|]. apply Hf; assumption.
  - replace (k + Z.pos p~0) with (k + Zpos p + Zpos p) by lia.
    apply IH; [lia|]. apply IH; assumption.
  - apply Hf; assumption.
Qed.

Lemma shr_1_spec (m : Z) (r s : bool) :
  0 <= m ->
  shr_1 (Build_shr_record m r s) = Build_shr_record (m / 2) (Z.odd m) (r || s).
Proof.
  intros Hm. destruct m as [|p|p]; [reflexivity| |lia].
  destruct p as [p|p|]; simpl shr_1; f_equal.
  - rewrite Pos2Z.inj_xI. apply Z.div_unique with (r := 1); lia.
  - rewrite Pos2Z.inj_xO. apply Z.div_unique with (r := 0); lia.
Qed.

Lemma shifted_step (m0 : Z) (k : Z) (mrs : shr_record) :
  0 <= m0 -> 0 <= k -> shifted m0 k mrs -> shifted m0 (k + 1) (shr_1 mrs).
Proof.
  intros Hm Hk (Hv & Hx & _). destruct mrs as [m r s]. simpl in Hv, Hx.
  assert (Hpow : 0 < 2 ^ k) by (apply Z.pow_pos_nonneg; lia).
  assert (0 <= m) by (subst m; apply Z.div_pos; lia).
  rewrite shr_1_spec by assumption. unfold shifted. simpl.
  replace (k + 1 - 1) with k by lia.
  rewrite Z.pow_add_r, Z.pow_1_r by lia.
  split; [|split].
  - subst m. rewrite Z.div_div by lia. reflexivity.
  - intros Hmod.
    assert (Hd : m0 = 2 ^ k * 2 * (m0 / (2 ^ k * 2))).
    { pose proof (Z.div_mod m0 (2 ^ k * 2)). lia. }
    assert (Hk0 : m0 mod 2 ^ k = 0).
    { rewrite Hd. rewrite <- Z.mul_assoc, Z.mul_comm. apply Z.mod_mul. lia. }
    destruct (Hx Hk0) as [-> ->].
    split; [|reflexivity].
    assert (Hm2 : m = 2 * (m0 / (2 ^ k * 2))).
    { subst m. rewrite Hd at 1. rewrite <- Z.mul_assoc, Z.mul_comm.
      rewrite Z.div_mul by lia. reflexivity. }
    rewrite Hm2. rewrite Z.odd_mul. reflexivity.
  - intros Hodd. split; [lia|]. rewrite <- Hv. exact Hodd.
Qed.

Lemma shr_spec (m0 : Z) (e n : Z) :
  0 <= m0 -> 0 <= n ->
  let '(mrs, e') := shr (Build_shr_record m0 false false) e n in
  e' = e + n /\ shifted m0 n mrs.
Proof.
  intros Hm Hn.
  assert (Hstart : shifted m0 0 (Build_shr_record m0 false false)).
  { unfold shifted. simpl. rewrite Z.div_1_r.
    split; [reflexivity|]. split; [auto | discriminate]. }
  unfold shr. destruct n as [|p|p]; [| |lia].
  - split; [lia | exact Hstart].
  - split; [reflexivity|].
    change (Z.pos p) with (0 + Z.pos p).
    apply (iter_pos_count shr_1 (shifted m0)).
    + intros k x Hk Hx. apply shifted_step; assumption.
    + lia.
    + exact Hstart.
Qed.

Lemma fx_eq (d : Z) : fx d = Z.max (d - 53) (-1074).
Proof. reflexivity. Qed.

Lemma round_nearest_even_spec (mrs : shr_record) :
  shr_m mrs <= round_nearest_even (shr_m mrs) (loc_of_shr_record mrs) <= shr_m mrs + 1
  /\ (shr_r mrs = false ->
      round_nearest_even (shr_m mrs) (loc_of_shr_record mrs) = shr_m mrs).
Proof.
  destruct mrs as [m r s]. simpl.
  destruct r, s; simpl; try destruct (Z.even m); split; try lia;
    intros ?; congruence.
Qed.

Lemma second_shift (m2 f : Z) :
  0 <= m2 <= 2 ^ 53 -> -1074 <= f ->
  let '(mrs, e) := shr_fexp prec emax m2 f loc_Exact in
  (m2 < 2 ^ 53 -> shr_m mrs = m2 /\ e = f)
  /\ (m2 = 2 ^ 53 -> shr_m mrs = 4503599627370496 /\ e = f + 1).
Proof.
  intros Hm Hf. unfold shr_fexp. simpl shr_record_of_loc.
  fold (fx (Zdigits2 m2 + f)). rewrite fx_eq.
  destruct (Z.eq_dec m2 (2 ^ 53)) as [->|Hne].
  - change (Zdigits2 (2 ^ 53)) with 54.
    replace (Z.max (54 + f - 53) (-1074) - f) with 1 by lia.
    simpl. split; [intros; lia | intros _; split; [reflexivity|lia]].
  - assert (Hn : Z.max (Zdigits2 m2 + f - 53) (-1074) - f <= 0).
    { destruct m2 as [|q|q]; [simpl; lia| |lia].
      simpl Zdigits2. fold (D q).
      assert (D q <= 53).
      { pose proof (D_bounds q) as [B1 B2].
        destruct (Z.le_gt_cases (D q) 53); auto.
        assert (2 ^ 53 <= 2 ^ (D q - 1)) by (apply Z.pow_le_mono_r; lia). lia. }
      lia. }
    unfold shr.
    destruct (Z.max (Zdigits2 m2 + f - 53) (-1074) - f) as [|p|p]; [| lia |];
      simpl; (split; [intros; split; reflexivity | intros; lia]).
Qed.

Lemma bra_spec (s : bool) (m : positive) (e : Z) :
  e <= fx (D m + e) ->
  exists m2,
    Zpos m / 2 ^ (fx (D m + e) - e) <= m2 <= Zpos m / 2 ^ (fx (D m + e) - e) + 1
    /\ (Zpos m mod 2 ^ (fx (D m + e) - e) = 0 -> m2 = Zpos m / 2 ^ (fx (D m + e) - e))
    /\ (m2 <> Zpos m / 2 ^ (fx (D m + e) - e) ->
        0 < fx (D m + e) - e /\ Z.odd (Zpos m / 2 ^ (fx (D m + e) - e - 1)) = true)
    /\ m2 <= 2 ^ 53
    /\ binary_round_aux prec emax s (Zpos m) e loc_Exact = rounded s m2 (fx (D m + e)).
Proof.
  intros Hle. set (f := fx (D m + e)) in *.
  unfold binary_round_aux.
  unfold shr_fexp at 1. simpl shr_record_of_loc. simpl Zdigits2.
  fold (D m). fold (fx (D m + e)). fold f.
  pose proof (shr_spec (Zpos m) e (f - e)) as Hs.
  destruct (shr (Build_shr_record (Zpos m) false false) e (f - e)) as [mrs' e'].
  destruct Hs as (He' & Hv & Hx & Hodd); try lia.
  assert (E : e' = f) by lia. clear He'. subst e'.
  pose proof (round_nearest_even_spec mrs') as [Hr Hrx].
  set (m2 := round_nearest_even (shr_m mrs') (loc_of_shr_record mrs')) in *.
  assert (Hf : -1074 <= f) by (unfold f; rewrite fx_eq; lia).
  assert (Hpow : 0 < 2 ^ (f - e)) by (apply Z.pow_pos_nonneg; lia).
  assert (H1 : 0 <= shr_m mrs') by (rewrite Hv; apply Z.div_pos; lia).
  assert (H2 : shr_m mrs' < 2 ^ 53).
  { rewrite Hv. apply Z.div_lt_upper_bound; [lia|].
    pose proof (D_bounds m) as [_ B2]. pose proof (D_pos m).
    rewrite <- Z.pow_add_r by lia.
    assert (2 ^ D m <= 2 ^ (f - e + 53)).
    { apply Z.pow_le_mono_r; [lia|]. unfold f. rewrite fx_eq. lia. }
    lia. }
  exists m2. rewrite <- Hv.
  split; [exact Hr|]. split; [intros H0; apply Hrx, Hx, H0|].
  split.
  { intros Hne. apply Hodd. destruct (shr_r mrs') eqn:Er; [reflexivity|].
    exfalso. apply Hne. apply Hrx. reflexivity. }
  split; [lia|].
  pose proof (second_shift m2 f) as Hss.
  cbv beta iota.
  destruct (shr_fexp prec emax m2 f loc_Exact) as [mrs'' e''].
  destruct Hss as [Hlt Heq]; [lia | lia |].
  cbv beta iota.
  unfold rounded.
  destruct (Z.eqb_spec m2 0) as [E0|E0].
  - destruct (Hlt ltac:(lia)) as [-> _]. rewrite E0. reflexivity.
  - destruct (Z.ltb_spec m2 (2 ^ 53)) as [L|L].
    + destruct (Hlt L) as [-> ->].
      destruct m2 as [|q|q]; [lia| |lia]. reflexivity.
    + assert (E2 : m2 = 2 ^ 53) by lia.
      destruct (Heq E2) as [-> ->]. reflexivity.
Qed.

Lemma binary_round_spec (s : bool) (A : positive) (e : Z) :
  exists m2,
    0 <= m2 <= 2 ^ 53
    /\ binary_round prec emax s A e = rounded s m2 (fx (D A + e))
    /\ (e <= fx (D A + e) ->
        Zpos A / 2 ^ (fx (D A + e) - e) <= m2 <= Zpos A / 2 ^ (fx (D A + e) - e) + 1
        /\ (Zpos A mod 2 ^ (fx (D A + e) - e) = 0 ->
            m2 = Zpos A / 2 ^ (fx (D A + e) - e))).
Proof.
  unfold binary_round. fold (D A). fold (fx (D A + e)).
  set (f := fx (D A + e)).
  pose proof (shl_align_spec A e f) as Hs.
  destruct (shl_align A e f) as [mz ez].
  destruct Hs as (Hez & Hmz & HD).
  assert (Hfz : fx (D mz + ez) = f) by (rewrite HD; reflexivity).
  destruct (bra_spec s mz ez) as (m2 & Hb & Hx & _ & Hle & Hr).
  { rewrite Hfz. lia. }
  rewrite Hfz in *.
  exists m2. split; [|split].
  - split; [|exact Hle].
    assert (0 <= Z.pos mz / 2 ^ (f - ez)).
    { apply Z.div_pos; [lia|]. apply Z.pow_pos_nonneg; lia. }
    lia.
  - exact Hr.
  - intros Hef. assert (Hee : ez = e) by lia. rewrite Hee in *. clear Hee Hez.
    assert (Hma : mz = A).
    { rewrite Z.sub_diag in Hmz. simpl in Hmz. lia. }
    rewrite Hma in *. split; assumption.
Qed.

Lemma binary_round_signed (s : bool) (A : positive) (e : Z) :
  signed s (binary_round prec emax s A e).
Proof.
  destruct (binary_round_spec s A e) as (m2 & _ & -> & _).
  unfold rounded, signed.
  destruct (m2 =? 0); [reflexivity|].
  destruct (m2 <? 2 ^ 53).
  - destruct (_ <=? 971); reflexivity.
  - destruct (_ <=? 971); reflexivity.
Qed.

(** Rounding is monotone around a representable number. *)
Lemma binary_round_above (s : bool) (A : positive) (e : Z) (mx : positive) (ex : Z) :
  bounded prec emax mx ex = true ->
  e <= ex ->
  Zpos mx * 2 ^ (ex - e) <= Zpos A ->
  above s ex mx (binary_round prec emax s A e).
Proof.
  unfold bounded, canonical_mantissa. rewrite andb_true_iff, Z.eqb_eq, Z.leb_le.
  fold (D mx). fold (fx (D mx + ex)). intros [Hcan Hmax] He HA.
  destruct (binary_round_spec s A e) as (m2 & Hm2 & -> & Hdiv).
  set (f := fx (D A + e)) in *.
  assert (Hf : ex <= f).
  { pose proof (D_le mx A (ex - e) 0 ltac:(lia) ltac:(lia)) as HD.
    rewrite Z.pow_0_r, Z.mul_1_r in HD. specialize (HD HA).
    unfold f. rewrite <- Hcan at 1. rewrite !fx_eq. lia. }
  destruct (Hdiv ltac:(lia)) as [[Hlo Hhi] _].
  assert (Hpow : 0 < 2 ^ (f - e)) by (apply Z.pow_pos_nonneg; lia).
  assert (Hpos : 0 < m2 /\ (f = ex -> Zpos mx <= m2)).
  { destruct (Z.eq_dec f ex) as [E|E].
    - assert (Zpos mx <= Z.pos A / 2 ^ (f - e)).
      { apply Z.div_le_lower_bound; [lia|]. rewrite E. lia. }
      lia.
    - split; [|lia].
      assert (Hfd : f = D A + e - 53) by (unfold f in *; rewrite fx_eq in *; lia).
      pose proof (D_bounds A) as [B1 _]. pose proof (D_pos A).
      assert (2 ^ 52 <= Z.pos A / 2 ^ (f - e)).
      { apply Z.div_le_lower_bound; [lia|].
        rewrite <- Z.pow_add_r by lia.
        replace (f - e + 52) with (D A - 1) by lia. exact B1. }
      lia. }
  destruct Hpos as [Hpos Heq].
  unfold rounded, above.
  destruct (Z.eqb_spec m2 0); [lia|].
  destruct (Z.ltb_spec m2 (2 ^ 53)).
  - destruct (f <=? 971); [|reflexivity]. split; [reflexivity|].
    destruct (Z.eq_dec f ex) as [E|E]; [right|left; lia].
    split; [exact E|]. specialize (Heq E).
    destruct m2 as [|q|q]; lia.
  - destruct (f + 1 <=? 971); [|reflexivity]. split; [reflexivity|]. left. lia.
Qed.

Lemma binary_round_below (s : bool) (A : positive) (e : Z) (mx : positive) (ex : Z) :
  bounded prec emax mx ex = true ->
  e <= ex ->
  Zpos A <= Zpos mx * 2 ^ (ex - e) ->
  below s ex mx (binary_round prec emax s A e).
Proof.
  unfold bounded, canonical_mantissa. rewrite andb_true_iff, Z.eqb_eq, Z.leb_le.
  fold (D mx). fold (fx (D mx + ex)). intros [Hcan Hmax] He HA.
  change (emax - prec) with 971 in Hmax.
  destruct (binary_round_spec s A e) as (m2 & Hm2 & -> & Hdiv).
  set (f := fx (D A + e)) in *.
  assert (Hf : f <= ex).
  { pose proof (D_le A mx 0 (ex - e) ltac:(lia) ltac:(lia)) as HD.
    rewrite Z.pow_0_r, Z.mul_1_r in HD. specialize (HD HA).
    unfold f. rewrite <- Hcan. rewrite !fx_eq. lia. }
  assert (Hmx : Zpos mx < 2 ^ 53).
  { pose proof (D_bounds mx) as [_ B2]. pose proof (D_pos mx).
    assert (2 ^ D mx <= 2 ^ 53).
    { apply Z.pow_le_mono_r; [lia|]. rewrite fx_eq in Hcan. lia. }
    lia. }
  assert (Heq : f = ex -> m2 <= Zpos mx).
  { intros E. destruct (Hdiv ltac:(lia)) as [[Hlo Hhi] Hx].
    rewrite E in *.
    assert (Hpow : 0 < 2 ^ (ex - e)) by (apply Z.pow_pos_nonneg; lia).
    assert (Hq : Z.pos A / 2 ^ (ex - e) <= Zpos mx).
    { apply Z.div_le_upper_bound; lia. }
    destruct (Z.eq_dec (Z.pos A / 2 ^ (ex - e)) (Zpos mx)) as [E1|E1]; [|lia].
    assert (HAeq : Z.pos A = Zpos mx * 2 ^ (ex - e)).
    { pose proof (Z.div_mod (Zpos A) (2 ^ (ex - e)) ltac:(lia)) as Hdm.
      pose proof (Z.mod_pos_bound (Zpos A) (2 ^ (ex - e)) Hpow).
      rewrite E1 in Hdm. lia. }
    rewrite Hx; [lia|].
    rewrite HAeq. apply Z.mod_mul. lia. }
  unfold rounded, below.
  destruct (Z.eqb_spec m2 0); [reflexivity|].
  destruct (Z.ltb_spec m2 (2 ^ 53)).
  - destruct (Z.leb_spec f 971); [|lia]. split; [reflexivity|].
    destruct (Z.eq_dec f ex) as [E|E]; [right|left; lia].
    split; [exact E|]. specialize (Heq E).
    destruct m2 as [|q|q]; lia.
  - assert (f < ex).
    { destruct (Z.eq_dec f ex) as [E|E]; [|lia]. specialize (Heq E). lia. }
    destruct (Z.leb_spec (f + 1) 971); [|lia]. split; [reflexivity|].
    destruct (Z.eq_dec (f + 1) ex) as [E|E]; [right|left; lia].
    split; [exact E|].
    assert (HD53 : D mx = 53).
    { assert (-1074 <= f) by (unfold f; rewrite fx_eq; lia).
      rewrite fx_eq in Hcan. lia. }
    pose proof (D_bounds mx) as [B1 _]. rewrite HD53 in B1.
    change (2 ^ (53 - 1)) with 4503599627370496 in B1. lia.
Qed.

Lemma above_not_lt (mx : positive) (ex : Z) (r : spec_float) :
  above false ex mx r -> SFltb r (S754_finite false mx ex) = false.
Proof.
  unfold SFltb. destruct r as [s'|s'| |s' m e]; simpl; intros H;
    try contradiction; try reflexivity; try (subst; reflexivity).
  destruct H as [-> H]. change (Pos.compare_cont Eq m mx) with (Pos.compare m mx).
  destruct (Z.compare_spec e ex); destruct (Pos.compare_spec m mx); auto; lia.
Qed.

Lemma below_not_lt (mx : positive) (ex : Z) (r : spec_float) :
  below true ex mx r -> SFltb r (S754_finite true mx ex) = false.
Proof.
  unfold SFltb. destruct r as [s'|s'| |s' m e]; simpl; intros H;
    try contradiction; try reflexivity; try (subst; reflexivity).
  destruct H as [-> H]. change (Pos.compare_cont Eq m mx) with (Pos.compare m mx).
  destruct (Z.compare_spec e ex); destruct (Pos.compare_spec m mx); simpl; auto; lia.
Qed.

Lemma positive_not_lt_negative (mx : positive) (ex : Z) (r : spec_float) :
  signed false r -> SFltb r (S754_finite true mx ex) = false.
Proof.
  unfold SFltb. destruct r as [s'|s'| |s' m e]; simpl; intros H;
    try reflexivity; subst; reflexivity.
Qed.

(** Adding a positive finite number to a finite number. *)
Lemma SFadd_finite_not_below (sx : bool) (mx : positive) (ex : Z) (mw : positive) (ew : Z) :
  bounded prec emax mx ex = true ->
  SFltb (SF64add (S754_finite sx mx ex) (S754_finite false mw ew))
        (S754_finite sx mx ex) = false.
Proof.
  intros Hx. unfold SF64add, SFadd.
  set (ez := Z.min ex ew).
  pose proof (shl_align_spec mx ex ez) as Hax.
  pose proof (shl_align_spec mw ew ez) as Haw.
  destruct (shl_align mx ex ez) as [mx' ex'].
  destruct (shl_align mw ew ez) as [mw' ew'].
  destruct Hax as (Hex' & Hmx' & _). destruct Haw as (Hew' & Hmw' & _).
  assert (Eex : ex' = ez) by (unfold ez in *; lia).
  assert (Eew : ew' = ez) by (unfold ez in *; lia).
  rewrite Eex in Hmx'. rewrite Eew in Hmw'. clear Hex' Hew' Eex Eew.
  simpl fst. unfold cond_Zopp.
  assert (Hez : ez <= ex) by (unfold ez; lia).
  destruct sx.
  - (* x is negative *)
    destruct (- Z.pos mx' + Z.pos mw') as [|A|A] eqn:E; unfold binary_normalize.
    + reflexivity.
    + apply positive_not_lt_negative, binary_round_signed.
    + apply below_not_lt. apply binary_round_below; [exact Hx | exact Hez | lia].
  - (* x is positive *)
    destruct (Z.pos mx' + Z.pos mw') as [|A|A] eqn:E; unfold binary_normalize; try lia.
    apply above_not_lt. apply binary_round_above; [exact Hx | exact Hez | lia].
Qed.

Lemma SFltb_irrefl (x : spec_float) : SFltb x x = false.
Proof.
  unfold SFltb. destruct x as [s|s| |s m e]; try reflexivity;
    rewrite FloatFacts.SFcompare_refl by discriminate; reflexivity.
Qed.

(** Adding a number that is not below zero never gives less. *)
Lemma SFadd_nonneg_not_below (x w : spec_float) :
  valid_binary x = true ->
  SFleb (S754_zero false) w = true ->
  SFltb (SF64add x w) x = false.
Proof.
  intros Hx Hw.
  destruct w as [sw|sw| |sw mw ew]; try discriminate;
    try (destruct sw; [discriminate|]);
    destruct x as [sx|sx| |sx mx ex];
    try reflexivity;
    try (destruct sx; reflexivity);
    try (destruct sx, sw; reflexivity);
    try apply SFltb_irrefl.
  apply SFadd_finite_not_below. exact Hx.
Qed.

(** In binary64, adding a number that is not below zero never gives less
    than one started with. *)
Lemma add_nonneg_not_below (x w : float) :
  (0 <=? w)%float = true -> (x + w <? x)%float = false.
Proof.
  rewrite leb_spec, ltb_spec, add_spec.
  change (Prim2SF 0%float) with (S754_zero false).
  apply SFadd_nonneg_not_below. apply Prim2SF_valid.
Qed.

(** *** The index of a parent *)

(** A number strictly between 0 and 1 has a mantissa below 2^53 at an
    exponent of at most -53. *)
Lemma unit_mantissa (r : float) :
  (0 <? r)%float = true -> (r <? 1)%float = true ->
  exists mr er, Prim2SF r = S754_finite false mr er /\ er <= -53 /\ Zpos mr < 2 ^ 53.
Proof.
  intros H0 H1. rewrite ltb_spec in H0, H1.
  pose proof (Prim2SF_valid r) as Hv.
  change (Prim2SF 0) with (S754_zero false) in H0.
  change (Prim2SF 1) with (S754_finite false 4503599627370496 (-52)) in H1.
  destruct (Prim2SF r) as [s|s| |s mr er]; try discriminate.
  - destruct s; discriminate.
  - destruct s; [discriminate|].
    exists mr, er. split; [reflexivity|].
    unfold valid_binary, bounded, canonical_mantissa in Hv.
    rewrite andb_true_iff, Z.eqb_eq, Z.leb_le in Hv. destruct Hv as [Hc _].
    fold (D mr) in Hc. fold (fx (D mr + er)) in Hc. rewrite fx_eq in Hc.
    pose proof (D_bounds mr) as [Bl Bu]. pose proof (D_pos mr) as Hp.
    assert (HD : D mr <= 53) by lia.
    assert (Hm : Zpos mr < 2 ^ 53).
    { assert (2 ^ D mr <= 2 ^ 53) by (apply Z.pow_le_mono_r; lia). lia. }
    split; [|exact Hm].
    unfold SFltb, SFcompare in H1.
    destruct (Z.compare_spec er (-52)) as [E|L|G]; [| lia | discriminate].
    exfalso. subst er.
    assert (ED : D mr = 53) by lia. rewrite ED in Bl.
    assert (Hlt : Z.pos mr < 4503599627370496).
    { apply Pos2Z.pos_lt_pos. unfold Pos.lt, Pos.compare.
      destruct (PosDef.Pos.compare_cont Eq mr 4503599627370496);
        [discriminate H1 | reflexivity | discriminate H1]. }
    clear - Hlt Bl. lia.
Qed.

(** An integer below 2^53 is a number, exactly. *)
Lemma of_Z_finite (p : positive) :
  Zpos p < 2 ^ 53 ->
  exists mn, Prim2SF (JS.of_Z (Zpos p)) = S754_finite false mn (D p - 53)
             /\ Zpos mn = Zpos p * 2 ^ (53 - D p)
             /\ 2 ^ 52 <= Zpos mn < 2 ^ 53.
Proof.
  intros Hp.
  pose proof (D_bounds p) as [Bl Bu]. pose proof (D_pos p) as HD.
  assert (HD53 : D p <= 53).
  { destruct (Z.le_gt_cases (D p) 53) as [L|G]; [exact L|].
    assert (2 ^ 53 <= 2 ^ (D p - 1)) by (apply Z.pow_le_mono_r; lia). lia. }
  unfold JS.of_Z, binary_normalize, binary_round.
  fold (D p). fold (fx (D p + 0)).
  assert (Hf : fx (D p + 0) = D p - 53) by (rewrite fx_eq; lia).
  pose proof (shl_align_spec p 0 (fx (D p + 0))) as Hs.
  destruct (shl_align p 0 (fx (D p + 0))) as [mz ez].
  destruct Hs as (Hez & Hmz & HDz).
  rewrite Hf in Hez. rewrite Z.min_r in Hez by lia. subst ez.
  replace (0 - (D p - 53)) with (53 - D p) in Hmz by lia.
  assert (HDm : D mz = 53) by lia.
  pose proof (D_bounds mz) as [Ml Mu]. rewrite HDm in Ml, Mu.
  change (2 ^ (53 - 1)) with (2 ^ 52) in Ml.
  destruct (bra_spec false mz (D p - 53)) as (m2 & _ & Hx & _ & _ & Hr).
  { rewrite fx_eq. lia. }
  assert (Hfz : fx (D mz + (D p - 53)) = D p - 53) by (rewrite fx_eq; lia).
  rewrite Hfz in Hx, Hr. rewrite Z.sub_diag in Hx.
  change (2 ^ 0) with 1 in Hx. rewrite Z.mod_1_r, Z.div_1_r in Hx.
  specialize (Hx eq_refl). subst m2.
  rewrite Hr. unfold rounded.
  destruct (Z.eqb_spec (Zpos mz) 0) as [E|_]; [lia|].
  destruct (Z.ltb_spec (Zpos mz) (2 ^ 53)) as [_|G]; [|lia].
  destruct (Z.leb_spec (D p - 53) 971) as [_|G]; [|lia].
  simpl Z.to_pos.
  exists mz. split; [|split; [exact Hmz | split; assumption]].
  apply Prim2SF_SF2Prim.
  unfold valid_binary, bounded, canonical_mantissa.
  fold (D mz). fold (fx (D mz + (D p - 53))). rewrite Hfz.
  rewrite Z.eqb_refl, andb_true_l. apply Z.leb_le.
  change (emax - prec) with 971. lia.
Qed.

Lemma to_integer_of_Z (z : Z) :
  0 <= z < 2 ^ 53 -> JS.to_integer (JS.of_Z z) = Some z.
Proof.
  intros [H0 H1]. destruct z as [|p|p]; [reflexivity| |lia].
  destruct (of_Z_finite p H1) as (mn & Hp & Hmn & _).
  pose proof (D_pos p) as HD.
  unfold JS.to_integer. rewrite Hp.
  destruct (D p - 53) as [|q|q] eqn:E.
  - replace (53 - D p) with 0 in Hmn by lia. f_equal. lia.
  - f_equal. replace (53 - D p) with (- Z.pos q) in Hmn by lia.
    simpl in Hmn. lia.
  - change (Z.pow_pos 2 q) with (2 ^ Z.pos q).
    replace (53 - D p) with (Z.pos q) in Hmn by lia.
    assert (Hpw : 0 < 2 ^ Z.pos q) by (apply Z.pow_pos_nonneg; lia).
    rewrite Hmn. rewrite Z.mod_mul by lia. rewrite Z.eqb_refl.
    rewrite Z.div_mul by lia. reflexivity.
Qed.

(** The rounded product of a mantissa below 2^53 at an exponent of at most
    -53 (a number below 1) by a 53-digit mantissa stays below the second
    factor: rounding up to it would take a product within half a unit of
    it, and the product misses it by more. *)
Lemma product_below (mr mn : positive) (er en m2 : Z) :
  Zpos mr < 2 ^ 53 -> er <= -53 ->
  2 ^ 52 <= Zpos mn < 2 ^ 53 -> -52 <= en ->
  Zpos (mr * mn) / 2 ^ (fx (D (mr * mn) + (er + en)) - (er + en)) <= m2
    <= Zpos (mr * mn) / 2 ^ (fx (D (mr * mn) + (er + en)) - (er + en)) + 1 ->
  (m2 <> Zpos (mr * mn) / 2 ^ (fx (D (mr * mn) + (er + en)) - (er + en)) ->
     0 < fx (D (mr * mn) + (er + en)) - (er + en)
     /\ Z.odd (Zpos (mr * mn) / 2 ^ (fx (D (mr * mn) + (er + en)) - (er + en) - 1)) = true) ->
  m2 <= 2 ^ 53 ->
  er + en <= fx (D (mr * mn) + (er + en)) <= en
  /\ m2 < Zpos mn * 2 ^ (en - fx (D (mr * mn) + (er + en))).
Proof.
  intros Hmr Her [Hmn1 Hmn2] Hen.
  set (M := (mr * mn)%positive).
  assert (HM : Zpos M = Zpos mr * Zpos mn) by (unfold M; lia).
  change (2 ^ 53) with 9007199254740992 in *.
  change (2 ^ 52) with 4503599627370496 in *.
  assert (HMl : 4503599627370496 <= Zpos M) by nia.
  assert (HMu : Zpos M <= 9007199254740991 * Zpos mn) by nia.
  pose proof (D_bounds M) as [Bl Bu]. pose proof (D_pos M) as HDp.
  assert (HD1 : 53 <= D M).
  { destruct (Z.le_gt_cases 53 (D M)) as [L|G]; [exact L|].
    assert (2 ^ D M <= 2 ^ 52) by (apply Z.pow_le_mono_r; lia).
    change (2 ^ 52) with 4503599627370496 in *. lia. }
  assert (HD2 : D M <= 106).
  { destruct (Z.le_gt_cases (D M) 106) as [L|G]; [exact L|].
    assert (2 ^ 106 <= 2 ^ (D M - 1)) by (apply Z.pow_le_mono_r; lia).
    change (2 ^ 106) with (9007199254740992 * 9007199254740992) in *. nia. }
  set (f := fx (D M + (er + en))).
  assert (Hf : f = Z.max (D M + (er + en) - 53) (-1074)) by (unfold f; apply fx_eq).
  intros Hb Hodd Hle.
  split; [lia|].
  assert (HA : 0 < 2 ^ (en - f)) by (apply Z.pow_pos_nonneg; lia).
  destruct (Z.le_gt_cases 2 (en - f)) as [Hbig|Hsmall].
  - assert (2 ^ 2 <= 2 ^ (en - f)) by (apply Z.pow_le_mono_r; lia).
    change (2 ^ 2) with 4 in *.
    assert (Zpos mn * 4 <= Zpos mn * 2 ^ (en - f))
      by (apply Z.mul_le_mono_nonneg_l; lia).
    lia.
  - assert (Hk : f - (er + en) = D M - 53) by lia.
    rewrite Hk in Hb, Hodd.
    set (A := 2 ^ (en - f)) in *.
    set (B := 2 ^ (D M - 53)) in *.
    assert (HB : 0 < B) by (apply Z.pow_pos_nonneg; lia).
    assert (HP : 9007199254740992 <= A * B).
    { unfold A, B. rewrite <- Z.pow_add_r by lia.
      change 9007199254740992 with (2 ^ 53). apply Z.pow_le_mono_r; lia. }
    assert (HP' : Zpos mn * 9007199254740992 <= Zpos mn * (A * B))
      by (apply Z.mul_le_mono_nonneg_l; lia).
    set (q := Zpos M / B) in *.
    assert (Hq : q < Zpos mn * A).
    { apply Z.div_lt_upper_bound; [exact HB|].
      replace (B * (Zpos mn * A)) with (Zpos mn * (A * B)) by ring. lia. }
    destruct (Z.eq_dec m2 q) as [E|N]; [lia|].
    destruct (Hodd N) as [Hk0 Ho].
    destruct (Z.lt_ge_cases m2 (Zpos mn * A)) as [L|G]; [exact L|exfalso].
    set (T := 2 ^ (D M - 53 - 1)) in *.
    assert (HT : 0 < T) by (apply Z.pow_pos_nonneg; lia).
    assert (HBT : B = T * 2).
    { unfold B, T. replace (D M - 53) with (D M - 53 - 1 + 1) at 1 by lia.
      rewrite Z.pow_add_r by lia. reflexivity. }
    assert (HTM : T * 9007199254740992 <= Zpos M).
    { unfold T. change 9007199254740992 with (2 ^ 53).
      rewrite <- Z.pow_add_r by lia.
      replace (D M - 53 - 1 + 53) with (D M - 1) by lia. exact Bl. }
    set (h := Zpos M / T) in *.
    assert (Hh : h / 2 = q).
    { unfold h, q. rewrite HBT. apply Z.div_div; lia. }
    assert (Hh2 : h = 2 * q + 1).
    { pose proof (Z.div_mod h 2 ltac:(lia)) as Hdm.
      rewrite Zmod_odd, Ho, Hh in Hdm. exact Hdm. }
    assert (HhM : T * h <= Zpos M) by (apply Z.mul_div_le; exact HT).
    assert (H1 : T * (2 * (Zpos mn * A) - 1) <= T * h)
      by (apply Z.mul_le_mono_nonneg_l; lia).
    assert (H2 : T * (2 * (Zpos mn * A) - 1) = Zpos mn * (A * B) - T)
      by (rewrite HBT; ring).
    lia.
Qed.

(** The floor of a rounded number below the integer [p] is an integer
    below [p]. *)
Lemma floor_rounded (x : float) (m2 f p : Z) :
  Prim2SF x = rounded false m2 f ->
  0 <= m2 <= 2 ^ 53 -> f <= 0 -> 0 < p < 2 ^ 53 ->
  m2 < p * 2 ^ (- f) ->
  exists z, 0 <= z < p /\ JS.to_integer (JS.Math_floor x) = Some z.
Proof.
  intros Hx [H0 Hle] Hf [Hp0 Hp] Hlt.
  change (2 ^ 53) with 9007199254740992 in *.
  unfold rounded in Hx.
  destruct (Z.eqb_spec m2 0) as [E0|N0].
  { exists 0. split; [lia|].
    unfold JS.Math_floor. rewrite Hx. unfold JS.to_integer. rewrite Hx. reflexivity. }
  change (2 ^ 53) with 9007199254740992 in Hx.
  assert (Hpw : 0 < 2 ^ (- f)) by (apply Z.pow_pos_nonneg; lia).
  destruct (Z.ltb_spec m2 9007199254740992) as [L|G].
  - destruct (Z.leb_spec f 971) as [_|?]; [|lia].
    destruct f as [| |pf]; [| lia |].
    + exists m2. change (2 ^ (- 0)) with 1 in Hlt. split; [lia|].
      unfold JS.Math_floor. rewrite Hx. unfold JS.to_integer. rewrite Hx.
      f_equal. rewrite Z2Pos.id by lia. change (2 ^ 0) with 1. lia.
    + change (- Z.neg pf) with (Z.pos pf) in *.
      exists (m2 / 2 ^ Z.pos pf).
      assert (Hz0 : 0 <= m2 / 2 ^ Z.pos pf) by (apply Z.div_pos; lia).
      assert (Hz1 : m2 / 2 ^ Z.pos pf < p).
      { apply Z.div_lt_upper_bound; [exact Hpw|]. lia. }
      split; [lia|].
      unfold JS.Math_floor. rewrite Hx.
      change (Z.pow_pos 2 pf) with (2 ^ Z.pos pf).
      rewrite Z2Pos.id by lia.
      apply to_integer_of_Z. change (2 ^ 53) with 9007199254740992. lia.
  - assert (E : m2 = 9007199254740992) by lia. subst m2.
    destruct (Z.leb_spec (f + 1) 971) as [_|?]; [|lia].
    destruct f as [| |pf]; [change (2 ^ (- 0)) with 1 in Hlt; lia | lia |].
    change (- Z.neg pf) with (Z.pos pf) in *.
    assert (Hsplit : 2 ^ Z.pos pf = 2 * 2 ^ (Z.pos pf - 1)).
    { replace (Z.pos pf) with (1 + (Z.pos pf - 1)) at 1 by lia.
      rewrite Z.pow_add_r by lia. reflexivity. }
    assert (Hpw' : 0 < 2 ^ (Z.pos pf - 1)) by (apply Z.pow_pos_nonneg; lia).
    destruct (Z.neg pf + 1) as [| |pg] eqn:Eg; [| lia |].
    + replace (Z.pos pf - 1) with 0 in Hsplit by lia.
      change (2 ^ 0) with 1 in Hsplit.
      exists 4503599627370496. split; [lia|].
      unfold JS.Math_floor. rewrite Hx. unfold JS.to_integer. rewrite Hx. reflexivity.
    + assert (Epg : Z.pos pg = Z.pos pf - 1) by lia.
      exists (4503599627370496 / 2 ^ Z.pos pg).
      assert (Hz0 : 0 <= 4503599627370496 / 2 ^ Z.pos pg).
      { apply Z.div_pos; [lia|]. apply Z.pow_pos_nonneg; lia. }
      assert (Hz1 : 4503599627370496 / 2 ^ Z.pos pg < p).
      { rewrite Epg. apply Z.div_lt_upper_bound; [exact Hpw'|]. lia. }
      split; [lia|].
      unfold JS.Math_floor. rewrite Hx.
      change (Z.pow_pos 2 pg) with (2 ^ Z.pos pg).
      apply to_integer_of_Z. change (2 ^ 53) with 9007199254740992. lia.
Qed.

(** [Math.floor(r * n)] is one of the indices 0 to n - 1, for every number
    [r] strictly between 0 and 1 and every count [n] from 1 to 2^53 - 1. *)
Lemma unit_index (r : float) (p : positive) :
  (0 <? r)%float = true -> (r <? 1)%float = true -> Zpos p < 2 ^ 53 ->
  exists z, 0 <= z < Zpos p
            /\ JS.to_integer (JS.Math_floor (r * JS.of_Z (Zpos p))%float) = Some z.
Proof.
  intros H0 H1 Hp.
  destruct (unit_mantissa r H0 H1) as (mr & er & Hr & He & Hm).
  destruct (of_Z_finite p Hp) as (mn & Hn & Hmn & Hmnb).
  pose proof (D_bounds p) as [Bl Bu]. pose proof (D_pos p) as HD.
  assert (HD53 : D p <= 53).
  { destruct (Z.le_gt_cases (D p) 53) as [L|G]; [exact L|].
    assert (2 ^ 53 <= 2 ^ (D p - 1)) by (apply Z.pow_le_mono_r; lia). lia. }
  set (en := D p - 53) in *.
  assert (Hx : Prim2SF (r * JS.of_Z (Zpos p))%float
               = binary_round_aux prec emax false (Zpos (mr * mn)) (er + en) loc_Exact).
  { rewrite mul_spec, Hr, Hn. reflexivity. }
  pose proof (D_bounds (mr * mn)) as [Ml Mu]. pose proof (D_pos (mr * mn)) as HDM.
  destruct (bra_spec false (mr * mn) (er + en)) as (m2 & Hb & _ & Hodd & Hle & Hra).
  { assert (53 <= D (mr * mn)).
    { destruct (Z.le_gt_cases 53 (D (mr * mn))) as [L|G]; [exact L|].
      assert (2 ^ D (mr * mn) <= 2 ^ 52) by (apply Z.pow_le_mono_r; lia).
      assert (Zpos mn <= Zpos (mr * mn)) by nia. lia. }
    rewrite fx_eq. lia. }
  rewrite Hra in Hx. clear Hra.
  destruct (product_below mr mn er en m2 Hm He Hmnb ltac:(lia) Hb Hodd Hle) as [Hf Hlt].
  set (f := fx (D (mr * mn) + (er + en))) in *.
  apply (floor_rounded _ m2 f (Zpos p) Hx).
  - split; [|exact Hle].
    assert (0 <= Zpos (mr * mn) / 2 ^ (f - (er + en))).
    { apply Z.div_pos; [lia|]. apply Z.pow_pos_nonneg; lia. }
    lia.
  - lia.
  - lia.
  - replace (Zpos p * 2 ^ (- f)) with (Zpos mn * 2 ^ (en - f)); [exact Hlt|].
    rewrite Hmn. rewrite <- Z.mul_assoc. rewrite <- Z.pow_add_r by lia.
    f_equal. f_equal. lia.
Qed.

Lemma unit_picks_index (r : float) (n : nat) :
  (0 <? r)%float = true -> (r <? 1)%float = true ->
  (1 <= n)%nat -> Z.of_nat n < 2 ^ 53 -> picks_index r n.
Proof.
  intros H0 H1 Hn Hb.
  assert (E : Zpos (Z.to_pos (Z.of_nat n)) = Z.of_nat n) by (apply Z2Pos.id; lia).
  destruct (unit_index r (Z.to_pos (Z.of_nat n)) H0 H1) as (z & [Hz0 Hz1] & Hz).
  { rewrite E. exact Hb. }
  rewrite E in Hz, Hz1.
  exists (Z.to_nat z). split; [lia|].
  rewrite Z2Nat.id by lia. exact Hz.
Qed.

End Rounding.

(* ===================================================================== *)
(** ** The bounding-box test *)
(* ===================================================================== *)

Module CollisionFacts.
Import Notions.
Local Open Scope float_scope.

Section Boxes.

Context {T P : Type} `{Box T} `{Box P}.

Lemma collidesWith_swap (a : T) (b : P) :
  Obstacle.collidesWith a b = Obstacle.collidesWith b a.
Proof.
  unfold Obstacle.collidesWith, JS.gtb.
  destruct (box_x b + box_width b <? box_x a),
           (box_x a + box_width a <? box_x b),
           (box_y b + box_height b <? box_y a),
           (box_y a + box_height a <? box_y b); reflexivity.
Qed.

Lemma collidesWith_self (a : T) :
  (0 <=? box_width a) = true -> (0 <=? box_height a) = true ->
  Obstacle.collidesWith a a = true.
Proof.
  intros Hw Hh. unfold Obstacle.collidesWith, JS.gtb.
  rewrite (Rounding.add_nonneg_not_below (box_x a) (box_width a) Hw).
  rewrite (Rounding.add_nonneg_not_below (box_y a) (box_height a) Hh).
  reflexivity.
Qed.

(** The right edge of the player lies exactly on the left edge of the
    other box. *)
Lemma collidesWith_left_contact (this : T) (player : P) :
  (0 <=? box_width player) = true -> (0 <=? box_width this) = true ->
  (box_x player + box_width player =? box_x this) = true ->
  meet_vertically this player ->
  Obstacle.collidesWith this player = true.
Proof.
  intros Hwp Hwt Hc [Hv1 Hv2]. unfold Obstacle.collidesWith, JS.gtb.
  rewrite Hv1, Hv2.
  assert (A : (box_x player + box_width player <? box_x this) = false).
  { destruct (box_x player + box_width player <? box_x this) eqn:E; auto.
    apply FloatFacts.ltb_cmp in E. apply FloatFacts.eqb_cmp in Hc. congruence. }
  rewrite A.
  assert (B : (box_x this + box_width this <? box_x player) = false).
  { destruct (box_x this + box_width this <? box_x player) eqn:E; auto. exfalso.
    pose proof (Rounding.add_nonneg_not_below (box_x player) (box_width player) Hwp) as M1.
    pose proof (Rounding.add_nonneg_not_below (box_x this) (box_width this) Hwt) as M2.
    pose proof Hc as Hc'. apply FloatFacts.eqb_cmp in Hc'.
    (* the numbers involved *)
    assert (Ns : is_nan (box_x player + box_width player) = false).
    { apply FloatFacts.not_nan_spec. intros Hn. unfold cmp in Hc'. rewrite Hn in Hc'. discriminate. }
    assert (No : is_nan (box_x this) = false).
    { apply FloatFacts.not_nan_spec. intros Hn. unfold cmp in Hc'. rewrite Hn in Hc'.
      destruct (Prim2SF (box_x player + box_width player)); discriminate. }
    pose proof E as E'. apply FloatFacts.ltb_cmp in E'.
    assert (Nt : is_nan (box_x this + box_width this) = false).
    { apply FloatFacts.not_nan_spec. intros Hn. unfold cmp in E'. rewrite Hn in E'. discriminate. }
    assert (Np : is_nan (box_x player) = false).
    { apply FloatFacts.not_nan_spec. intros Hn. unfold cmp in E'. rewrite Hn in E'.
      destruct (Prim2SF (box_x this + box_width this)); discriminate. }
    (* this.x + this.width < player.x <= player.x + player.width = this.x <= this.x + this.width *)
    pose proof (FloatFacts.not_ltb_leb _ _ Ns Np M1) as L1.
    pose proof (FloatFacts.not_ltb_leb _ _ Nt No M2) as L2.
    assert (L3 : (box_x player + box_width player <=? box_x this) = true).
    { apply FloatFacts.leb_cmp. right. exact Hc'. }
    pose proof (FloatFacts.ltb_leb_trans _ _ _ E L1) as T1.
    pose proof (FloatFacts.ltb_leb_trans _ _ _ T1 L3) as T2.
    pose proof (FloatFacts.ltb_leb_trans _ _ _ T2 L2) as T3.
    rewrite FloatFacts.ltb_irrefl in T3. discriminate. }
  rewrite B. reflexivity.
Qed.

(** The bottom edge of the player lies exactly on the top edge of the
    other box. *)
Lemma collidesWith_top_contact (this : T) (player : P) :
  (0 <=? box_height player) = true -> (0 <=? box_height this) = true ->
  (box_y player + box_height player =? box_y this) = true ->
  meet_horizontally this player ->
  Obstacle.collidesWith this player = true.
Proof.
  intros Hwp Hwt Hc [Hv1 Hv2]. unfold Obstacle.collidesWith, JS.gtb.
  rewrite Hv1, Hv2.
  assert (A : (box_y player + box_height player <? box_y this) = false).
  { destruct (box_y player + box_height player <? box_y this) eqn:E; auto.
    apply FloatFacts.ltb_cmp in E. apply FloatFacts.eqb_cmp in Hc. congruence. }
  rewrite A.
  assert (B : (box_y this + box_height this <? box_y player) = false).
  { destruct (box_y this + box_height this <? box_y player) eqn:E; auto. exfalso.
    pose proof (Rounding.add_nonneg_not_below (box_y player) (box_height player) Hwp) as M1.
    pose proof (Rounding.add_nonneg_not_below (box_y this) (box_height this) Hwt) as M2.
    pose proof Hc as Hc'. apply FloatFacts.eqb_cmp in Hc'.
    assert (Ns : is_nan (box_y player + box_height player) = false).
    { apply FloatFacts.not_nan_spec. intros Hn. unfold cmp in Hc'. rewrite Hn in Hc'. discriminate. }
    assert (No : is_nan (box_y this) = false).
    { apply FloatFacts.not_nan_spec. intros Hn. unfold cmp in Hc'. rewrite Hn in Hc'.
      destruct (Prim2SF (box_y player + box_height player)); discriminate. }
    pose proof E as E'. apply FloatFacts.ltb_cmp in E'.
    assert (Nt : is_nan (box_y this + box_height this) = false).
    { apply FloatFacts.not_nan_spec. intros Hn. unfold cmp in E'. rewrite Hn in E'. discriminate. }
    assert (Np : is_nan (box_y player) = false).
    { apply FloatFacts.not_nan_spec. intros Hn. unfold cmp in E'. rewrite Hn in E'.
      destruct (Prim2SF (box_y this + box_height this)); discriminate. }
    pose proof (FloatFacts.not_ltb_leb _ _ Ns Np M1) as L1.
    pose proof (FloatFacts.not_ltb_leb _ _ Nt No M2) as L2.
    assert (L3 : (box_y player + box_height player <=? box_y this) = true).
    { apply FloatFacts.leb_cmp. right. exact Hc'. }
    pose proof (FloatFacts.ltb_leb_trans _ _ _ E L1) as T1.
    pose proof (FloatFacts.ltb_leb_trans _ _ _ T1 L3) as T2.
    pose proof (FloatFacts.ltb_leb_trans _ _ _ T2 L2) as T3.
    rewrite FloatFacts.ltb_irrefl in T3. discriminate. }
  rewrite B. reflexivity.
Qed.

End Boxes.

(** A collision found by [step] ends the episode. *)
Lemma step_gameOver (random : N -> float) (dt : float) (g : Game.t) (c : N) :
  (exists o, In o (Game.obstacles (fst (Game.step random dt g c)))
             /\ Obstacle.collidesWith o (Game.player (fst (Game.step random dt g c))) = true) ->
  Game.gameOver (fst (Game.step random dt g c)) = true
  /\ ended (fst (Game.step random dt g c)) = true.
Proof.
  intros (o & Hin & Hc).
  assert (Hg : Game.gameOver (fst (Game.step random dt g c)) = true).
  { revert Hin Hc. unfold Game.step.
    destruct (JS.geb _ _); simpl; intros Hin Hc;
      match goal with
      | |- (if existsb ?f ?l then _ else _) = _ =>
          assert (E : existsb f l = true) by (apply existsb_exists; eauto);
          rewrite E; reflexivity
      end. }
  split; [exact Hg|]. unfold ended. rewrite Hg. reflexivity.
Qed.

(** C8.  The bounding-box test gives the same answer when the two boxes
    exchange their roles, whatever their sizes; and a box of non-negative
    width and height collides with itself. *)
Theorem C8_collision_symmetric_reflexive :
  (forall (T P : Type) (BT : Box T) (BP : Box P) (a : T) (b : P),
      Obstacle.collidesWith a b = Obstacle.collidesWith b a)
  /\
  (forall (T : Type) (BT : Box T) (a : T),
      (0 <=? box_width a) = true -> (0 <=? box_height a) = true ->
      Obstacle.collidesWith a a = true).
Proof.
  split.
  - intros. apply collidesWith_swap.
  - intros. apply collidesWith_self; assumption.
Qed.

Lemma C8_collision_symmetric_reflexive_witness :
  Obstacle.collidesWith touching_obstacle touching_player
  = Obstacle.collidesWith touching_player touching_obstacle
  /\ Obstacle.collidesWith touching_obstacle touching_obstacle = true
  /\ Obstacle.collidesWith touching_player touching_player = true.
Proof.
  destruct C8_collision_symmetric_reflexive as [S R].
  split; [|split].
  - apply (S Obstacle.t Player.t _ _ touching_obstacle touching_player).
  - apply (R Obstacle.t _ touching_obstacle); reflexivity.
  - apply (R Player.t _ touching_player); reflexivity.
Defined.

(** C9.  Contact along an edge counts as a collision: when the right edge
    of the player is exactly the left edge of the obstacle (or its bottom
    edge exactly the top edge of the obstacle), the widths (heights) are
    not negative and the boxes are not separated on the other axis,
    [collidesWith] answers true, although the boxes share no area; and a
    collision that [step] finds sets [gameOver], which ends the loop of
    [run]. *)
Theorem C9_edge_contact_collides :
  (forall (T P : Type) (BT : Box T) (BP : Box P) (obstacle : T) (player : P),
      (0 <=? box_width player) = true -> (0 <=? box_width obstacle) = true ->
      (box_x player + box_width player =? box_x obstacle) = true ->
      meet_vertically obstacle player ->
      Obstacle.collidesWith obstacle player = true)
  /\
  (forall (T P : Type) (BT : Box T) (BP : Box P) (obstacle : T) (player : P),
      (0 <=? box_height player) = true -> (0 <=? box_height obstacle) = true ->
      (box_y player + box_height player =? box_y obstacle) = true ->
      meet_horizontally obstacle player ->
      Obstacle.collidesWith obstacle player = true)
  /\
  (forall (random : N -> float) (dt : float) (g : Game.t) (c : N),
      (exists o, In o (Game.obstacles (fst (Game.step random dt g c)))
                 /\ Obstacle.collidesWith o (Game.player (fst (Game.step random dt g c)))
                    = true) ->
      Game.gameOver (fst (Game.step random dt g c)) = true
      /\ ended (fst (Game.step random dt g c)) = true).
Proof.
  split; [|split].
  - intros. apply collidesWith_left_contact; assumption.
  - intros. apply collidesWith_top_contact; assumption.
  - intros. apply step_gameOver. assumption.
Qed.

Lemma C9_edge_contact_collides_witness :
  Obstacle.collidesWith touching_obstacle touching_player = true
  /\ (box_x touching_player + box_width touching_player =? box_x touching_obstacle) = true.
Proof.
  split; [|reflexivity].
  apply (proj1 C9_edge_contact_collides Obstacle.t Player.t _ _
               touching_obstacle touching_player);
    try reflexivity.
  split; reflexivity.
Defined.

End CollisionFacts.

(* ===================================================================== *)
(** ** The game step: what it leaves alone *)
(* ===================================================================== *)

Module GameFacts.
Local Open Scope float_scope.
Import Notions.

Lemma same_frame_refl (p : Player.t) : same_frame p p.
Proof. repeat split. Qed.

Lemma same_frame_trans (p q r : Player.t) :
  same_frame p q -> same_frame q r -> same_frame p r.
Proof.
  unfold same_frame. intros (A & B & C) (A' & B' & C').
  repeat split; congruence.
Qed.

Lemma physics_frame (dt canvasH : float) (p : Player.t) :
  same_frame p (Game.physics dt canvasH p).
Proof.
  unfold Game.physics, same_frame.
  destruct (negb (Player.grounded p)); simpl;
    match goal with |- context [if ?b then _ else _] => destruct b end;
    simpl; auto.
Qed.

Lemma decide_frame (g : Game.t) (p : Player.t) :
  same_frame p (Game.decide g p).
Proof.
  unfold Game.decide, same_frame.
  destruct (_ && _); simpl; auto.
Qed.

Lemma step_player (random : N -> float) (dt : float) (g : Game.t) (c : N) :
  Game.player (fst (Game.step random dt g c))
  = Game.decide g (Game.physics dt (Game.canvasHeight g) (Game.player g)).
Proof.
  unfold Game.step.
  destruct (JS.geb _ _); simpl; reflexivity.
Qed.

Lemma step_totalTime (random : N -> float) (dt : float) (g : Game.t) (c : N) :
  Game.totalTime (fst (Game.step random dt g c)) = Game.totalTime g + dt.
Proof.
  unfold Game.step.
  destruct (JS.geb _ _); simpl; reflexivity.
Qed.

Lemma step_frame (random : N -> float) (dt : float) (g : Game.t) (c : N) :
  same_frame (Game.player g) (Game.player (fst (Game.step random dt g c))).
Proof.
  rewrite step_player.
  eapply same_frame_trans; [apply physics_frame | apply decide_frame].
Qed.

Lemma steps_frame (random : N -> float) (dt : float) (n : nat) :
  forall (g : Game.t) (c : N),
    same_frame (Game.player g) (Game.player (fst (steps random dt n g c))).
Proof.
  induction n as [|n IH]; intros g c; simpl.
  - apply same_frame_refl.
  - pose proof (step_frame random dt g c) as Hs.
    destruct (Game.step random dt g c) as [g1 c1]. simpl in Hs.
    eapply same_frame_trans; [exact Hs | apply IH].
Qed.

(** C10.  [Game.step] never changes [player.x], [player.width] or
    [player.height], whatever the state, the time step and the random
    draws; hence after any number of steps, as [Game.run] takes them, the
    player is at the horizontal position and has the size it started
    with. *)
Theorem C10_step_keeps_player_frame :
  (forall (random : N -> float) (dt : float) (g : Game.t) (c : N),
      same_frame (Game.player g) (Game.player (fst (Game.step random dt g c))))
  /\
  (forall (random : N -> float) (dt : float) (n : nat) (g : Game.t) (c : N),
      same_frame (Game.player g) (Game.player (fst (steps random dt n g c)))).
Proof.
  split.
  - exact step_frame.
  - intros. apply steps_frame.
Qed.

End GameFacts.

(* ===================================================================== *)
(** ** The episode loop *)
(* ===================================================================== *)

Module RunFacts.
Local Open Scope float_scope.
Import Notions.

Lemma clock_stops : (time_after MAX_STEPS 0 <? Game.MAX_TIME) = false.
Proof. vm_compute. reflexivity. Qed.

Lemma clock_runs_before :
  (time_after (pred MAX_STEPS) 0 <? Game.MAX_TIME) = true.
Proof. vm_compute. reflexivity. Qed.

Lemma run_loop_stop (random : N -> float) (fuel : nat) (g : Game.t) (c : N) :
  negb (Game.gameOver g) && (Game.totalTime g <? Game.MAX_TIME) = false ->
  Game.run_loop random fuel g c = Some (g, c) /\ ended g = true.
Proof.
  intros E. split.
  - destruct fuel; simpl; rewrite E; reflexivity.
  - unfold ended. destruct (Game.gameOver g); simpl in *; auto.
    rewrite E. reflexivity.
Qed.

Lemma run_loop_ends (random : N -> float) (k : nat) :
  forall (fuel : nat) (g : Game.t) (c : N),
    (time_after k (Game.totalTime g) <? Game.MAX_TIME) = false ->
    (k <= fuel)%nat ->
    exists g' c' j,
      Game.run_loop random fuel g c = Some (g', c')
      /\ (j <= k)%nat
      /\ Game.totalTime g' = time_after j (Game.totalTime g)
      /\ ended g' = true.
Proof.
  induction k as [|k IH]; intros fuel g c Hk Hfuel.
  - simpl in Hk.
    destruct (run_loop_stop random fuel g c) as [Hr He].
    { rewrite Hk. apply andb_false_r. }
    exists g, c, O. split; [exact Hr|]. split; [lia|]. split; [reflexivity|exact He].
  - destruct (negb (Game.gameOver g) && (Game.totalTime g <? Game.MAX_TIME)) eqn:E.
    + destruct fuel as [|fuel]; [lia|].
      simpl. rewrite E.
      pose proof (GameFacts.step_totalTime random Game.FIXED_DT g c) as Ht.
      destruct (Game.step random Game.FIXED_DT g c) as [g1 c1]. simpl in Ht.
      destruct (IH fuel g1 c1) as (g' & c' & j & Hr & Hj & Htime & He).
      * rewrite Ht. exact Hk.
      * lia.
      * exists g', c', (S j). split; [exact Hr|]. split; [lia|]. split; [|exact He].
        rewrite Htime, Ht. reflexivity.
    + destruct (run_loop_stop random fuel g c E) as [Hr He].
      exists g, c, O. split; [exact Hr|]. split; [lia|]. split; [reflexivity|exact He].
Qed.

Lemma create_totalTime (random : N -> float) (genome : list float) (c : N) :
  Game.totalTime (fst (Game.create random genome c)) = 0.
Proof. reflexivity. Qed.

(** Every episode ends: whatever the genome and whatever [Math.random]
    returns, the loop of [Game.run] stops after at most [MAX_STEPS] steps,
    in a state where the game is over or the clock has reached [MAX_TIME];
    more fuel than that changes nothing. *)
Lemma run_terminates (random : N -> float) (genome : list float) (c : N) :
  forall fuel, (MAX_STEPS <= fuel)%nat ->
    exists g' c' j,
      Game.run_loop random fuel (fst (Game.create random genome c))
                    (snd (Game.create random genome c)) = Some (g', c')
      /\ (j <= MAX_STEPS)%nat
      /\ Game.totalTime g' = time_after j 0
      /\ ended g' = true.
Proof.
  intros fuel Hfuel.
  apply run_loop_ends with (k := MAX_STEPS); [exact clock_stops | exact Hfuel].
Qed.

Lemma time_after_in_clock_values (k : nat) :
  forall (j : nat) (t : float), (j <= k)%nat -> In (time_after j t) (clock_values k t).
Proof.
  induction k as [|k IH]; intros j t Hj.
  - assert (j = O) by lia. subst. simpl. auto.
  - destruct j as [|j]; simpl; auto.
    right. apply IH. lia.
Qed.

Lemma clock_values_bounded :
  forallb (fun t => t <=? LONGEST) (clock_values MAX_STEPS 0) = true.
Proof. vm_compute. reflexivity. Qed.

Lemma run_time_bounded (random : N -> float) (genome : list float) (c : N) :
  forall fuel, (MAX_STEPS <= fuel)%nat ->
    exists t c',
      Game.run random fuel (fst (Game.create random genome c))
               (snd (Game.create random genome c)) = Some (t, c')
      /\ (t <=? LONGEST) = true.
Proof.
  intros fuel Hfuel.
  destruct (run_terminates random genome c fuel Hfuel) as (g' & c' & j & Hr & Hj & Ht & _).
  exists (Game.totalTime g'), c'. unfold Game.run. rewrite Hr. split; auto.
  rewrite Ht.
  pose proof clock_values_bounded as Hb.
  rewrite forallb_forall in Hb. apply Hb.
  apply time_after_in_clock_values. exact Hj.
Qed.

(** C5.  Every episode ends, whatever the genome and the random draws:
    [run] returns after at most 1801 steps, and the survival time it
    returns is at most 30.016666666666243.  That bound is reached, and it
    is above the 30 seconds of [MAX_TIME]: the episode of the policy
    [-2, 0, 0.25] with every random draw equal to 0.5 is never ended by a
    collision, its loop stops on the clock after 1801 steps and [run]
    returns 30.016666666666243.  (The sum of 1800 steps of 1/60 is
    29.999999999999577 in binary64, so one more step is taken.) *)
Theorem C5_run_exceeds_max_time :
  (forall (random : N -> float) (genome : list float) (c : N) (fuel : nat),
      (MAX_STEPS <= fuel)%nat ->
      exists t c',
        Game.run random fuel (fst (Game.create random genome c))
                 (snd (Game.create random genome c)) = Some (t, c')
        /\ (t <=? LONGEST) = true)
  /\
  (let '(g, c) := Game.create half jumper 0 in
   Game.run half MAX_STEPS g c = Some (LONGEST, 19%N)
   /\ (Game.MAX_TIME <? LONGEST) = true
   /\ option_map (fun r => Game.gameOver (fst r)) (Game.run_loop half MAX_STEPS g c)
      = Some false
   /\ time_after 1800 0 = 29.999999999999577).
Proof.
  split.
  - intros random genome c fuel Hfuel. apply run_time_bounded. exact Hfuel.
  - vm_compute. repeat split; reflexivity.
Qed.

Lemma C5_run_exceeds_max_time_witness :
  exists t c',
    Game.run half MAX_STEPS (fst (Game.create half jumper 0))
             (snd (Game.create half jumper 0)) = Some (t, c')
    /\ (t <=? LONGEST) = true.
Proof.
  apply (proj1 C5_run_exceeds_max_time half jumper 0%N MAX_STEPS).
  apply Nat.le_refl.
Defined.

Lemma run_loop_time (random : N -> float) (fuel : nat) :
  forall (g : Game.t) (c : N) (g' : Game.t) (c' : N),
    Game.run_loop random fuel g c = Some (g', c') ->
    exists j, (j <= fuel)%nat /\ Game.totalTime g' = time_after j (Game.totalTime g).
Proof.
  induction fuel as [|fuel IH]; intros g c g' c' H; simpl in H.
  - destruct (_ && _); [discriminate|].
    injection H as <- _. exists O. auto.
  - destruct (_ && _).
    + pose proof (GameFacts.step_totalTime random Game.FIXED_DT g c) as Ht.
      destruct (Game.step random Game.FIXED_DT g c) as [g1 c1]. simpl in Ht.
      apply IH in H. destruct H as (j & Hj & Hq).
      exists (S j). split; [lia|]. simpl. rewrite <- Ht. exact Hq.
    + injection H as <- _. exists O. split; [lia|reflexivity].
Qed.

(** Whatever the fuel, a survival time that [run] returns is one of the
    clock values of the first [MAX_STEPS] steps. *)
Lemma run_fitness_clock (random : N -> float) (fuel : nat) (genome : list float)
    (c : N) (t : float) (c' : N) :
  Game.run random fuel (fst (Game.create random genome c))
           (snd (Game.create random genome c)) = Some (t, c') ->
  In t (clock_values MAX_STEPS 0).
Proof.
  unfold Game.run. intros H.
  destruct (Game.run_loop random fuel _ _) as [[g' c1]|] eqn:E; [|discriminate].
  injection H as <- _.
  destruct (Nat.le_gt_cases MAX_STEPS fuel) as [Hle|Hgt].
  - destruct (run_terminates random genome c fuel Hle) as (g2 & c2 & j & Hr & Hj & Ht & _).
    rewrite E in Hr. injection Hr as <- _.
    rewrite Ht. apply time_after_in_clock_values. exact Hj.
  - apply run_loop_time in E. destruct E as (j & Hj & Ht).
    rewrite Ht. change (Game.totalTime (fst (Game.create random genome c))) with 0.
    apply time_after_in_clock_values. lia.
Qed.

Lemma clock_values_numbers :
  forallb (fun t => negb (is_nan t)) (clock_values MAX_STEPS 0) = true.
Proof. vm_compute. reflexivity. Qed.

End RunFacts.

(* ===================================================================== *)
(** ** The player on the ground *)
(* ===================================================================== *)

Module GroundFacts.
Local Open Scope float_scope.
Import Notions.

Lemma physics_at_rest (dt canvasH : float) (p : Player.t) :
  is_finite dt = true ->
  is_nan (canvasH - Player.height p) = false ->
  at_rest canvasH p ->
  Game.physics dt canvasH p = p.
Proof.
  intros Hdt Hnan (Hy & Hv & Hg).
  destruct p as [x y w h v gr jp gd]. simpl in *. subst y v gd.
  unfold Game.physics. simpl.
  unfold JS.geb. rewrite (FloatFacts.leb_add_zero_mul _ dt Hnan Hdt).
  reflexivity.
Qed.

Lemma decide_no_jump (dt : float) (g : Game.t) :
  no_jump dt g ->
  Game.decide g (Game.physics dt (Game.canvasHeight g) (Game.player g))
  = Game.physics dt (Game.canvasHeight g) (Game.player g).
Proof.
  unfold no_jump, Game.decide. intros ->. reflexivity.
Qed.

Lemma step_at_rest (random : N -> float) (dt : float) (g : Game.t) (c : N) :
  is_finite dt = true ->
  is_nan (Game.canvasHeight g - Player.height (Game.player g)) = false ->
  at_rest (Game.canvasHeight g) (Game.player g) ->
  no_jump dt g ->
  Game.player (fst (Game.step random dt g c)) = Game.player g.
Proof.
  intros Hdt Hnan Hrest Hno.
  rewrite GameFacts.step_player.
  rewrite (decide_no_jump dt g Hno).
  apply (physics_at_rest dt _ _ Hdt Hnan Hrest).
Qed.

Lemma step_canvasHeight (random : N -> float) (dt : float) (g : Game.t) (c : N) :
  Game.canvasHeight (fst (Game.step random dt g c)) = Game.canvasHeight g.
Proof.
  unfold Game.step. destruct (JS.geb _ _); reflexivity.
Qed.

(** C7.  A player that rests on the ground (y = playfield height - player
    height, zero vertical velocity, grounded) and whose policy output is
    not strictly positive is left exactly where it is by [Game.step]; and
    over any number of consecutive steps in each of which the policy output
    is not strictly positive, the player is still exactly at ground level,
    with zero velocity and grounded.  The time step is a finite number and
    the ground level is a number. *)
Theorem C7_grounded_player_stays (random : N -> float) (dt : float) (n : nat) :
  forall (g : Game.t) (c : N),
    is_finite dt = true ->
    is_nan (Game.canvasHeight g - Player.height (Game.player g)) = false ->
    at_rest (Game.canvasHeight g) (Game.player g) ->
    (forall k, (k < n)%nat -> no_jump dt (fst (steps random dt k g c))) ->
    Game.player (fst (steps random dt n g c)) = Game.player g
    /\ at_rest (Game.canvasHeight g) (Game.player (fst (steps random dt n g c))).
Proof.
  induction n as [|n IH]; intros g c Hdt Hnan Hrest Hno.
  - simpl. split; [reflexivity | exact Hrest].
  - simpl.
    pose proof (step_at_rest random dt g c Hdt Hnan Hrest (Hno O (Nat.lt_0_succ n))) as Hp.
    pose proof (step_canvasHeight random dt g c) as Hc.
    destruct (Game.step random dt g c) as [g1 c1] eqn:E. simpl in Hp, Hc.
    destruct (IH g1 c1) as [Hq Hr].
    + exact Hdt.
    + rewrite Hc, Hp. exact Hnan.
    + rewrite Hc, Hp. exact Hrest.
    + intros k Hk. specialize (Hno (S k) (proj1 (Nat.succ_lt_mono k n) Hk)).
      simpl in Hno. rewrite E in Hno. exact Hno.
    + split.
      * rewrite Hq. exact Hp.
      * rewrite Hc in Hr. exact Hr.
Qed.

End GroundFacts.

(* ===================================================================== *)
(** ** Two episodes, played out *)
(* ===================================================================== *)

Module Episodes.
Local Open Scope float_scope.
Import Notions.

Lemma C7_grounded_player_stays_witness :
  Game.player (fst (steps half Game.FIXED_DT 3 (fst landed) (snd landed)))
  = Game.player (fst landed)
  /\ at_rest (Game.canvasHeight (fst landed))
             (Game.player (fst (steps half Game.FIXED_DT 3 (fst landed) (snd landed)))).
Proof.
  apply (GroundFacts.C7_grounded_player_stays half Game.FIXED_DT 3 (fst landed) (snd landed)).
  - vm_compute. reflexivity.
  - vm_compute. reflexivity.
  - repeat split; vm_compute; reflexivity.
  - intros k Hk.
    destruct k as [|[|[|k]]]; [vm_compute; reflexivity ..| lia].
Defined.

(** The value is never above 1 when it is a number, and with no obstacle
    ahead on the default playfield it is exactly 1. *)
Lemma normalizedDist_le_1 (canvasW : float) (obs : list Obstacle.t) (p : Player.t) :
  is_nan (Game.distToNext obs p / canvasW) = false ->
  (Game.normalizedDist canvasW obs p <=? 1) = true.
Proof.
  intros H. unfold Game.normalizedDist.
  destruct (FloatFacts.Math_min_spec _ 1 H eq_refl) as (_ & _ & Hle). exact Hle.
Qed.

Lemma normalizedDist_sentinel (p : Player.t) :
  Game.normalizedDist CANVAS_WIDTH [] p = 1.
Proof. reflexivity. Qed.

(** C4.  The normalized distance is at most 1 whenever it is a number, and
    it is exactly 1 when no obstacle is ahead; but only the upper end is
    clamped.  In the 204th step of the episode of the policy [-2, 0, 0.25]
    with every random draw equal to 0.5, the episode is still running, the
    obstacle found by the search has its left edge at 366.67, behind the
    left edge of the player at 390 that is jumping over it, and the
    normalized distance fed to the policy is -0.029166666666664228: below
    0, outside [0, 1]. *)
Theorem C4_normalized_distance_negative :
  (forall (canvasW : float) (obs : list Obstacle.t) (p : Player.t),
      is_nan (Game.distToNext obs p / canvasW) = false ->
      (Game.normalizedDist canvasW obs p <=? 1) = true)
  /\ (forall p : Player.t, Game.normalizedDist CANVAS_WIDTH [] p = 1)
  /\ steps half Game.FIXED_DT 203 (fst (Game.create half jumper 0))
            (snd (Game.create half jumper 0)) = airborne
  /\ ended (fst airborne) = false
  /\ option_map Obstacle.x
       (Game.nextObstacle (Game.obstacles (fst airborne)) (Game.player (fst airborne)))
     = Some 366.66666666666862
  /\ Player.x (Game.player (fst airborne)) = 390
  /\ fed_distance Game.FIXED_DT (fst airborne) = -0.029166666666664228
  /\ (fed_distance Game.FIXED_DT (fst airborne) <? 0) = true.
Proof.
  split; [exact normalizedDist_le_1|].
  split; [exact normalizedDist_sentinel|].
  vm_compute. repeat split; reflexivity.
Qed.

Lemma C4_normalized_distance_negative_witness :
  (Game.normalizedDist CANVAS_WIDTH (Game.obstacles (fst airborne))
                       (Game.player (fst airborne)) <=? 1) = true.
Proof.
  apply (proj1 C4_normalized_distance_negative).
  vm_compute. reflexivity.
Defined.

End Episodes.

(* ===================================================================== *)
(** ** Elitism and the returned genome *)
(* ===================================================================== *)

Module ElitismFacts.
Local Open Scope float_scope.
Import Notions.
Import GA.

(** Reading a successful [bind] backwards. *)
Lemma bind_Ok {A B : Type} (m : M A) (k : A -> M B) (c : N) (b : B) (c' : N) :
  bind m k c = Ok (b, c') ->
  exists a c1, m c = Ok (a, c1) /\ k a c1 = Ok (b, c').
Proof.
  unfold bind. destruct (m c) as [[a c1]|e]; [eauto | discriminate].
Qed.

Lemma ret_Ok {A : Type} (a b : A) (c c' : N) :
  ret a c = Ok (b, c') -> b = a /\ c' = c.
Proof. unfold ret. intros H. injection H. auto. Qed.

Ltac inv_bind H :=
  let a := fresh "a" in
  let c1 := fresh "c" in
  let H1 := fresh "H" in
  apply bind_Ok in H; destruct H as (a & c1 & H1 & H).

Tactic Notation "bind_inv" hyp(H) "as" ident(a) ident(c) ident(H1) :=
  apply bind_Ok in H; destruct H as (a & c & H1 & H).

Section WithRandom.

Variable random : N -> float.
Variables Math_log Math_cos : float -> float.
Variable fuel : nat.

Lemma fillOffspring_extends (missing : nat) (elites : list scored) (rate : float) :
  forall (acc pop : list (list float)) (c c' : N),
    fillOffspring random Math_log Math_cos fuel missing elites rate acc c = Ok (pop, c') ->
    exists children, pop = acc ++ children /\ List.length children = missing.
Proof.
  induction missing as [|missing IH]; intros acc pop c c' H; simpl in H.
  - apply ret_Ok in H. destruct H as [-> _].
    exists []. rewrite app_nil_r. auto.
  - inv_bind H. inv_bind H.
    apply IH in H. destruct H as (children & -> & Hlen).
    exists (a0 :: children). rewrite <- app_assoc. simpl. auto.
Qed.

Lemma fillNewPop_extends (missing : nat) (elites : list scored) (count s1 s2 sb : float) :
  forall (acc pop : list (list float)) (c c' : N),
    fillNewPop random Math_log Math_cos fuel missing elites count s1 s2 sb acc c
    = Ok (pop, c') ->
    exists children, pop = acc ++ children /\ List.length children = missing.
Proof.
  induction missing as [|missing IH]; intros acc pop c c' H; simpl in H.
  - apply ret_Ok in H. destruct H as [-> _].
    exists []. rewrite app_nil_r. auto.
  - inv_bind H. inv_bind H.
    apply IH in H. destruct H as (children & -> & Hlen).
    exists (a0 :: children). rewrite <- app_assoc. simpl. auto.
Qed.

(** The number of elites of [runGA]: [Math.floor(50 * 0.1)]. *)
Lemma runGA_elites (ranked : list scored) :
  JS.slice0 ranked (JS.Math_floor (JS.of_nat POP_SIZE * ELITE_FRACTION))
  = firstn 5 ranked.
Proof. reflexivity. Qed.

Lemma replacement_extends (ranked : list scored) (c c' : N) (newPop : list (list float)) :
  replacement random Math_log Math_cos fuel ranked c = Ok (newPop, c') ->
  exists children,
    newPop = map genome (firstn 5 ranked) ++ children
    /\ List.length children = (POP_SIZE - List.length (firstn 5 ranked))%nat.
Proof.
  unfold replacement. rewrite runGA_elites. intros H.
  apply fillNewPop_extends in H. rewrite length_map in H. exact H.
Qed.

Lemma breedNextGeneration_extends (targetPopSize : nat) (elites : list scored)
    (rate : float) (c c' : N) (pop : list (list float)) :
  breedNextGeneration random Math_log Math_cos fuel targetPopSize elites rate c
  = Ok (pop, c') ->
  exists children,
    pop = map genome elites ++ children
    /\ List.length children = (targetPopSize - List.length elites)%nat.
Proof.
  unfold breedNextGeneration. intros H.
  apply fillOffspring_extends in H. rewrite length_map in H. exact H.
Qed.

Lemma insertByFitness_length (s : scored) (l : list scored) :
  List.length (insertByFitness s l) = S (List.length l).
Proof.
  induction l as [|s' l IH]; simpl; auto.
  destruct (fitness s <? fitness s'); simpl; auto.
Qed.

Lemma sortByFitness_length (l : list scored) :
  List.length (sortByFitness l) = List.length l.
Proof.
  induction l as [|s l IH]; simpl; auto.
  rewrite insertByFitness_length. auto.
Qed.

Lemma swarmNextPopulation_elites (targetPopSize : nat) (results : list scored)
    (rate : float) (c c' : N) (ranked : list scored) (pop : list (list float)) :
  swarmNextPopulation random Math_log Math_cos fuel targetPopSize results rate c
  = Ok (ranked, pop, c') ->
  ranked = sortByFitness results
  /\ exists children,
       pop = map genome (JS.slice0 ranked (eliteCount (List.length results))) ++ children.
Proof.
  unfold swarmNextPopulation. intros H.
  rewrite sortByFitness_length in H.
  destruct (sortByFitness results) as [|s0 rest] eqn:E; [discriminate|].
  inv_bind H. apply ret_Ok in H. destruct H as [H _].
  injection H as Hr Hp. subst ranked pop.
  split; [reflexivity|].
  apply breedNextGeneration_extends in H0. destruct H0 as (children & -> & _).
  exists children. reflexivity.
Qed.

Lemma evaluateAll_genomes (population : list (list float)) :
  forall (c c' : N) (results : list scored),
    evaluateAll random fuel population c = Ok (results, c') ->
    map genome results = population.
Proof.
  induction population as [|g rest IH]; intros c c' results H; simpl in H.
  - apply ret_Ok in H. destruct H as [-> _]. reflexivity.
  - inv_bind H. inv_bind H. apply ret_Ok in H. destruct H as [-> _].
    apply IH in H1. simpl. rewrite H1. f_equal.
    unfold evaluate in H0.
    destruct (Game.create random g c) as [game c2].
    destruct (Game.run random fuel game c2) as [[time c3]|]; [|discriminate].
    injection H0 as <- _. reflexivity.
Qed.

(** With the fuel of [MAX_STEPS] steps every genome gets its fitness. *)
Lemma evaluateAll_returns (population : list (list float)) :
  (MAX_STEPS <= fuel)%nat ->
  forall c, exists results c', evaluateAll random fuel population c = Ok (results, c').
Proof.
  intros Hfuel. induction population as [|g rest IH]; intros c; simpl.
  - unfold ret. eauto.
  - unfold bind at 1. unfold evaluate.
    destruct (RunFacts.run_time_bounded random g c fuel Hfuel) as (t & c1 & Hr & _).
    destruct (Game.create random g c) as [game cg]. simpl in Hr. rewrite Hr.
    destruct (IH c1) as (results & c' & Hrest).
    unfold bind. rewrite Hrest. unfold ret. eauto.
Qed.

Lemma generation_elites (population : list (list float)) (c c' : N)
    (ranked : list scored) (newPop : list (list float)) :
  generation random Math_log Math_cos fuel population c = Ok (ranked, newPop, c') ->
  exists results c1 children,
    evaluateAll random fuel population c = Ok (results, c1)
    /\ ranked = sortByFitness results
    /\ newPop = map genome (firstn 5 ranked) ++ children
    /\ List.length children = (POP_SIZE - List.length (firstn 5 ranked))%nat.
Proof.
  unfold generation. intros H. inv_bind H.
  destruct (sortByFitness a) as [|s0 rest] eqn:E; [discriminate|].
  inv_bind H. apply ret_Ok in H. destruct H as [H _].
  injection H as Hr Hp. subst ranked newPop.
  apply replacement_extends in H1. destruct H1 as (children & Hn & Hl).
  exists a, c0, children. rewrite E. auto.
Qed.

End WithRandom.
End ElitismFacts.


(* ===================================================================== *)
(** ** The ranking and the genome that [runGA] returns *)
(* ===================================================================== *)

Module RankingFacts.
Local Open Scope float_scope.
Import Notions.
Import GA ElitismFacts.

Lemma insertByFitness_In (s r : scored) (l : list scored) :
  In r (insertByFitness s l) -> r = s \/ In r l.
Proof.
  induction l as [|s' l IH]; simpl.
  - intros [H|[]]; auto.
  - destruct (fitness s <? fitness s'); simpl.
    + intros [H|H]; auto. apply IH in H. tauto.
    + intros [H|[H|H]]; auto.
Qed.

Lemma sortByFitness_In (r : scored) (l : list scored) :
  In r (sortByFitness l) -> In r l.
Proof.
  induction l as [|s l IH]; simpl; auto.
  intros H. apply insertByFitness_In in H. destruct H; auto.
Qed.

Lemma insertByFitness_tops (s : scored) (l : list scored) :
  is_nan (fitness s) = false -> numbers l ->
  match l with h :: _ => tops h l | [] => True end ->
  match insertByFitness s l with h :: t => tops h (h :: t) | [] => True end.
Proof.
  intros Hs Hl Ht. destruct l as [|h t]; simpl.
  - constructor; [apply FloatFacts.ltb_irrefl | constructor].
  - destruct (fitness s <? fitness h) eqn:E.
    + unfold tops. rewrite Forall_forall. intros r [<-|Hr].
      * apply FloatFacts.ltb_irrefl.
      * apply insertByFitness_In in Hr. destruct Hr as [->|Hr].
        -- apply FloatFacts.ltb_asym. exact E.
        -- unfold tops in Ht. rewrite Forall_forall in Ht. apply Ht. right. exact Hr.
    + unfold tops. constructor; [apply FloatFacts.ltb_irrefl|].
      rewrite Forall_forall. intros r Hr.
      destruct (fitness s <? fitness r) eqn:E'; auto.
      unfold tops in Ht. rewrite Forall_forall in Ht. specialize (Ht r Hr).
      unfold numbers in Hl. rewrite Forall_forall in Hl.
      assert (Hle : (fitness r <=? fitness h) = true).
      { apply FloatFacts.not_ltb_leb; auto.
        - apply Hl. left. reflexivity. }
      rewrite (FloatFacts.ltb_leb_trans _ _ _ E' Hle) in E. discriminate.
Qed.

Lemma sortByFitness_numbers (l : list scored) :
  numbers l -> numbers (sortByFitness l).
Proof.
  unfold numbers. rewrite !Forall_forall. intros H r Hr.
  apply H, sortByFitness_In, Hr.
Qed.

(** The head of the ranking has a fitness that no record exceeds. *)
Lemma sortByFitness_tops (l : list scored) :
  numbers l ->
  match sortByFitness l with h :: t => tops h (h :: t) | [] => True end.
Proof.
  induction l as [|s l IH]; intros Hn; simpl; auto.
  inversion Hn as [|? ? Hs Hl]; subst.
  apply insertByFitness_tops; auto.
  - apply sortByFitness_numbers, Hl.
  - specialize (IH Hl). destruct (sortByFitness l); auto.
Qed.

Section WithRandom.

Variable random : N -> float.
Variables Math_log Math_cos : float -> float.
Variable fuel : nat.

Lemma evaluateAll_numbers (population : list (list float)) :
  forall (c c' : N) (results : list scored),
    evaluateAll random fuel population c = Ok (results, c') -> numbers results.
Proof.
  induction population as [|g rest IH]; intros c c' results H; simpl in H.
  - apply ret_Ok in H. destruct H as [-> _]. constructor.
  - bind_inv H as s1 c1 Hev. bind_inv H as ss c2 Hrest.
    apply ret_Ok in H. destruct H as [-> _].
    constructor; [|eapply IH; eassumption].
    unfold evaluate in Hev.
    pose proof (RunFacts.run_fitness_clock random fuel g c) as Hc.
    destruct (Game.create random g c) as [game cg]. simpl in Hc.
    destruct (Game.run random fuel game cg) as [[time ct]|]; [|discriminate].
    injection Hev as <- _. simpl.
    specialize (Hc time ct eq_refl).
    pose proof RunFacts.clock_values_numbers as Hn.
    rewrite forallb_forall in Hn. apply Hn in Hc.
    destruct (is_nan time); [discriminate | reflexivity].
Qed.

(** The last round of the loop over the generations. *)
Lemma generations_last (n : nat) :
  forall (population : list (list float)) (hist : list float) (c c' : N)
         (final : list (list float)) (hist' : list float),
    generations random Math_log Math_cos fuel (S n) population hist c
    = Ok (final, hist', c') ->
    exists (last : list (list float)) (h1 : list float) (c1 : N) (ranked : list scored),
      generations random Math_log Math_cos fuel n population hist c = Ok (last, h1, c1)
      /\ generation random Math_log Math_cos fuel last c1 = Ok (ranked, final, c').
Proof.
  induction n as [|n IH]; intros population hist c c' final hist' H.
  - simpl in H. bind_inv H as rp cr Hgen. apply ret_Ok in H. destruct H as [H ->].
    destruct rp as [ranked newPop]. simpl in H. injection H as -> _.
    exists population, hist, c, ranked. split; [reflexivity | exact Hgen].
  - change (generations random Math_log Math_cos fuel (S (S n)) population hist c)
      with (bind (generation random Math_log Math_cos fuel population)
                 (fun rp => generations random Math_log Math_cos fuel (S n) (snd rp)
                    (hist ++ [match fst rp with s :: _ => fitness s | [] => nan end])) c)
      in H.
    bind_inv H as rp cr Hgen. apply IH in H.
    destruct H as (last & h1 & c1 & ranked & Hg & Hl).
    exists last, h1, c1, ranked. split; [|exact Hl].
    change (generations random Math_log Math_cos fuel (S n) population hist c)
      with (bind (generation random Math_log Math_cos fuel population)
                 (fun rp => generations random Math_log Math_cos fuel n (snd rp)
                    (hist ++ [match fst rp with s :: _ => fitness s | [] => nan end])) c).
    unfold bind at 1. rewrite Hgen. exact Hg.
Qed.

End WithRandom.

(** What [runGA] returns, when it returns: the first entry of the
    population produced by the last of the 100 replacements, which is the
    genome of the record ranked first in the last generation evaluated. *)
Lemma runGA_result
    (random : N -> float) (Math_log Math_cos : float -> float) (fuel : nat)
    (c c' : N) (best : option (list float)) :
  runGA random Math_log Math_cos fuel c = Ok (best, c') ->
  exists (initial last final : list (list float)) (h1 : list float) (c0 c1 c2 : N)
         (results ranked : list scored) (top : scored),
    initialPopulation random POP_SIZE c = Ok (initial, c0)
    /\ generations random Math_log Math_cos fuel 99 initial [] c0 = Ok (last, h1, c1)
    /\ evaluateAll random fuel last c1 = Ok (results, c2)
    /\ ranked = sortByFitness results
    /\ replacement random Math_log Math_cos fuel ranked c2 = Ok (final, c')
    /\ hd_error ranked = Some top
    /\ tops top ranked
    /\ In top results
    /\ best = Some (genome top)
    /\ nth_error final 0 = Some (genome top).
Proof.
  unfold runGA. intros H.
  bind_inv H as initial c0 Hinit. bind_inv H as ph cg Hgen.
  apply ret_Ok in H. destruct H as [-> ->].
  destruct ph as [final hist']. simpl.
  change GENERATIONS with (S 99) in Hgen.
  apply generations_last in Hgen.
  destruct Hgen as (last & h1 & c1 & ranked & Hg & Hl).
  pose proof Hl as Hl'.
  unfold generation in Hl'. bind_inv Hl' as results c2 Hev.
  pose proof (evaluateAll_numbers _ _ _ _ _ _ Hev) as Hnum.
  pose proof (sortByFitness_tops results Hnum) as Htop.
  destruct (sortByFitness results) as [|top rest] eqn:E; [discriminate|].
  bind_inv Hl' as newPop c3 Hrep. apply ret_Ok in Hl'. destruct Hl' as [Hq Hc].
  injection Hq as Hr Hf. subst ranked newPop c3.
  destruct (replacement_extends _ _ _ _ _ _ _ _ Hrep) as (children & Hn & _).
  exists initial, last, final, h1, c0, c1, c2, results, (top :: rest), top.
  repeat match goal with |- _ /\ _ => split end; auto.
  - apply sortByFitness_In. rewrite E. left. reflexivity.
  - rewrite Hn. reflexivity.
  - rewrite Hn. reflexivity.
Qed.

End RankingFacts.

(* ===================================================================== *)
(** ** Mutation *)
(* ===================================================================== *)

Module MutationFacts.
Local Open Scope float_scope.
Import Notions.
Import GA ElitismFacts.

Lemma all_within_finite (genes : list float) : all_within genes -> all_finite genes.
Proof.
  unfold all_within, all_finite. apply Forall_impl.
  intros g. apply FloatFacts.within_finite.
Qed.

Section WithRandom.

Variable random : N -> float.
Variables Math_log Math_cos : float -> float.
Variable fuel : nat.

Lemma Math_random_Ok (c : N) (r : float) (c' : N) :
  Math_random random c = Ok (r, c') -> r = random c /\ c' = N.succ c.
Proof. unfold Math_random. intros H. injection H as <- <-. auto. Qed.

Lemma draw_nonzero_spec (n : nat) :
  forall (c : N) (u : float) (c' : N),
    draw_nonzero random n c = Ok (u, c') ->
    (u =? 0) = false /\ exists k, u = random k.
Proof.
  induction n as [|n IH]; intros c u c' H; simpl in H; [discriminate|].
  bind_inv H as r c1 Hr. apply Math_random_Ok in Hr. destruct Hr as [-> ->].
  destruct (random c =? 0) eqn:E.
  - eapply IH; eassumption.
  - apply ret_Ok in H. destruct H as [-> _]. eauto.
Qed.

Lemma randn_spec (c : N) (n : float) (c' : N) :
  randn random Math_log Math_cos fuel c = Ok (n, c') ->
  exists u v,
    ((u =? 0) = false /\ exists k, u = random k)
    /\ ((v =? 0) = false /\ exists k, v = random k)
    /\ n = sqrt (-2 * Math_log u) * Math_cos (2 * Math_PI * v).
Proof.
  unfold randn. intros H.
  bind_inv H as u c1 Hu. bind_inv H as v c2 Hv.
  apply ret_Ok in H. destruct H as [-> _].
  exists u, v. split; [|split; [|reflexivity]];
    eapply draw_nonzero_spec; eassumption.
Qed.

(** The rule of [mutateGenome] for the gene at the head. *)
Lemma mutateGenes_head (g : float) (rest : list float) (rate : float) (c c' : N)
    (child : list float) :
  mutateGenome random Math_log Math_cos fuel (g :: rest) rate c = Ok (child, c') ->
  exists g' rest' c1,
    child = g' :: rest'
    /\ mutateGenome random Math_log Math_cos fuel rest rate c1 = Ok (rest', c')
    /\ (if random c <? rate
        then exists n, randn random Math_log Math_cos fuel (N.succ c) = Ok (n, c1)
                       /\ g' = clamp (g + n * 0.2)
        else g' = g /\ c1 = N.succ c).
Proof.
  unfold mutateGenome. simpl. intros H.
  bind_inv H as r c0 Hr. apply Math_random_Ok in Hr. destruct Hr as [-> ->].
  bind_inv H as g' c1 Hg. bind_inv H as rest' c2 Hrest.
  apply ret_Ok in H. destruct H as [-> ->].
  exists g', rest', c1. split; [reflexivity|]. split; [exact Hrest|].
  destruct (random c <? rate).
  - bind_inv Hg as n c3 Hn. apply ret_Ok in Hg. destruct Hg as [-> ->]. eauto.
  - apply ret_Ok in Hg. destruct Hg as [-> ->]. auto.
Qed.

(** With a rate of 0 no draw is below the rate: the child is the parent. *)
Lemma mutateGenes_rate_0 (genes : list float) :
  (forall k, (0 <=? random k) = true) ->
  forall c,
    mutateGenes random Math_log Math_cos fuel genes 0 c
    = Ok (genes, (c + N.of_nat (List.length genes))%N).
Proof.
  intros Hpos. induction genes as [|g rest IH]; intros c; simpl mutateGenes.
  - unfold ret. simpl. rewrite N.add_0_r. reflexivity.
  - unfold bind at 1. unfold Math_random at 1.
    rewrite (FloatFacts.leb_not_ltb _ _ (Hpos c)).
    unfold bind at 1. unfold ret at 1.
    unfold bind at 1. rewrite IH. unfold ret.
    f_equal. f_equal. simpl List.length. lia.
Qed.

Lemma offspring_spec (parent : list float) (s1 s2 sb : float) (c c' : N)
    (child : list float) :
  offspring random Math_log Math_cos fuel parent s1 s2 sb c = Ok (child, c') ->
  exists n1 n2 n3 c1 c2,
    randn random Math_log Math_cos fuel c = Ok (n1, c1)
    /\ randn random Math_log Math_cos fuel c1 = Ok (n2, c2)
    /\ randn random Math_log Math_cos fuel c2 = Ok (n3, c')
    /\ child = [clamp (JS.num_at parent 0 + n1 * s1 * MUTATION_RATE);
                clamp (JS.num_at parent 1 + n2 * s2 * MUTATION_RATE);
                clamp (JS.num_at parent 2 + n3 * sb * MUTATION_RATE)].
Proof.
  unfold offspring. intros H.
  bind_inv H as n1 c1 H1. bind_inv H as n2 c2 H2. bind_inv H as n3 c3 H3.
  apply ret_Ok in H. destruct H as [-> ->].
  exists n1, n2, n3, c1, c2. auto.
Qed.

(** *** Returning a child *)

(** [Math.random] never returns 0: each loop of [randn] runs once. *)
Section NeverZero.

Hypothesis random_nonzero : forall k, (random k =? 0) = false.
Hypothesis fuel_positive : (1 <= fuel)%nat.

Lemma draw_nonzero_returns (c : N) :
  draw_nonzero random fuel c = Ok (random c, N.succ c).
Proof.
  destruct fuel as [|n]; [lia|]. simpl.
  unfold bind, Math_random. rewrite random_nonzero. reflexivity.
Qed.

Lemma randn_returns (c : N) :
  exists n, randn random Math_log Math_cos fuel c = Ok (n, N.succ (N.succ c)).
Proof.
  unfold randn, bind. rewrite !draw_nonzero_returns. unfold ret. eauto.
Qed.

Lemma mutateGenes_returns (genes : list float) (rate : float) :
  forall c, exists child c',
    mutateGenes random Math_log Math_cos fuel genes rate c = Ok (child, c').
Proof.
  induction genes as [|g rest IH]; intros c; simpl.
  - unfold ret. eauto.
  - unfold bind at 1. unfold Math_random at 1.
    destruct (random c <? rate).
    + destruct (randn_returns (N.succ c)) as [n Hn].
      unfold bind at 1. unfold bind at 1. rewrite Hn. unfold ret at 1.
      destruct (IH (N.succ (N.succ (N.succ c)))) as (child & c' & Hc).
      unfold bind. rewrite Hc. unfold ret. eauto.
    + unfold bind at 1. unfold ret at 1.
      destruct (IH (N.succ c)) as (child & c' & Hc).
      unfold bind. rewrite Hc. unfold ret. eauto.
Qed.

Lemma offspring_returns (parent : list float) (s1 s2 sb : float) (c : N) :
  exists child c',
    offspring random Math_log Math_cos fuel parent s1 s2 sb c = Ok (child, c').
Proof.
  unfold offspring.
  destruct (randn_returns c) as [n1 H1].
  destruct (randn_returns (N.succ (N.succ c))) as [n2 H2].
  destruct (randn_returns (N.succ (N.succ (N.succ (N.succ c))))) as [n3 H3].
  unfold bind. rewrite H1, H2, H3. unfold ret. eauto.
Qed.

End NeverZero.

(** *** Range *)

(** Every call of [Math.random] returns a number of [0, 1). *)
Hypothesis random_unit : forall k, (0 <=? random k) && (random k <? 1) = true.

(** The Box-Muller formula gives a finite number on draws strictly between
    0 and 1. *)
Hypothesis gauss_finite : forall u v,
  (0 <? u) = true -> (u <? 1) = true -> (0 <? v) = true -> (v <? 1) = true ->
  is_finite (sqrt (-2 * Math_log u) * Math_cos (2 * Math_PI * v)) = true.

Lemma randn_finite (c : N) (n : float) (c' : N) :
  randn random Math_log Math_cos fuel c = Ok (n, c') -> is_finite n = true.
Proof.
  intros H. apply randn_spec in H.
  destruct H as (u & v & (Hu & ku & ->) & (Hv & kv & ->) & ->).
  destruct (FloatFacts.nonzero_unit _ (random_unit ku) Hu).
  destruct (FloatFacts.nonzero_unit _ (random_unit kv) Hv).
  apply gauss_finite; assumption.
Qed.

Lemma perturbed_within (g n : float) :
  is_finite g = true -> is_finite n = true ->
  within (clamp (g + n * 0.2)) = true.
Proof.
  intros Hg Hn. apply FloatFacts.clamp_within.
  apply FloatFacts.add_finite_not_nan; [exact Hg|].
  apply FloatFacts.mul_finite_not_nan; [exact Hn | reflexivity].
Qed.

Lemma scaled_within (g n s : float) :
  is_finite g = true -> is_finite n = true -> is_finite s = true ->
  within (clamp (g + n * s * MUTATION_RATE)) = true.
Proof.
  intros Hg Hn Hs. apply FloatFacts.clamp_within.
  apply FloatFacts.add_finite_not_nan; [exact Hg|].
  apply FloatFacts.mul_rate_not_nan.
  apply FloatFacts.mul_finite_not_nan; assumption.
Qed.

Lemma mutateGenes_range (genes : list float) (rate : float) :
  forall (c c' : N) (child : list float),
    mutateGenes random Math_log Math_cos fuel genes rate c = Ok (child, c') ->
    all_finite genes ->
    Forall2 (fun g g' => g' = g \/ within g' = true) genes child.
Proof.
  induction genes as [|g rest IH]; intros c c' child H Hfin.
  - simpl in H. apply ret_Ok in H. destruct H as [-> _]. constructor.
  - inversion Hfin as [|? ? Hg Hrest]; subst.
    apply mutateGenes_head in H.
    destruct H as (g' & rest' & c1 & -> & Hr & Hd).
    constructor; [|eapply IH; eassumption].
    destruct (random c <? rate).
    + destruct Hd as (n & Hn & ->). right.
      apply perturbed_within; [exact Hg|]. eapply randn_finite; eassumption.
    + destruct Hd as [-> _]. left. reflexivity.
Qed.

Lemma mutateGenes_within (genes : list float) (rate : float) (c c' : N)
    (child : list float) :
  mutateGenes random Math_log Math_cos fuel genes rate c = Ok (child, c') ->
  all_within genes -> all_within child.
Proof.
  intros H Hw.
  pose proof (mutateGenes_range genes rate c c' child H (all_within_finite _ Hw)) as HF.
  unfold all_within in *. clear H.
  induction HF as [|g g' genes child Hg _ IH]; [constructor|].
  inversion Hw; subst. constructor; [|apply IH; assumption].
  destruct Hg as [->|Hg]; assumption.
Qed.

Lemma offspring_within (parent : list float) (s1 s2 sb : float) (c c' : N)
    (child : list float) :
  offspring random Math_log Math_cos fuel parent s1 s2 sb c = Ok (child, c') ->
  is_finite (JS.num_at parent 0) = true ->
  is_finite (JS.num_at parent 1) = true ->
  is_finite (JS.num_at parent 2) = true ->
  is_finite s1 = true -> is_finite s2 = true -> is_finite sb = true ->
  all_within child.
Proof.
  intros H P0 P1 P2 S1 S2 S3. apply offspring_spec in H.
  destruct H as (n1 & n2 & n3 & c1 & c2 & H1 & H2 & H3 & ->).
  apply randn_finite in H1, H2, H3.
  repeat constructor; apply scaled_within; assumption.
Qed.

End WithRandom.
End MutationFacts.


(* ===================================================================== *)
(** ** The training run *)
(* ===================================================================== *)

Module TrainingFacts.
Local Open Scope float_scope.
Import Notions.
Import GA ElitismFacts RankingFacts.

(** *** Breeding returns *)

Section Breeding.

Variable random : N -> float.
Variables Math_log Math_cos : float -> float.
Variable fuel : nat.

Hypothesis random_unit : forall k, (0 <? random k) && (random k <? 1) = true.
Hypothesis fuel_positive : (1 <= fuel)%nat.

Lemma random_never_zero (k : N) : (random k =? 0) = false.
Proof.
  destruct (andb_prop _ _ (random_unit k)) as [H0 _].
  destruct (random k =? 0) eqn:E; [|reflexivity].
  apply FloatFacts.eqb_cmp in E. apply FloatFacts.ltb_cmp in H0.
  rewrite (FloatFacts.cmp_antisym 0 (random k)), H0 in E. discriminate E.
Qed.

Lemma random_picks_index (k : N) (n : nat) :
  (1 <= n)%nat -> (Z.of_nat n < 2 ^ 53)%Z -> picks_index (random k) n.
Proof.
  destruct (andb_prop _ _ (random_unit k)) as [H0 H1].
  apply Rounding.unit_picks_index; assumption.
Qed.

Lemma pickParent_returns (elites : list scored) (c : N) :
  (1 <= List.length elites)%nat -> (Z.of_nat (List.length elites) < 2 ^ 53)%Z ->
  exists p, pickParent random elites (JS.of_nat (List.length elites)) c = Ok (p, N.succ c).
Proof.
  intros Hlen Hb. unfold pickParent, bind, Math_random.
  destruct (random_picks_index c (List.length elites) Hlen Hb) as (i & Hi & Hint).
  unfold JS.index. rewrite Hint.
  destruct (Z.ltb_spec (Z.of_nat i) 0) as [Hneg|_]; [lia|].
  rewrite Nat2Z.id.
  destruct (nth_error elites i) as [e|] eqn:E.
  - unfold ret. eauto.
  - apply nth_error_None in E. lia.
Qed.

Lemma fillOffspring_returns (elites : list scored) (rate : float) (missing : nat) :
  (1 <= List.length elites)%nat -> (Z.of_nat (List.length elites) < 2 ^ 53)%Z ->
  forall (acc : list (list float)) (c : N),
    exists pop c',
      fillOffspring random Math_log Math_cos fuel missing elites rate acc c = Ok (pop, c').
Proof.
  intros Hlen Hb. induction missing as [|missing IH]; intros acc c; simpl.
  - unfold ret. eauto.
  - destruct (pickParent_returns elites c Hlen Hb) as (p & Hp).
    unfold bind at 1. rewrite Hp.
    destruct (MutationFacts.mutateGenes_returns random Math_log Math_cos fuel
                random_never_zero fuel_positive p rate (N.succ c)) as (child & c1 & Hc).
    unfold bind at 1. unfold mutateGenome. rewrite Hc.
    apply IH.
Qed.

Lemma slice0_length {A : Type} (l : list A) (k : float) :
  (List.length (JS.slice0 l k) <= List.length l)%nat.
Proof.
  unfold JS.slice0.
  destruct (Prim2SF k) as [s|s| |s m e]; simpl; try lia.
  - destruct s; simpl; lia.
  - destruct s; rewrite length_firstn; lia.
Qed.

Lemma swarmNextPopulation_returns (targetPopSize : nat) (results : list scored)
    (rate : float) (c : N) :
  (Z.of_nat (List.length results) < 2 ^ 53)%Z ->
  (1 <= List.length (JS.slice0 (sortByFitness results)
                               (eliteCount (List.length results))))%nat ->
  exists ranked pop c',
    swarmNextPopulation random Math_log Math_cos fuel targetPopSize results rate c
    = Ok (ranked, pop, c').
Proof.
  intros Hb Hel. unfold swarmNextPopulation.
  pose proof (sortByFitness_length results) as Hs.
  destruct (sortByFitness results) as [|s0 rest] eqn:E.
  - exfalso. pose proof (slice0_length (@nil scored) (eliteCount (List.length results))).
    simpl in *. lia.
  - rewrite Hs.
    set (elites := JS.slice0 (s0 :: rest) (eliteCount (List.length results))) in *.
    pose proof (slice0_length (s0 :: rest) (eliteCount (List.length results))) as Hle.
    fold elites in Hle. rewrite Hs in Hle.
    destruct (fillOffspring_returns elites rate
                (targetPopSize - List.length (map genome elites))
                Hel ltac:(lia) (map genome elites) c) as (pop & c' & Hf).
    unfold bind, breedNextGeneration. rewrite Hf. unfold ret. eauto.
Qed.

Lemma fillNewPop_returns (elites : list scored) (s1 s2 sb : float) (missing : nat) :
  List.length elites = 5%nat ->
  forall (acc : list (list float)) (c : N),
    exists pop c',
      fillNewPop random Math_log Math_cos fuel missing elites 5 s1 s2 sb acc c
      = Ok (pop, c').
Proof.
  intros Hlen. induction missing as [|missing IH]; intros acc c; simpl.
  - unfold ret. eauto.
  - destruct (pickParent_returns elites c) as (p & Hp).
    { rewrite Hlen. lia. }
    { rewrite Hlen. reflexivity. }
    rewrite Hlen in Hp. change (JS.of_nat 5) with 5 in Hp.
    unfold bind at 1. rewrite Hp.
    destruct (MutationFacts.offspring_returns random Math_log Math_cos fuel
                random_never_zero fuel_positive p s1 s2 sb (N.succ c)) as (child & c1 & Hc).
    unfold bind at 1. rewrite Hc.
    apply IH.
Qed.

Lemma replacement_returns (ranked : list scored) (c : N) :
  (5 <= List.length ranked)%nat ->
  exists newPop c',
    replacement random Math_log Math_cos fuel ranked c = Ok (newPop, c')
    /\ List.length newPop = POP_SIZE.
Proof.
  intros Hlen.
  assert (H5 : List.length (firstn 5 ranked) = 5%nat) by (apply firstn_length_le; exact Hlen).
  unfold replacement. rewrite runGA_elites.
  change (JS.Math_floor (JS.of_nat POP_SIZE * ELITE_FRACTION)) with 5.
  match goal with
  | |- context [fillNewPop _ _ _ _ ?m ?el _ ?a ?b ?d ?acc c] =>
      destruct (fillNewPop_returns el a b d m H5 acc c) as (pop & c' & Hf)
  end.
  exists pop, c'. split; [exact Hf|].
  apply fillNewPop_extends in Hf. destruct Hf as (children & -> & Hc).
  rewrite length_app, Hc, length_map, H5. reflexivity.
Qed.

End Breeding.

(** *** The training run returns *)

Section Returns.

Variable random : N -> float.
Variables Math_log Math_cos : float -> float.
Variable fuel : nat.

Hypothesis random_unit : forall k, (0 <? random k) && (random k <? 1) = true.
Hypothesis enough_fuel : (MAX_STEPS <= fuel)%nat.

Lemma enough_fuel_positive : (1 <= fuel)%nat.
Proof. unfold MAX_STEPS in enough_fuel. lia. Qed.

Lemma evaluateAll_length (population : list (list float)) (c c' : N)
    (results : list scored) :
  evaluateAll random fuel population c = Ok (results, c') ->
  List.length results = List.length population.
Proof.
  intros H. apply evaluateAll_genomes in H. rewrite <- H. symmetry. apply length_map.
Qed.

Lemma generation_returns (population : list (list float)) (c : N) :
  List.length population = POP_SIZE ->
  exists ranked newPop c',
    generation random Math_log Math_cos fuel population c = Ok (ranked, newPop, c')
    /\ List.length newPop = POP_SIZE.
Proof.
  intros Hlen. unfold generation.
  destruct (evaluateAll_returns random fuel population enough_fuel c) as (results & c1 & He).
  unfold bind at 1. rewrite He.
  pose proof (evaluateAll_length _ _ _ _ He) as Hl.
  assert (Hs : List.length (sortByFitness results) = POP_SIZE)
    by (rewrite sortByFitness_length; congruence).
  destruct (replacement_returns random Math_log Math_cos fuel random_unit
              enough_fuel_positive (sortByFitness results) c1)
    as (newPop & c' & Hr & Hn).
  { rewrite Hs. unfold POP_SIZE. lia. }
  destruct (sortByFitness results) as [|s0 rest] eqn:E; [discriminate|].
  unfold bind. rewrite Hr. unfold ret. eauto.
Qed.

Lemma generations_returns (n : nat) :
  forall (population : list (list float)) (hist : list float) (c : N),
    List.length population = POP_SIZE ->
    exists final hist' c',
      generations random Math_log Math_cos fuel n population hist c
      = Ok (final, hist', c').
Proof.
  induction n as [|n IH]; intros population hist c Hlen.
  - simpl. unfold ret. eauto.
  - destruct (generation_returns population c Hlen) as (ranked & newPop & c1 & Hg & Hn).
    change (generations random Math_log Math_cos fuel (S n) population hist c)
      with (bind (generation random Math_log Math_cos fuel population)
                 (fun rp => generations random Math_log Math_cos fuel n (snd rp)
                    (hist ++ [match fst rp with s :: _ => fitness s | [] => nan end])) c).
    unfold bind. rewrite Hg. simpl snd. apply IH. exact Hn.
Qed.

Lemma initialPopulation_returns (n : nat) :
  forall c, exists pop c',
    initialPopulation random n c = Ok (pop, c') /\ List.length pop = n.
Proof.
  induction n as [|n IH]; intros c; simpl.
  - unfold ret. eauto.
  - unfold bind at 1. unfold randGenome, bind, Math_random, ret.
    destruct (IH (N.succ (N.succ (N.succ c)))) as (pop & c' & Hp & Hl).
    rewrite Hp. eexists. eexists. split; [reflexivity|]. simpl. rewrite Hl. reflexivity.
Qed.

Lemma runGA_returns (c : N) :
  exists best c', runGA random Math_log Math_cos fuel c = Ok (best, c').
Proof.
  unfold runGA.
  destruct (initialPopulation_returns POP_SIZE c) as (pop & c0 & Hp & Hl).
  unfold bind at 1. rewrite Hp.
  destruct (generations_returns GENERATIONS pop [] c0 Hl) as (final & hist & c' & Hg).
  unfold bind. rewrite Hg. unfold ret. eauto.
Qed.

End Returns.

End TrainingFacts.

(* ===================================================================== *)
(** ** Elitism *)
(* ===================================================================== *)

Module ElitismClaims.
Local Open Scope float_scope.
Import Notions.
Import GA ElitismFacts TrainingFacts.

(** With 15 individuals the specification asks for ceil(1.5) = 2 elites;
    the trainer keeps floor(1.5) = 1.  The second genome of the next
    population is a child of the best record, not the genome of the record
    ranked second. *)
Lemma C1_counterexample :
  swarmNextPopulation half log_const cos_const 1 15 results15 0 0%N
  = Ok (ranked15, pop15, 56%N)
  /\ eliteCount_spec 15 = 2
  /\ eliteCount 15 = 1
  /\ map genome (JS.slice0 ranked15 (eliteCount_spec 15)) = [[14; 0; 0]; [13; 0; 0]]
  /\ JS.slice0 pop15 (eliteCount_spec 15) = [[14; 0; 0]; [14; 0; 0]].
Proof. vm_compute. repeat split; reflexivity. Qed.

(** C1 (amended).  The next population begins with verbatim copies of the
    genomes of the top [floor(N * 0.1)] records of the ranking: in the
    visual trainer N is the number of records of the generation, in [runGA]
    it is [POP_SIZE = 50], which makes 5 elites.  Both trainers do produce
    that population when [Math.random] returns numbers strictly between 0
    and 1: the visual trainer whenever it has at least one elite, [runGA]
    for every population of [POP_SIZE] genomes. *)
Theorem C1_elites_carried_over
    (random : N -> float) (Math_log Math_cos : float -> float) (fuel : nat) :
  (forall (targetPopSize : nat) (results : list scored) (rate : float) (c c' : N)
          (ranked : list scored) (pop : list (list float)),
      swarmNextPopulation random Math_log Math_cos fuel targetPopSize results rate c
      = Ok (ranked, pop, c') ->
      ranked = sortByFitness results
      /\ exists children,
           pop = map genome (JS.slice0 ranked (eliteCount (List.length results))) ++ children)
  /\
  (forall (population : list (list float)) (c c' : N)
          (ranked : list scored) (newPop : list (list float)),
      generation random Math_log Math_cos fuel population c = Ok (ranked, newPop, c') ->
      (exists results c1,
          evaluateAll random fuel population c = Ok (results, c1)
          /\ ranked = sortByFitness results)
      /\ exists children,
           newPop = map genome (JS.slice0 ranked
                                   (JS.Math_floor (JS.of_nat POP_SIZE * ELITE_FRACTION)))
                    ++ children)
  /\
  ((forall k, (0 <? random k) && (random k <? 1) = true) -> (1 <= fuel)%nat ->
   forall (targetPopSize : nat) (results : list scored) (rate : float) (c : N),
     (Z.of_nat (List.length results) < 2 ^ 53)%Z ->
     (1 <= List.length (JS.slice0 (sortByFitness results)
                                  (eliteCount (List.length results))))%nat ->
     exists ranked pop c',
       swarmNextPopulation random Math_log Math_cos fuel targetPopSize results rate c
       = Ok (ranked, pop, c'))
  /\
  ((forall k, (0 <? random k) && (random k <? 1) = true) -> (MAX_STEPS <= fuel)%nat ->
   forall (population : list (list float)) (c : N),
     List.length population = POP_SIZE ->
     exists ranked newPop c',
       generation random Math_log Math_cos fuel population c = Ok (ranked, newPop, c')
       /\ List.length newPop = POP_SIZE).
Proof.
  split; [|split; [|split]].
  - intros. eapply swarmNextPopulation_elites; eassumption.
  - intros population c c' ranked newPop H.
    apply generation_elites in H.
    destruct H as (results & c1 & children & He & Hr & Hn & _).
    split.
    + exists results, c1. split; assumption.
    + exists children. rewrite runGA_elites. exact Hn.
  - intros Hunit Hfuel targetPopSize results rate c Hb Hel.
    apply swarmNextPopulation_returns; assumption.
  - intros Hunit Hfuel population c Hlen.
    apply generation_returns; assumption.
Qed.

Lemma C1_elites_carried_over_witness :
  (ranked15 = sortByFitness results15
   /\ exists children,
        pop15 = map genome (JS.slice0 ranked15 (eliteCount (List.length results15))) ++ children)
  /\
  ((exists results c1,
       evaluateAll lcg 1801 (fst initial50) (snd initial50) = Ok (results, c1)
       /\ ranked50 = sortByFitness results)
   /\ exists children,
        pop50 = map genome (JS.slice0 ranked50
                                (JS.Math_floor (JS.of_nat POP_SIZE * ELITE_FRACTION)))
                 ++ children)
  /\
  (exists ranked pop c',
      swarmNextPopulation half log_const cos_const 1801 15 results15 0.5 0%N
      = Ok (ranked, pop, c'))
  /\
  (exists ranked newPop c',
      generation half log_const cos_const 1801 (fst initial50) (snd initial50)
      = Ok (ranked, newPop, c')
      /\ List.length newPop = POP_SIZE).
Proof.
  assert (U : forall k, (0 <? half k) && (half k <? 1) = true)
    by (intros k; reflexivity).
  destruct (C1_elites_carried_over half log_const cos_const 1801) as (_ & _ & R3 & R4).
  split; [|split; [|split]].
  - apply (proj1 (C1_elites_carried_over half log_const cos_const 1)
                 15%nat results15 0 0%N 56%N ranked15 pop15).
    vm_compute. reflexivity.
  - apply (proj1 (proj2 (C1_elites_carried_over lcg log_const cos_const 1801))
                 (fst initial50) (snd initial50) cursor50 ranked50 pop50).
    vm_compute. reflexivity.
  - apply (R3 U ltac:(unfold MAX_STEPS; lia) 15%nat results15 0.5 0%N).
    + reflexivity.
    + vm_compute. lia.
  - apply (R4 U (Nat.le_refl _) (fst initial50) (snd initial50)). reflexivity.
Defined.

End ElitismClaims.

(* ===================================================================== *)
(** ** Mutation *)
(* ===================================================================== *)

Module MutationClaims.
Local Open Scope float_scope.
Import Notions.
Import GA ElitismFacts MutationFacts.
Import ElitismClaims.

(** In [runGA] no draw decides whether a gene is perturbed.  Here every
    draw of [Math.random] is 0.5, above the mutation rate 0.1, so the
    specification has every gene copied from the parent; the child of the parent
    [[1, 1, 1]] has every gene changed, to 1 + 1 * 1 * 0.1. *)
Lemma C2_counterexample :
  offspring half log_const cos_const 1 [1; 1; 1] 1 1 1 0%N
  = Ok ([1.1; 1.1; 1.1], 6%N)
  /\ forallb (fun k => negb (half k <? MUTATION_RATE)) [0; 1; 2; 3; 4; 5]%N = true
  /\ (1.1 =? 1) = false.
Proof. vm_compute. repeat split; reflexivity. Qed.

(** C2 (amended).  In the visual trainer ([mutateGenome]) mutation is
    decided gene by gene by a draw of [Math.random]: when the draw is below
    the mutation rate, Gaussian noise times 0.2 is added to the gene and
    the sum is clamped to [-2, 2]; otherwise the gene is copied unchanged;
    with a mutation rate of 0 the child is the parent, gene for gene.  In
    [runGA] there is no such draw: every gene of every child is the
    parent's gene plus Gaussian noise times the spread of the elites times
    [MUTATION_RATE], clamped to [-2, 2].  Both return a child whenever
    [Math.random] does not return 0. *)
Theorem C2_mutation_rule
    (random : N -> float) (Math_log Math_cos : float -> float) (fuel : nat) :
  (forall (g : float) (rest : list float) (rate : float) (c c' : N) (child : list float),
      mutateGenome random Math_log Math_cos fuel (g :: rest) rate c = Ok (child, c') ->
      exists g' rest' c1,
        child = g' :: rest'
        /\ mutateGenome random Math_log Math_cos fuel rest rate c1 = Ok (rest', c')
        /\ (if random c <? rate
            then exists n, randn random Math_log Math_cos fuel (N.succ c) = Ok (n, c1)
                           /\ g' = clamp (g + n * 0.2)
            else g' = g /\ c1 = N.succ c))
  /\
  (forall (genome : list float) (c : N),
      (forall k, (0 <=? random k) = true) ->
      mutateGenome random Math_log Math_cos fuel genome 0 c
      = Ok (genome, (c + N.of_nat (List.length genome))%N))
  /\
  (forall (parent : list float) (s1 s2 sb : float) (c c' : N) (child : list float),
      offspring random Math_log Math_cos fuel parent s1 s2 sb c = Ok (child, c') ->
      exists n1 n2 n3 c1 c2,
        randn random Math_log Math_cos fuel c = Ok (n1, c1)
        /\ randn random Math_log Math_cos fuel c1 = Ok (n2, c2)
        /\ randn random Math_log Math_cos fuel c2 = Ok (n3, c')
        /\ child = [clamp (JS.num_at parent 0 + n1 * s1 * MUTATION_RATE);
                    clamp (JS.num_at parent 1 + n2 * s2 * MUTATION_RATE);
                    clamp (JS.num_at parent 2 + n3 * sb * MUTATION_RATE)])
  /\
  ((forall k, (random k =? 0) = false) -> (1 <= fuel)%nat ->
   (forall (genome : list float) (rate : float) (c : N),
       exists child c',
         mutateGenome random Math_log Math_cos fuel genome rate c = Ok (child, c'))
   /\
   (forall (parent : list float) (s1 s2 sb : float) (c : N),
       exists child c',
         offspring random Math_log Math_cos fuel parent s1 s2 sb c = Ok (child, c'))).
Proof.
  split; [|split; [|split]].
  - intros. eapply mutateGenes_head; eassumption.
  - intros genome c Hpos. apply mutateGenes_rate_0. exact Hpos.
  - intros. eapply offspring_spec; eassumption.
  - intros Hnz Hfuel. split.
    + intros. apply mutateGenes_returns; assumption.
    + intros. apply offspring_returns; assumption.
Qed.

Lemma C2_mutation_rule_witness :
  (exists g' rest' c1,
      [1.2; 1.2; 1.2] = g' :: rest'
      /\ mutateGenome half log_const cos_const 1 [1; 1] 0.75 c1 = Ok (rest', 9%N)
      /\ (if half 0%N <? 0.75
          then exists n, randn half log_const cos_const 1 (N.succ 0) = Ok (n, c1)
                         /\ g' = clamp (1 + n * 0.2)
          else g' = 1 /\ c1 = N.succ 0))
  /\ mutateGenome half log_const cos_const 1 [1; 1; 1] 0 0%N
     = Ok ([1; 1; 1], (0 + N.of_nat (List.length [1; 1; 1]))%N)
  /\ (exists n1 n2 n3 c1 c2,
        randn half log_const cos_const 1 0%N = Ok (n1, c1)
        /\ randn half log_const cos_const 1 c1 = Ok (n2, c2)
        /\ randn half log_const cos_const 1 c2 = Ok (n3, 6%N)
        /\ [1.1; 1.1; 1.1]
           = [clamp (JS.num_at [1; 1; 1] 0 + n1 * 1 * MUTATION_RATE);
              clamp (JS.num_at [1; 1; 1] 1 + n2 * 1 * MUTATION_RATE);
              clamp (JS.num_at [1; 1; 1] 2 + n3 * 1 * MUTATION_RATE)])
  /\ (exists child c',
        mutateGenome half log_const cos_const 1 [1; 1; 1] 0.75 0%N = Ok (child, c')).
Proof.
  destruct (C2_mutation_rule half log_const cos_const 1) as (R1 & R2 & R3 & R4).
  split; [|split; [|split]].
  - apply (R1 1 [1; 1] 0.75 0%N 9%N [1.2; 1.2; 1.2]). vm_compute. reflexivity.
  - apply (R2 [1; 1; 1] 0%N). intros k. reflexivity.
  - apply (R3 [1; 1; 1] 1 1 1 0%N 6%N [1.1; 1.1; 1.1]). vm_compute. reflexivity.
  - apply R4; [intros k; reflexivity | lia].
Defined.

(** [mutateGenome] clamps a gene only when it perturbs it.  With a mutation
    rate of 0.5 and every draw equal to 0.5 no gene is perturbed, and the
    gene 5 of the input is a gene of the output. *)
Lemma C3_counterexample :
  mutateGenome half log_const cos_const 1 [5; 0; 0] 0.5 0%N
  = Ok ([5; 0; 0], 3%N)
  /\ within 5 = false
  /\ (0 <=? 0.5) && (0.5 <=? 1) = true.
Proof. vm_compute. repeat split; reflexivity. Qed.

(** C3 (amended).  [Math.random] returning numbers of [0, 1) and the
    Gaussian samples being finite numbers: every gene that [mutateGenome]
    perturbs lies within [-2, 2] and every other gene is the input gene,
    for any input genome of finite numbers and any mutation rate; so the
    output lies within [-2, 2] whenever the input does.  Every gene of a
    child built by [runGA] lies within [-2, 2], for any parent of three
    finite numbers, inside [-2, 2] or not, and any finite spreads.  Both
    operations return a child whenever [Math.random] does not return 0. *)
Theorem C3_mutation_range
    (random : N -> float) (Math_log Math_cos : float -> float) (fuel : nat)
    (random_unit : forall k, (0 <=? random k) && (random k <? 1) = true)
    (gauss_finite : forall u v,
        (0 <? u) = true -> (u <? 1) = true -> (0 <? v) = true -> (v <? 1) = true ->
        is_finite (sqrt (-2 * Math_log u) * Math_cos (2 * Math_PI * v)) = true) :
  (forall (genome : list float) (rate : float) (c c' : N) (child : list float),
      mutateGenome random Math_log Math_cos fuel genome rate c = Ok (child, c') ->
      all_finite genome ->
      Forall2 (fun g g' => g' = g \/ within g' = true) genome child)
  /\
  (forall (genome : list float) (rate : float) (c c' : N) (child : list float),
      mutateGenome random Math_log Math_cos fuel genome rate c = Ok (child, c') ->
      all_within genome -> all_within child)
  /\
  (forall (parent : list float) (s1 s2 sb : float) (c c' : N) (child : list float),
      offspring random Math_log Math_cos fuel parent s1 s2 sb c = Ok (child, c') ->
      is_finite (JS.num_at parent 0) = true ->
      is_finite (JS.num_at parent 1) = true ->
      is_finite (JS.num_at parent 2) = true ->
      is_finite s1 = true -> is_finite s2 = true -> is_finite sb = true ->
      all_within child)
  /\
  ((forall k, (random k =? 0) = false) -> (1 <= fuel)%nat ->
   (forall (genome : list float) (rate : float) (c : N),
       exists child c',
         mutateGenome random Math_log Math_cos fuel genome rate c = Ok (child, c'))
   /\
   (forall (parent : list float) (s1 s2 sb : float) (c : N),
       exists child c',
         offspring random Math_log Math_cos fuel parent s1 s2 sb c = Ok (child, c'))).
Proof.
  split; [|split; [|split]].
  - intros. eapply mutateGenes_range; eassumption.
  - intros. eapply mutateGenes_within; eassumption.
  - intros. eapply offspring_within; eassumption.
  - intros Hnz Hfuel. split.
    + intros. apply mutateGenes_returns; assumption.
    + intros. apply offspring_returns; assumption.
Qed.

Lemma C3_mutation_range_witness :
  Forall2 (fun g g' => g' = g \/ within g' = true) [5; 0; 0] [2; 0.2; 0.2]
  /\ all_within [1.2; 1.2; 1.2]
  /\ all_within [2; -2; 2]
  /\ (exists child c',
        mutateGenome half log_const cos_const 1 [5; 0; 0] 0.75 0%N = Ok (child, c')).
Proof.
  assert (U : forall k, (0 <=? half k) && (half k <? 1) = true)
    by (intros k; reflexivity).
  assert (G : forall u v,
             (0 <? u) = true -> (u <? 1) = true -> (0 <? v) = true -> (v <? 1) = true ->
             is_finite (sqrt (-2 * log_const u) * cos_const (2 * Math_PI * v)) = true)
    by (intros; reflexivity).
  destruct (C3_mutation_range half log_const cos_const 1 U G) as (R1 & R2 & R3 & R4).
  split; [|split; [|split]].
  - apply (R1 [5; 0; 0] 0.75 0%N 9%N [2; 0.2; 0.2]).
    + vm_compute. reflexivity.
    + repeat constructor.
  - apply (R2 [1; 1; 1] 0.75 0%N 9%N [1.2; 1.2; 1.2]).
    + vm_compute. reflexivity.
    + repeat constructor.
  - apply (R3 [5; -7; 100] 1 1 1 0%N 6%N [2; -2; 2]); try reflexivity.
  - apply R4; [intros k; reflexivity | lia].
Defined.

End MutationClaims.

(* ===================================================================== *)
(** ** The genome that training returns *)
(* ===================================================================== *)

Module TrainingClaims.
Local Open Scope float_scope.
Import Notions.
Import GA ElitismFacts RankingFacts TrainingFacts.

(** C6.  [Math.random] returning numbers strictly between 0 and 1: [runGA]
    returns, and the genome it returns is the first entry of the population
    produced by the last of the 100 replacements, which is, gene for gene,
    the genome of the record ranked first in the last generation that was
    evaluated: the evaluation results of the population left by the first
    99 rounds, ranked, have a first record whose fitness no other record
    exceeds, and its genome is the result.  The returned genome is not
    evaluated again. *)
Theorem C6_runGA_returns_top_elite
    (random : N -> float) (Math_log Math_cos : float -> float) (fuel : nat)
    (random_unit : forall k, (0 <? random k) && (random k <? 1) = true)
    (enough_fuel : (MAX_STEPS <= fuel)%nat)
    (c : N) :
  exists (initial last final : list (list float)) (h1 : list float) (c0 c1 c2 c' : N)
         (results ranked : list scored) (top : scored),
    initialPopulation random POP_SIZE c = Ok (initial, c0)
    /\ generations random Math_log Math_cos fuel 99 initial [] c0 = Ok (last, h1, c1)
    /\ evaluateAll random fuel last c1 = Ok (results, c2)
    /\ ranked = sortByFitness results
    /\ replacement random Math_log Math_cos fuel ranked c2 = Ok (final, c')
    /\ hd_error ranked = Some top
    /\ tops top ranked
    /\ In top results
    /\ nth_error final 0 = Some (genome top)
    /\ runGA random Math_log Math_cos fuel c = Ok (Some (genome top), c').
Proof.
  destruct (runGA_returns random Math_log Math_cos fuel
              random_unit enough_fuel c) as (best & c' & Hrun).
  destruct (runGA_result random Math_log Math_cos fuel c c' best Hrun)
    as (initial & last & final & h1 & c0 & c1 & c2 & results & ranked & top
        & Hi & Hg & He & Hr & Hp & Hh & Ht & Hin & Hb & Hn).
  exists initial, last, final, h1, c0, c1, c2, c', results, ranked, top.
  subst best.
  repeat match goal with |- _ /\ _ => split end; assumption.
Qed.

Lemma C6_runGA_returns_top_elite_witness :
  exists (initial last final : list (list float)) (h1 : list float) (c0 c1 c2 c' : N)
         (results ranked : list scored) (top : scored),
    initialPopulation half POP_SIZE 0%N = Ok (initial, c0)
    /\ generations half log_const cos_const 1801 99 initial [] c0 = Ok (last, h1, c1)
    /\ evaluateAll half 1801 last c1 = Ok (results, c2)
    /\ ranked = sortByFitness results
    /\ replacement half log_const cos_const 1801 ranked c2 = Ok (final, c')
    /\ hd_error ranked = Some top
    /\ tops top ranked
    /\ In top results
    /\ nth_error final 0 = Some (genome top)
    /\ runGA half log_const cos_const 1801 0%N = Ok (Some (genome top), c').
Proof.
  apply (C6_runGA_returns_top_elite half log_const cos_const 1801).
  - intros k. reflexivity.
  - apply Nat.le_refl.
Defined.

End TrainingClaims.

(* ===================================================================== *)
(** ** What a step keeps *)
(* ===================================================================== *)

Module StepFacts.
Local Open Scope float_scope.
Import Notions MoreNotions.

Lemma physics_height (dt canvasH : float) (p : Player.t) :
  Player.height (Game.physics dt canvasH p) = Player.height p.
Proof. destruct (GameFacts.physics_frame dt canvasH p) as (_ & _ & H). exact H. Qed.

Lemma physics_ground (dt canvasH : float) (p : Player.t) :
  (canvasH - Player.height p <? Player.y (Game.physics dt canvasH p)) = false
  /\ (Player.grounded (Game.physics dt canvasH p) = true ->
      Player.y (Game.physics dt canvasH p) = canvasH - Player.height p
      /\ Player.velocityY (Game.physics dt canvasH p) = 0).
Proof.
  unfold Game.physics.
  destruct (negb (Player.grounded p)); simpl;
    match goal with |- context [JS.geb ?a ?b] => destruct (JS.geb a b) eqn:E end;
    simpl; (split; [| try (intros; split; reflexivity); discriminate]);
    try apply FloatFacts.ltb_irrefl;
    unfold JS.geb in E;
    match goal with |- (?a <? ?b) = false =>
      destruct (a <? b) eqn:L; [|reflexivity];
      apply FloatFacts.ltb_leb in L; congruence
    end.
Qed.

(** X1.  After a step the player is never below the ground, and a player
    that is grounded stands exactly on the ground with no vertical
    velocity. *)
Theorem step_player_not_below_ground :
  forall (random : N -> float) (dt : float) (g : Game.t) (c : N),
    (groundY g <? Player.y (Game.player (fst (Game.step random dt g c)))) = false
    /\ (Player.grounded (Game.player (fst (Game.step random dt g c))) = true ->
        Player.y (Game.player (fst (Game.step random dt g c))) = groundY g
        /\ Player.velocityY (Game.player (fst (Game.step random dt g c))) = 0).
Proof.
  intros random dt g c. rewrite GameFacts.step_player.
  destruct (physics_ground dt (Game.canvasHeight g) (Game.player g)) as [Hb Hg].
  unfold Game.decide, groundY.
  destruct (_ && _) eqn:E; simpl.
  - split; [exact Hb | discriminate].
  - split; [exact Hb | exact Hg].
Qed.

(** X2.  A jump starts from the ground only: the step either leaves the
    player as the physics moved it, or the player stood on the ground, at
    rest, and leaves it with the velocity [jumpPower]; in the air the
    output of the policy changes nothing. *)
Theorem step_jumps_from_ground_only :
  forall (random : N -> float) (dt : float) (g : Game.t) (c : N),
    let q := Game.physics dt (Game.canvasHeight g) (Game.player g) in
    (Player.grounded q = false -> Game.player (fst (Game.step random dt g c)) = q)
    /\ (Game.player (fst (Game.step random dt g c)) = q
        \/ (Player.y q = groundY g /\ Player.velocityY q = 0
            /\ Player.grounded q = true
            /\ JS.gtb (Game.output g q) 0 = true
            /\ Game.player (fst (Game.step random dt g c)) = jumped q)).
Proof.
  intros random dt g c q. rewrite GameFacts.step_player. fold q.
  destruct (physics_ground dt (Game.canvasHeight g) (Game.player g)) as [_ Hg].
  fold q in Hg. unfold Game.decide.
  split.
  - intros ->. rewrite andb_false_r. reflexivity.
  - destruct (JS.gtb (Game.output g q) 0) eqn:Eo; simpl; [|left; reflexivity].
    destruct (Player.grounded q) eqn:Eg; [|left; reflexivity].
    right. destruct (Hg eq_refl) as [Hy Hv]. repeat split; assumption.
Qed.

Lemma step_gameOver_kept (random : N -> float) (dt : float) (g : Game.t) (c : N) :
  Game.gameOver g = true -> Game.gameOver (fst (Game.step random dt g c)) = true.
Proof.
  intros H. unfold Game.step.
  destruct (JS.geb _ _); simpl; rewrite H; destruct (existsb _ _); reflexivity.
Qed.

(** X3.  [step] does not look at [gameOver]: on a game that is over it
    still advances the clock by [dt], and the game stays over, however
    many steps are taken. *)
Theorem steps_after_game_over :
  forall (random : N -> float) (dt : float) (n : nat) (g : Game.t) (c : N),
    Game.gameOver g = true ->
    Game.gameOver (fst (steps random dt n g c)) = true
    /\ Game.totalTime (fst (Game.step random dt g c)) = Game.totalTime g + dt.
Proof.
  intros random dt n g c H. split; [|apply GameFacts.step_totalTime].
  revert g c H. induction n as [|n IH]; intros g c H; simpl; [exact H|].
  pose proof (step_gameOver_kept random dt g c H) as Hs.
  destruct (Game.step random dt g c) as [g1 c1]. simpl in Hs.
  apply IH. exact Hs.
Qed.

Lemma steps_after_game_over_witness :
  Game.gameOver (fst (steps half Game.FIXED_DT 5 lost 0%N)) = true
  /\ Game.totalTime (fst (Game.step half Game.FIXED_DT lost 0%N))
     = Game.totalTime lost + Game.FIXED_DT.
Proof.
  apply (steps_after_game_over half Game.FIXED_DT 5 lost 0%N). reflexivity.
Defined.

(** *** Moving and culling the obstacles *)

Lemma updateObstacles_filter (dt : float) (obs : list Obstacle.t) :
  Game.updateObstacles dt obs
  = filter (fun o => negb (Obstacle.isOffScreen o)) (map (Obstacle.update dt) obs).
Proof.
  unfold Game.updateObstacles.
  induction obs as [|o obs IH]; simpl; [reflexivity|].
  rewrite IH. destruct (Obstacle.isOffScreen (Obstacle.update dt o)); reflexivity.
Qed.

Lemma updateObstacles_app (dt : float) (l1 l2 : list Obstacle.t) :
  Game.updateObstacles dt (l1 ++ l2)
  = Game.updateObstacles dt l1 ++ Game.updateObstacles dt l2.
Proof.
  rewrite !updateObstacles_filter, map_app, filter_app. reflexivity.
Qed.

Lemma step_obstacles (random : N -> float) (dt : float) (g : Game.t) (c : N) :
  Game.obstacles (fst (Game.step random dt g c)) = Game.updateObstacles dt (due dt g).
Proof.
  unfold Game.step, due.
  destruct (JS.geb _ _); reflexivity.
Qed.

(** X4.  The obstacles after a step are the obstacles there were, followed
    by the new one when one was due, each moved once, without those that
    the move took off the screen, in their order: no obstacle of the list
    is off screen, and at most one was added. *)
Theorem step_culls_obstacles :
  forall (random : N -> float) (dt : float) (g : Game.t) (c : N),
    Game.obstacles (fst (Game.step random dt g c))
    = filter (fun o => negb (Obstacle.isOffScreen o)) (map (Obstacle.update dt) (due dt g))
    /\ Forall (fun o => Obstacle.isOffScreen o = false)
              (Game.obstacles (fst (Game.step random dt g c)))
    /\ (List.length (Game.obstacles (fst (Game.step random dt g c)))
        <= S (List.length (Game.obstacles g)))%nat.
Proof.
  intros random dt g c. rewrite step_obstacles, updateObstacles_filter.
  split; [reflexivity|]. split.
  - rewrite Forall_forall. intros o Ho. apply filter_In in Ho.
    destruct Ho as [_ Ho]. destruct (Obstacle.isOffScreen o); [discriminate|reflexivity].
  - eapply Nat.le_trans; [apply filter_length_le|].
    rewrite length_map. unfold due.
    destruct (JS.geb _ _); [rewrite length_app; simpl; lia | lia].
Qed.

Lemma firstn_prefix {A : Type} (pre l : list A) :
  firstn (List.length pre) (pre ++ l) = pre.
Proof. induction pre as [|x pre IH]; simpl; [reflexivity | rewrite IH; reflexivity]. Qed.

Lemma skipn_past {A : Type} (pre : list A) (x : A) (l : list A) :
  skipn (S (List.length pre)) (pre ++ x :: l) = l.
Proof. induction pre as [|y pre IH]; simpl; [reflexivity | exact IH]. Qed.

Lemma cull_loop_round (dt : float) (i : nat) (obs : list Obstacle.t) :
  Cull.loop dt (S i) obs
  = match nth_error obs i with
    | None => None
    | Some o =>
        Cull.loop dt i
          (if Obstacle.isOffScreen (Obstacle.update dt o)
           then firstn i (firstn i obs ++ Obstacle.update dt o :: skipn (S i) obs)
                ++ skipn (S i) (firstn i obs ++ Obstacle.update dt o :: skipn (S i) obs)
           else firstn i obs ++ Obstacle.update dt o :: skipn (S i) obs)
    end.
Proof. reflexivity. Qed.

(** The loop over the array, from a point where the rounds still to run
    are those of the first [length pre] elements. *)
Lemma cull_loop_spec (dt : float) (pre : list Obstacle.t) :
  forall post : list Obstacle.t,
    Cull.loop dt (List.length pre) (pre ++ post)
    = Some (Game.updateObstacles dt pre ++ post).
Proof.
  induction pre as [|o pre IH] using rev_ind; intros post; [reflexivity|].
  rewrite length_app. simpl List.length. rewrite Nat.add_1_r.
  rewrite <- app_assoc. simpl app.
  rewrite cull_loop_round.
  rewrite nth_error_app2 by lia. rewrite Nat.sub_diag. simpl nth_error.
  rewrite firstn_prefix, skipn_past.
  rewrite updateObstacles_app.
  unfold Game.updateObstacles at 2. simpl fold_right.
  destruct (Obstacle.isOffScreen (Obstacle.update dt o)).
  - rewrite firstn_prefix, skipn_past.
    rewrite IH, app_nil_r. reflexivity.
  - rewrite IH, <- app_assoc. reflexivity.
Qed.

(** X5.  The loop that moves and culls the obstacles, run on the array as
    it is written (from the last index down, splicing as it goes), never
    reads past the array, moves every obstacle exactly once and keeps, in
    their order, exactly those that are still on the screen once moved. *)
Theorem cull_loop_moves_each_once :
  forall (dt : float) (obs : list Obstacle.t),
    Cull.run dt obs
    = Some (filter (fun o => negb (Obstacle.isOffScreen o)) (map (Obstacle.update dt) obs))
    /\ Cull.run dt obs = Some (Game.updateObstacles dt obs).
Proof.
  intros dt obs. unfold Cull.run.
  pose proof (cull_loop_spec dt obs []) as H. rewrite !app_nil_r in H.
  rewrite H, updateObstacles_filter. split; reflexivity.
Qed.

(** *** The shape of the obstacles *)

Lemma update_shape (dt canvasH : float) (o : Obstacle.t) :
  spawned_shape canvasH o -> spawned_shape canvasH (Obstacle.update dt o).
Proof. unfold spawned_shape, Obstacle.update. simpl. tauto. Qed.

Lemma step_shape (random : N -> float) (dt : float) (g : Game.t) (c : N) :
  Forall (spawned_shape (Game.canvasHeight g)) (Game.obstacles g) ->
  Forall (spawned_shape (Game.canvasHeight g)) (Game.obstacles (fst (Game.step random dt g c))).
Proof.
  intros H. rewrite step_obstacles, updateObstacles_filter.
  rewrite Forall_forall. intros o Ho.
  apply filter_In in Ho. destruct Ho as [Ho _].
  apply in_map_iff in Ho. destruct Ho as (o0 & <- & Ho0).
  apply update_shape. unfold due in Ho0.
  rewrite Forall_forall in H.
  destruct (JS.geb _ _); [|auto].
  apply in_app_or in Ho0. destruct Ho0 as [Ho0|[<-|[]]]; [auto|].
  repeat split.
Qed.

(** X6.  Every obstacle of a game created by [new Game], after any number
    of steps of any length, is as it was spawned: on the ground of the
    playfield (y = 425), 25 by 25, moving at 250 pixels a second; a step
    only changes its [x]. *)
Theorem obstacles_keep_their_shape :
  forall (random : N -> float) (genome : list float) (dt : float) (n : nat) (c : N),
    Forall (spawned_shape CANVAS_HEIGHT)
           (Game.obstacles (fst (steps random dt n (fst (Game.create random genome c))
                                       (snd (Game.create random genome c))))).
Proof.
  intros random genome dt n c.
  assert (G : forall n g c0,
             Game.canvasHeight g = CANVAS_HEIGHT ->
             Forall (spawned_shape CANVAS_HEIGHT) (Game.obstacles g) ->
             Forall (spawned_shape CANVAS_HEIGHT)
                    (Game.obstacles (fst (steps random dt n g c0)))).
  { clear n c. induction n as [|n IH]; intros g c0 Hh Hs; simpl; [exact Hs|].
    pose proof (step_shape random dt g c0) as Hstep.
    pose proof (GroundFacts.step_canvasHeight random dt g c0) as Hc.
    rewrite Hh in Hstep, Hc. specialize (Hstep Hs).
    destruct (Game.step random dt g c0) as [g1 c1]. simpl in *.
    apply IH; assumption. }
  apply G; [reflexivity | constructor].
Qed.

End StepFacts.

(* ===================================================================== *)
(** ** The interactive game *)
(* ===================================================================== *)

Module MainFacts.
Local Open Scope float_scope.
Import Notions MoreNotions MainNotions.

(** X7.  In AI mode a frame of the interactive game is a step of the
    headless game on which the genome was trained: from mirrored states,
    [update] and [Game.step] with the same time step leave mirrored
    states and the same random draws, the game goes on exactly when the
    step finds no collision, and the mode and the genome stay. *)
Theorem update_plays_as_step :
  forall (random : N -> float) (genome : list float) (currentTime : float)
         (s : Main.state) (g : Game.t) (c : N),
    Main.aiMode s = true ->
    Main.bestAIGenome s = Some genome ->
    mirrors genome s g ->
    let dt := (currentTime - Main.lastTime s) / 1000 in
    let s' := fst (fst (Main.update random currentTime s c)) in
    let g' := fst (Game.step random dt g c) in
    mirrors genome s' g'
    /\ snd (Main.update random currentTime s c) = snd (Game.step random dt g c)
    /\ snd (fst (Main.update random currentTime s c))
       = negb (existsb (fun o => Obstacle.collidesWith o (Game.player g')) (Game.obstacles g'))
    /\ (Game.gameOver g = false ->
        Game.gameOver g' = negb (snd (fst (Main.update random currentTime s c))))
    /\ Main.aiMode s' = true
    /\ Main.bestAIGenome s' = Some genome
    /\ Main.lastTime s' = currentTime.
Proof.
  intros random genome t s g c Hm Hb (H1 & H2 & H3 & H4 & H5 & H6 & H7 & H8 & H9).
  destruct s as [aw ah sp so st sd sl sb sm].
  destruct g as [w1 w2 b cw ch gp go gt gd gtime gover].
  simpl in *. subst.
  unfold Main.update, Game.step. simpl.
  unfold Game.decide, Game.output, Game.normalizedDist, Game.normalizedHeight,
    Game.distToNext, Game.nextObstacle, Game.physics. simpl.
  destruct (JS.geb (st + (t - sl) / 1000) sd); simpl;
    (repeat split; try reflexivity);
    intros ->; destruct (existsb _ _); reflexivity.
Qed.

Lemma update_plays_as_step_witness :
  mirrors jumper
          (fst (fst (Main.update half 16 (fst ai_ready) (snd ai_ready))))
          (fst (Game.step half ((16 - 0) / 1000) (fst (Game.create half jumper 0)) 1%N))
  /\ snd (Main.update half 16 (fst ai_ready) (snd ai_ready)) = 1%N.
Proof.
  pose proof (update_plays_as_step half jumper 16 (fst ai_ready)
                (fst (Game.create half jumper 0)) (snd ai_ready)
                eq_refl eq_refl) as H.
  destruct H as (Hm & Hc & _).
  - repeat split.
  - split; [exact Hm|]. rewrite Hc. reflexivity.
Defined.


(** *** What the events keep *)

Lemma update_mode (random : N -> float) (t : float) (s : Main.state) (c : N) :
  Main.aiMode (fst (fst (Main.update random t s c))) = Main.aiMode s
  /\ Main.bestAIGenome (fst (fst (Main.update random t s c))) = Main.bestAIGenome s
  /\ Main.app_width (fst (fst (Main.update random t s c))) = Main.app_width s
  /\ Main.app_height (fst (fst (Main.update random t s c))) = Main.app_height s.
Proof.
  unfold Main.update. destruct (JS.geb _ _); simpl; repeat split.
Qed.

Lemma update_build (random : N -> float) (t : float) (s : Main.state) (c : N) :
  same_build (Main.player s) (Main.player (fst (fst (Main.update random t s c)))).
Proof.
  unfold Main.update, same_build.
  destruct (JS.geb (Main.spawnTimer s + _) _); simpl;
    destruct (Main.aiMode s); destruct (Main.bestAIGenome s);
    repeat match goal with
           | |- context [if ?b then _ else _] => destruct b; simpl
           end; repeat split.
Qed.

Lemma keydown_mode (random : N -> float) (key : string) (s : Main.state) (c : N) :
  Main.bestAIGenome (fst (Main.keydown random key s c)) = Main.bestAIGenome s
  /\ Main.app_width (fst (Main.keydown random key s c)) = Main.app_width s
  /\ Main.app_height (fst (Main.keydown random key s c)) = Main.app_height s
  /\ (Main.bestAIGenome s = None ->
      Main.aiMode (fst (Main.keydown random key s c)) = Main.aiMode s)
  /\ (Main.aiMode (fst (Main.keydown random key s c)) = true ->
      Main.aiMode s = true \/ Main.bestAIGenome s <> None).
Proof.
  unfold Main.keydown.
  destruct (String.eqb key "r" || String.eqb key "R"); simpl;
    (split; [reflexivity|]); (split; [reflexivity|]); (split; [reflexivity|]);
    destruct (String.eqb key "a" || String.eqb key "A");
    destruct (Main.bestAIGenome s); split; intros; auto; try discriminate;
    right; discriminate.
Qed.

Lemma keydown_build (random : N -> float) (key : string) (s : Main.state) (c : N) :
  same_build (Main.player s) (Main.player (fst (Main.keydown random key s c))).
Proof.
  unfold Main.keydown, same_build.
  destruct (String.eqb key "r" || String.eqb key "R"); simpl.
  - repeat split;
      destruct (String.eqb key "ArrowUp" || String.eqb key " ");
      try destruct (Player.grounded (Main.player s)); reflexivity.
  - destruct (String.eqb key "ArrowUp" || String.eqb key " ");
      try destruct (Player.grounded (Main.player s)); repeat split.
Qed.

Lemma same_build_refl (p : Player.t) : same_build p p.
Proof. repeat split. Qed.

Lemma same_build_trans (p q r : Player.t) :
  same_build p q -> same_build q r -> same_build p r.
Proof.
  unfold same_build. intros (A & B & C & D) (A' & B' & C' & D').
  repeat split; congruence.
Qed.

Lemma handle_keeps (random : N -> float) (e : Main.event) (s : Main.state) (c : N) :
  same_build (Main.player s) (Main.player (fst (Main.handle random e s c)))
  /\ Main.app_width (fst (Main.handle random e s c)) = Main.app_width s
  /\ Main.app_height (fst (Main.handle random e s c)) = Main.app_height s.
Proof.
  destruct e as [t|k|best]; simpl.
  - pose proof (update_build random t s c) as Hb.
    pose proof (update_mode random t s c) as (_ & _ & Hw & Hh).
    destruct (Main.update random t s c) as [[s' b] c']. simpl in *. auto.
  - pose proof (keydown_build random k s c) as Hb.
    pose proof (keydown_mode random k s c) as (_ & Hw & Hh & _).
    auto.
  - split; [apply same_build_refl | split; reflexivity].
Qed.

Lemma handle_all_keeps (random : N -> float) (es : list Main.event) :
  forall (s : Main.state) (c : N),
    same_build (Main.player s) (Main.player (fst (Main.handle_all random es s c)))
    /\ Main.app_width (fst (Main.handle_all random es s c)) = Main.app_width s
    /\ Main.app_height (fst (Main.handle_all random es s c)) = Main.app_height s.
Proof.
  induction es as [|e es IH]; intros s c; simpl.
  - split; [apply same_build_refl | split; reflexivity].
  - pose proof (handle_keeps random e s c) as (Hb & Hw & Hh).
    destruct (Main.handle random e s c) as [s1 c1]. simpl in *.
    destruct (IH s1 c1) as (Hb' & Hw' & Hh').
    split; [eapply same_build_trans; eassumption | split; congruence].
Qed.

(** X8.  The key [R] restores the start of the game whatever happened
    before: after any frames, keys and training runs, it puts the player
    back exactly as it was when the page was loaded, with no obstacle on
    the field and the spawn timer at 0; it leaves the trained genome and
    the mode alone. *)
Theorem reset_restores_the_start :
  forall (random : N -> float) (width height : float) (es : list Main.event) (c c' : N),
    let s0 := fst (Main.load random width height c) in
    let s := fst (Main.handle_all random es s0 (snd (Main.load random width height c))) in
    forall key, key = "r"%string \/ key = "R"%string ->
      Main.player (fst (Main.keydown random key s c')) = Main.player s0
      /\ Main.obstacles (fst (Main.keydown random key s c')) = []
      /\ Main.spawnTimer (fst (Main.keydown random key s c')) = 0
      /\ Main.bestAIGenome (fst (Main.keydown random key s c')) = Main.bestAIGenome s
      /\ Main.aiMode (fst (Main.keydown random key s c')) = Main.aiMode s.
Proof.
  intros random width height es c c' s0 s key Hkey.
  destruct (handle_all_keeps random es s0 (snd (Main.load random width height c)))
    as ((Bw & Bh & Bg & Bj) & Hw & Hh).
  fold s in Bw, Bh, Bg, Bj, Hw, Hh.
  unfold Main.keydown.
  replace (String.eqb key "r" || String.eqb key "R") with true
    by (destruct Hkey as [-> | ->]; reflexivity).
  replace (String.eqb key "ArrowUp" || String.eqb key " ") with false
    by (destruct Hkey as [-> | ->]; reflexivity).
  replace (String.eqb key "a" || String.eqb key "A") with false
    by (destruct Hkey as [-> | ->]; reflexivity).
  simpl. rewrite Bw, Bh, Bg, Bj, Hw, Hh.
  repeat split.
Qed.

Lemma reset_restores_the_start_witness :
  Main.player (fst (Main.keydown half "R"
                      (fst (Main.handle_all half [Main.Frame 16; Main.Key " "; Main.Frame 33]
                              (fst (Main.load half 800 450 0))
                              (snd (Main.load half 800 450 0)))) 7%N))
  = Main.player (fst (Main.load half 800 450 0)).
Proof.
  apply (reset_restores_the_start half 800 450
           [Main.Frame 16; Main.Key " "; Main.Frame 33] 0%N 7%N "R"%string).
  right. reflexivity.
Defined.

Lemma handle_all_untrained (random : N -> float) (es : list Main.event) :
  forall (s : Main.state) (c : N),
    untrained es ->
    Main.aiMode s = false -> Main.bestAIGenome s = None ->
    Main.aiMode (fst (Main.handle_all random es s c)) = false
    /\ Main.bestAIGenome (fst (Main.handle_all random es s c)) = None.
Proof.
  induction es as [|e es IH]; intros s c Hu Hm Hb; simpl; [auto|].
  inversion Hu as [|? ? He Hes]; subst.
  assert (H1 : Main.aiMode (fst (Main.handle random e s c)) = false
               /\ Main.bestAIGenome (fst (Main.handle random e s c)) = None).
  { destruct e as [t|k|[best|]]; simpl.
    - pose proof (update_mode random t s c) as (Ha & Hg & _).
      destruct (Main.update random t s c) as [[s' b] c']. simpl in *.
      split; congruence.
    - pose proof (keydown_mode random k s c) as (Hg & _ & _ & Ha & _).
      split; [rewrite (Ha Hb); exact Hm | congruence].
    - contradiction.
    - split; [exact Hm | reflexivity]. }
  destruct (Main.handle random e s c) as [s1 c1]. simpl in H1.
  destruct H1. apply IH; assumption.
Qed.

Lemma handle_all_delivering (random : N -> float) (es : list Main.event) :
  forall (s : Main.state) (c : N),
    delivering es ->
    (Main.aiMode s = true -> Main.bestAIGenome s <> None) ->
    Main.aiMode (fst (Main.handle_all random es s c)) = true ->
    Main.bestAIGenome (fst (Main.handle_all random es s c)) <> None.
Proof.
  induction es as [|e es IH]; intros s c Hd Hi; simpl; [exact Hi|].
  inversion Hd as [|? ? He Hes]; subst.
  assert (H1 : Main.aiMode (fst (Main.handle random e s c)) = true ->
               Main.bestAIGenome (fst (Main.handle random e s c)) <> None).
  { destruct e as [t|k|[best|]]; simpl.
    - pose proof (update_mode random t s c) as (Ha & Hg & _).
      destruct (Main.update random t s c) as [[s' b] c']. simpl in *.
      rewrite Ha, Hg. exact Hi.
    - pose proof (keydown_mode random k s c) as (Hg & _ & _ & _ & Ha).
      rewrite Hg. intros Hon. destruct (Ha Hon) as [H|H]; auto.
    - discriminate.
    - contradiction. }
  destruct (Main.handle random e s c) as [s1 c1]. simpl in H1.
  apply IH; assumption.
Qed.

(** X9.  The genome never plays before it exists: as long as no training
    run has delivered a genome, no key switches the AI mode on; and when
    every training run delivers one, the AI mode is only ever on with a
    genome to play. *)
Theorem ai_mode_needs_a_genome :
  forall (random : N -> float) (width height : float) (es : list Main.event) (c : N),
    let s := fst (Main.handle_all random es (fst (Main.load random width height c))
                                  (snd (Main.load random width height c))) in
    (untrained es -> Main.aiMode s = false /\ Main.bestAIGenome s = None)
    /\ (delivering es -> Main.aiMode s = true -> Main.bestAIGenome s <> None).
Proof.
  intros random width height es c s. split.
  - intros Hu. apply handle_all_untrained; [exact Hu | reflexivity | reflexivity].
  - intros Hd. apply handle_all_delivering; [exact Hd | discriminate].
Qed.

Lemma ai_mode_needs_a_genome_witness :
  Main.aiMode (fst (Main.handle_all half [Main.Key "a"; Main.Frame 16; Main.Key "A"]
                      (fst (Main.load half 800 450 0)) (snd (Main.load half 800 450 0))))
  = false.
Proof.
  apply (proj1 (ai_mode_needs_a_genome half 800 450
                  [Main.Key "a"; Main.Frame 16; Main.Key "A"] 0%N)).
  repeat constructor.
Defined.

End MainFacts.

(* ===================================================================== *)
(** ** The trainers: ranking, breeding, and too few records *)
(* ===================================================================== *)

Module TrainerFacts.
Local Open Scope float_scope.
Import Notions GA ElitismFacts RankingFacts TrainerNotions.

(** *** Too few records *)

Lemma eliteCount_below_10 (n : nat) : (n <= 9)%nat -> eliteCount n = 0.
Proof.
  intros H.
  do 10 (destruct n as [|n]; [reflexivity|]). lia.
Qed.

Lemma index_nil {A : Type} (i : float) : JS.index (@nil A) i = None.
Proof.
  unfold JS.index. destruct (JS.to_integer i) as [z|]; [|reflexivity].
  destruct (z <? 0)%Z; [reflexivity|]. destruct (Z.to_nat z); reflexivity.
Qed.

Lemma pickParent_nil (random : N -> float) (count : float) (c : N) :
  pickParent random [] count c = Err TypeError.
Proof. unfold pickParent, bind, Math_random. rewrite index_nil. reflexivity. Qed.

Lemma breed_nil_fails (random : N -> float) (Math_log Math_cos : float -> float)
    (fuel : nat) (targetPopSize : nat) (rate : float) (c : N) :
  (1 <= targetPopSize)%nat ->
  breedNextGeneration random Math_log Math_cos fuel targetPopSize [] rate c = Err TypeError.
Proof.
  intros Ht. unfold breedNextGeneration. simpl map. simpl List.length.
  rewrite Nat.sub_0_r. destruct targetPopSize as [|target]; [lia|].
  simpl fillOffspring. unfold bind. rewrite pickParent_nil. reflexivity.
Qed.

(** X10.  The visual trainer cannot breed from fewer than 10 records: its
    elite count [Math.floor(n * 0.1)] is then 0, and picking a parent from
    the empty elite set reads [.genome] of [undefined].  (With no record at
    all it is [scored[0].fitness] that fails.) *)
Theorem swarm_needs_ten_records :
  forall (random : N -> float) (Math_log Math_cos : float -> float) (fuel : nat)
         (targetPopSize : nat) (results : list scored) (rate : float) (c : N),
    (List.length results <= 9)%nat -> (1 <= targetPopSize)%nat ->
    swarmNextPopulation random Math_log Math_cos fuel targetPopSize results rate c
    = Err TypeError.
Proof.
  intros random Math_log Math_cos fuel target results rate c Hn Ht.
  unfold swarmNextPopulation.
  pose proof (sortByFitness_length results) as Hs.
  destruct (sortByFitness results) as [|s0 rest]; [reflexivity|].
  rewrite Hs, (eliteCount_below_10 _ Hn).
  change (JS.slice0 (s0 :: rest) 0) with (@nil scored).
  unfold bind at 1. rewrite (breed_nil_fails _ _ _ _ _ _ _ Ht). reflexivity.
Qed.

Lemma swarm_needs_ten_records_witness :
  swarmNextPopulation half log_const cos_const 1 9 results9 0.5 0%N = Err TypeError.
Proof.
  apply (swarm_needs_ten_records half log_const cos_const 1 9 results9 0.5 0%N).
  - vm_compute. lia.
  - lia.
Defined.

(** *** The size of the next population *)

(** X11.  The population bred by the visual trainer has [targetPopSize]
    genomes, unless there are more elites than that: the elites are all
    carried over, so the population is then as large as the elite set. *)
Theorem swarm_population_size :
  forall (random : N -> float) (Math_log Math_cos : float -> float) (fuel : nat)
         (targetPopSize : nat) (results : list scored) (rate : float) (c c' : N)
         (ranked : list scored) (pop : list (list float)),
    swarmNextPopulation random Math_log Math_cos fuel targetPopSize results rate c
    = Ok (ranked, pop, c') ->
    List.length ranked = List.length results
    /\ List.length pop
       = Nat.max targetPopSize
                 (List.length (JS.slice0 ranked (eliteCount (List.length results)))).
Proof.
  intros random Math_log Math_cos fuel target results rate c c' ranked pop H.
  unfold swarmNextPopulation in H.
  rewrite sortByFitness_length in H.
  pose proof (sortByFitness_length results) as Hs.
  destruct (sortByFitness results) as [|s0 rest] eqn:E; [discriminate|].
  bind_inv H as p c1 Hb. apply ret_Ok in H. destruct H as [H _].
  injection H as Hr Hp. subst ranked pop.
  split; [exact Hs|].
  apply breedNextGeneration_extends in Hb. destruct Hb as (children & -> & Hl).
  rewrite length_app, length_map, Hl. lia.
Qed.

Lemma swarm_population_size_witness :
  List.length ranked15 = List.length results15
  /\ List.length [[14; 0; 0]]
     = Nat.max 0 (List.length (JS.slice0 ranked15 (eliteCount (List.length results15)))).
Proof.
  apply (swarm_population_size half log_const cos_const 1 0 results15 0 0%N 0%N).
  vm_compute. reflexivity.
Defined.

(** *** The ranking *)

Lemma insertByFitness_perm (s : scored) (l : list scored) :
  Permutation (s :: l) (insertByFitness s l).
Proof.
  induction l as [|s' l IH]; simpl; [apply Permutation_refl|].
  destruct (fitness s <? fitness s'); [|apply Permutation_refl].
  eapply Permutation_trans; [apply perm_swap|]. apply perm_skip. exact IH.
Qed.

Lemma sortByFitness_perm (l : list scored) : Permutation l (sortByFitness l).
Proof.
  induction l as [|s l IH]; simpl; [apply Permutation_refl|].
  eapply Permutation_trans; [apply perm_skip, IH | apply insertByFitness_perm].
Qed.

Lemma not_below_trans (a b c : float) :
  is_nan a = false -> is_nan b = false -> is_nan c = false ->
  (a <? b) = false -> (b <? c) = false -> (a <? c) = false.
Proof.
  intros Ha Hb Hc H1 H2.
  apply FloatFacts.not_ltb_leb in H1; [|assumption..].
  apply FloatFacts.not_ltb_leb in H2; [|assumption..].
  apply FloatFacts.leb_not_ltb. eapply FloatFacts.leb_trans; eassumption.
Qed.

Lemma insertByFitness_ranked (s : scored) (l : list scored) :
  is_nan (fitness s) = false -> numbers l ->
  ranked_down l -> ranked_down (insertByFitness s l).
Proof.
  intros Hs Hn Hl. induction Hl as [|s' l Hl IH Hall]; simpl.
  - repeat constructor.
  - inversion Hn as [|? ? Hs' Hn']; subst.
    destruct (fitness s <? fitness s') eqn:E.
    + constructor; [apply IH; exact Hn'|].
      rewrite Forall_forall. intros r Hr.
      apply insertByFitness_In in Hr. destruct Hr as [->|Hr].
      * apply FloatFacts.ltb_asym. exact E.
      * rewrite Forall_forall in Hall. apply Hall, Hr.
    + constructor; [constructor; assumption|].
      constructor; [exact E|].
      rewrite Forall_forall. intros r Hr.
      unfold numbers in Hn'. rewrite Forall_forall in Hn', Hall.
      apply (not_below_trans _ (fitness s')); auto.
Qed.

Lemma sortByFitness_ranked (l : list scored) :
  numbers l -> ranked_down (sortByFitness l).
Proof.
  induction l as [|s l IH]; intros Hn; simpl; [constructor|].
  inversion Hn as [|? ? Hs Hl]; subst.
  apply insertByFitness_ranked; [exact Hs | apply sortByFitness_numbers, Hl | apply IH, Hl].
Qed.

Lemma skipn_In {A : Type} (x : A) (n : nat) (l : list A) :
  In x (skipn n l) -> In x l.
Proof.
  intros H. rewrite <- (firstn_skipn n l). apply in_or_app. right. exact H.
Qed.

Lemma ranked_down_split (l : list scored) (k : nat) :
  ranked_down l ->
  forall e r, In e (firstn k l) -> In r (skipn k l) -> (fitness e <? fitness r) = false.
Proof.
  intros Hl. revert k. induction Hl as [|s l Hl IH Hall]; intros k e r He Hr.
  - rewrite firstn_nil in He. destruct He.
  - destruct k as [|k]; simpl in He, Hr; [destruct He|].
    destruct He as [<-|He].
    + rewrite Forall_forall in Hall. apply Hall.
      eapply skipn_In. exact Hr.
    + eapply IH; eassumption.
Qed.

Lemma slice0_firstn {A : Type} (l : list A) (k : float) :
  exists n, JS.slice0 l k = firstn n l.
Proof.
  unfold JS.slice0.
  destruct (Prim2SF k) as [s|s| |s m e].
  - exists 0%nat. reflexivity.
  - destruct s; [exists 0%nat; reflexivity|].
    exists (List.length l). symmetry. apply firstn_all.
  - exists 0%nat. reflexivity.
  - destruct s; eexists; reflexivity.
Qed.

(** X12.  The elites are the fittest: the ranking from which both trainers
    take their elites holds the evaluated records, each once, in an order
    in which no record has a lower fitness than a record after it; so no
    record that is left out has a fitness above that of an elite. *)
Theorem elites_are_the_fittest :
  forall (results : list scored) (count : float),
    numbers results ->
    Permutation results (sortByFitness results)
    /\ ranked_down (sortByFitness results)
    /\ exists rest,
         sortByFitness results = JS.slice0 (sortByFitness results) count ++ rest
         /\ forall e r,
              In e (JS.slice0 (sortByFitness results) count) -> In r rest ->
              (fitness e <? fitness r) = false.
Proof.
  intros results count Hn.
  split; [apply sortByFitness_perm|].
  pose proof (sortByFitness_ranked results Hn) as Hr.
  split; [exact Hr|].
  destruct (slice0_firstn (sortByFitness results) count) as [n ->].
  exists (skipn n (sortByFitness results)).
  split; [symmetry; apply firstn_skipn|].
  apply ranked_down_split. exact Hr.
Qed.

Lemma elites_are_the_fittest_witness :
  Permutation results15 (sortByFitness results15)
  /\ ranked_down (sortByFitness results15)
  /\ exists rest,
       sortByFitness results15 = JS.slice0 (sortByFitness results15) 5 ++ rest
       /\ forall e r,
            In e (JS.slice0 (sortByFitness results15) 5) -> In r rest ->
            (fitness e <? fitness r) = false.
Proof.
  apply (elites_are_the_fittest results15 5).
  repeat constructor.
Defined.

Lemma slice0_head {A : Type} (l : list A) (k : float) (x : A) (t : list A) :
  JS.slice0 l k = x :: t -> hd_error l = Some x.
Proof.
  destruct (slice0_firstn l k) as [n ->].
  destruct n as [|n]; [discriminate|].
  destruct l as [|y l]; [discriminate|]. simpl. intros H. injection H as -> _. reflexivity.
Qed.

(** X13.  What [getBestGenome] of the visual trainer returns after a round:
    the first genome of the new population is, gene for gene, the genome
    of the record ranked first in the generation just evaluated, whose
    fitness no record of that generation exceeds. *)
Theorem swarm_best_genome_first :
  forall (random : N -> float) (Math_log Math_cos : float -> float) (fuel : nat)
         (targetPopSize : nat) (results : list scored) (rate : float) (c c' : N)
         (ranked : list scored) (pop : list (list float)),
    numbers results ->
    swarmNextPopulation random Math_log Math_cos fuel targetPopSize results rate c
    = Ok (ranked, pop, c') ->
    (1 <= targetPopSize)%nat ->
    exists top,
      hd_error ranked = Some top
      /\ In top results
      /\ tops top ranked
      /\ hd_error pop = Some (genome top).
Proof.
  intros random Math_log Math_cos fuel target results rate c c' ranked pop Hn H Ht.
  unfold swarmNextPopulation in H.
  pose proof (sortByFitness_tops results Hn) as Htop.
  pose proof (fun r => sortByFitness_In r results) as Hin.
  destruct (sortByFitness results) as [|top rest]; [discriminate|].
  bind_inv H as p c1 Hb. apply ret_Ok in H. destruct H as [H _].
  injection H as Hr Hp. subst ranked pop.
  exists top. split; [reflexivity|].
  split; [apply Hin; left; reflexivity|].
  split; [exact Htop|].
  destruct (JS.slice0 (top :: rest) (eliteCount (List.length (top :: rest))))
    as [|x t] eqn:Es.
  - rewrite (breed_nil_fails random Math_log Math_cos fuel target rate c Ht) in Hb.
    discriminate.
  - apply breedNextGeneration_extends in Hb. destruct Hb as (children & -> & _).
    apply slice0_head in Es. simpl in Es. injection Es as <-. reflexivity.
Qed.

Lemma swarm_best_genome_first_witness :
  exists top,
    hd_error ranked15 = Some top
    /\ In top results15
    /\ tops top ranked15
    /\ hd_error pop15 = Some (genome top).
Proof.
  apply (swarm_best_genome_first half log_const cos_const 1 15 results15 0 0%N 56%N).
  - repeat constructor.
  - vm_compute. reflexivity.
  - lia.
Defined.

End TrainerFacts.

(* ===================================================================== *)
(** ** A generation of the visual trainer *)
(* ===================================================================== *)

Module VisualFacts.
Local Open Scope float_scope.
Import Notions VisualNotions.
Import GA ElitismFacts.

Section WithRandom.

Variable random : N -> float.
Variable interrupted : nat -> bool.
Variables canvasWidth canvasHeight : float.

Lemma createBots_spec (speed : float) (population : list (list float)) :
  forall (c c' : N) (bots : list Visual.bot),
    Visual.createBots random canvasWidth canvasHeight population c = Ok (bots, c') ->
    map Visual.genome bots = population
    /\ Forall (fun b => Visual.alive b = true /\ Game.totalTime (Visual.game b) = 0) bots.
Proof.
  induction population as [|g rest IH]; intros c c' bots H; simpl in H.
  - apply ret_Ok in H. destruct H as [-> _]. split; constructor.
  - bind_inv H as b c1 Hb. bind_inv H as bs c2 Hbs.
    apply ret_Ok in H. destruct H as [-> _].
    destruct (IH _ _ _ Hbs) as [Hg Ha].
    unfold Visual.createBot in Hb.
    destruct (Game.create random g c) as [gm cg] eqn:E.
    injection Hb as <- _. simpl. rewrite Hg. split; [reflexivity|].
    constructor; [|exact Ha]. simpl. split; [reflexivity|].
    pose proof (RunFacts.create_totalTime random g c) as Ht. rewrite E in Ht. exact Ht.
Qed.

Lemma createBots_returns (population : list (list float)) :
  forall c, exists bots c',
    Visual.createBots random canvasWidth canvasHeight population c = Ok (bots, c').
Proof.
  induction population as [|g rest IH]; intros c; simpl.
  - unfold ret. eauto.
  - unfold bind at 1. unfold Visual.createBot.
    destruct (Game.create random g c) as [gm cg].
    destruct (IH cg) as (bs & c' & Hbs).
    unfold bind. rewrite Hbs. unfold ret. eauto.
Qed.

Lemma stepAlive_genomes (speed : float) (bots : list Visual.bot) :
  forall c, map Visual.genome (fst (Visual.stepAlive random speed bots c))
            = map Visual.genome bots.
Proof.
  induction bots as [|b rest IH]; intros c; simpl; [reflexivity|].
  destruct (Visual.alive b).
  - destruct (negb _ && _).
    + destruct (Game.step random _ (Visual.game b) c) as [g' c1].
      specialize (IH c1). destruct (Visual.stepAlive random speed rest c1) as [rest' c2].
      simpl in *. rewrite IH. reflexivity.
    + specialize (IH c). destruct (Visual.stepAlive random speed rest c) as [rest' c2].
      simpl in *. rewrite IH. reflexivity.
  - specialize (IH c). destruct (Visual.stepAlive random speed rest c) as [rest' c2].
    simpl in *. rewrite IH. reflexivity.
Qed.

Lemma results_genomes (bots : list Visual.bot) :
  map genome (Visual.results bots) = map Visual.genome bots.
Proof. unfold Visual.results. rewrite map_map. reflexivity. Qed.

Lemma simulationStep_genomes (speed : float) (n : nat) :
  forall (frame : nat) (bots : list Visual.bot) (c c' : N) (scored : list scored),
    Visual.simulationStep random interrupted speed n frame bots c = Ok (scored, c') ->
    map genome scored = map Visual.genome bots.
Proof.
  induction n as [|n IH]; intros frame bots c c' scored H; simpl in H; [discriminate|].
  destruct (interrupted frame).
  - apply ret_Ok in H. destruct H as [-> _]. apply results_genomes.
  - pose proof (stepAlive_genomes speed bots c) as Hg.
    destruct (Visual.stepAlive random speed bots c) as [bots' c1]. simpl in Hg.
    unfold bind, Math_random in H.
    destruct (existsb Visual.alive bots').
    + apply IH in H. congruence.
    + apply ret_Ok in H. destruct H as [-> _]. rewrite results_genomes. exact Hg.
Qed.

End WithRandom.

(** X14.  The records of a generation of the visual trainer carry the
    genomes of the population, one record for each genome and in the
    order of the population, whatever the speed, however the generation
    ends; and a generation that finds the trainer paused or stopped at its
    first frame reports a survival time of 0 for every genome. *)
Theorem visual_records_follow_the_population :
  forall (random : N -> float) (interrupted : nat -> bool)
         (canvasWidth canvasHeight speed : float) (fuel : nat)
         (population : list (list float)) (c c' : N) (scored : list scored),
    Visual.runSwarmGenerationVisual random interrupted canvasWidth canvasHeight speed fuel
                                    population c = Ok (scored, c') ->
    map genome scored = population
    /\ (interrupted 0%nat = true -> scored = map (fun g => mkScored g 0) population).
Proof.
  intros random interrupted cw ch speed fuel population c c' scored H.
  unfold Visual.runSwarmGenerationVisual in H.
  bind_inv H as bots c1 Hb.
  destruct (createBots_spec random cw ch speed population _ _ _ Hb) as [Hg Ha].
  split.
  - apply simulationStep_genomes in H. congruence.
  - intros Hi. destruct fuel as [|fuel]; [discriminate|].
    simpl in H. rewrite Hi in H. apply ret_Ok in H. destruct H as [-> _].
    rewrite <- Hg. unfold Visual.results. rewrite map_map.
    apply map_ext_in. intros b Hin. rewrite Forall_forall in Ha.
    destruct (Ha b Hin) as [_ ->]. reflexivity.
Qed.


Lemma visual_records_follow_the_population_witness :
  map genome (map (fun g => mkScored g 0) [jumper; still]) = [jumper; still].
Proof.
  apply (visual_records_follow_the_population half (fun _ => true) 800 450 1 1
           [jumper; still] 0%N 2%N).
  reflexivity.
Defined.

(** *** A generation at speed 1 *)

Lemma time_after_succ (j : nat) :
  forall t, time_after (S j) t = time_after j t + Game.FIXED_DT.
Proof.
  induction j as [|j IH]; intros t; [reflexivity|].
  change (time_after (S (S j)) t) with (time_after (S j) (t + Game.FIXED_DT)).
  rewrite IH. reflexivity.
Qed.

Lemma dt_at_speed_1 : Visual.dt 1 = Game.FIXED_DT.
Proof. reflexivity. Qed.

Lemma in_clock_clocked (t : float) (g : list float) :
  In t (clock_values MAX_STEPS 0) -> clocked (mkScored g t).
Proof.
  intros H. split; [exact H|]. simpl.
  pose proof RunFacts.clock_values_bounded as Hb.
  rewrite forallb_forall in Hb. apply Hb, H.
Qed.

Section AtSpeed1.

Variable random : N -> float.
Variable interrupted : nat -> bool.
Variables canvasWidth canvasHeight : float.

Lemma results_clocked (j : nat) (bots : list Visual.bot) :
  (j <= MAX_STEPS)%nat -> on_the_clock j bots -> Forall clocked (Visual.results bots).
Proof.
  intros Hj H. unfold Visual.results. rewrite Forall_map.
  unfold on_the_clock in H. rewrite Forall_forall in *. intros b Hb.
  specialize (H b Hb). apply in_clock_clocked.
  destruct (Visual.alive b); [|exact H].
  rewrite H. apply RunFacts.time_after_in_clock_values. exact Hj.
Qed.

Lemma stepAlive_clock (j : nat) (bots : list Visual.bot) :
  (j <= MAX_STEPS)%nat -> on_the_clock j bots ->
  forall c,
    on_the_clock (S j) (fst (Visual.stepAlive random 1 bots c))
    /\ (j = MAX_STEPS -> existsb Visual.alive (fst (Visual.stepAlive random 1 bots c)) = false).
Proof.
  intros Hj. induction bots as [|b rest IH]; intros H c; cbn [Visual.stepAlive].
  - split; [constructor | reflexivity].
  - inversion H as [|? ? Hb Hrest]; subst. specialize (IH Hrest).
    destruct (Visual.alive b) eqn:Ea.
    + destruct (negb (Game.gameOver (Visual.game b)) && (Game.totalTime (Visual.game b) <? 30))
        eqn:Ec.
      * pose proof (GameFacts.step_totalTime random (Visual.dt 1) (Visual.game b) c) as Ht.
        destruct (Game.step random (Visual.dt 1) (Visual.game b) c) as [g' c1].
        specialize (IH c1).
        destruct (Visual.stepAlive random 1 rest c1) as [rest' c2]. cbn [fst snd] in *.
        destruct IH as [IH1 IH2]. split.
        -- constructor; [|exact IH1]. cbn [Visual.alive Visual.game].
           rewrite Ht, Hb, dt_at_speed_1. symmetry. apply time_after_succ.
        -- intros ->. exfalso.
           apply andb_prop in Ec. destruct Ec as [_ Ec]. rewrite Hb in Ec.
           pose proof RunFacts.clock_stops as Hs.
           change Game.MAX_TIME with 30 in Hs. congruence.
      * specialize (IH c).
        destruct (Visual.stepAlive random 1 rest c) as [rest' c2]. cbn [fst snd] in *.
        destruct IH as [IH1 IH2]. split; [|intros E; cbn [existsb Visual.alive]; exact (IH2 E)].
        constructor; [|exact IH1]. cbn [Visual.alive Visual.game].
        rewrite Hb. apply RunFacts.time_after_in_clock_values. exact Hj.
    + specialize (IH c).
      destruct (Visual.stepAlive random 1 rest c) as [rest' c2]. cbn [fst snd] in *.
      destruct IH as [IH1 IH2].
      split; [|intros E; cbn [existsb]; rewrite Ea; exact (IH2 E)].
      constructor; [|exact IH1]. rewrite Ea. exact Hb.
Qed.

Lemma simulationStep_returns (k : nat) :
  forall (frame n : nat) (bots : list Visual.bot) (c : N),
    (frame + k = MAX_STEPS)%nat -> (S k <= n)%nat ->
    on_the_clock frame bots ->
    exists scored c',
      Visual.simulationStep random interrupted 1 n frame bots c = Ok (scored, c')
      /\ Forall clocked scored.
Proof.
  induction k as [|k IH]; intros frame n bots c Hf Hn H;
    (destruct n as [|n]; [lia|]); cbn [Visual.simulationStep].
  - destruct (interrupted frame).
    + unfold ret. eexists. eexists. split; [reflexivity|].
      apply (results_clocked frame); [lia | exact H].
    + destruct (stepAlive_clock frame bots ltac:(lia) H c) as [H1 H2].
      destruct (Visual.stepAlive random 1 bots c) as [bots' c1]. cbn [fst snd] in *.
      unfold bind, Math_random. rewrite (H2 ltac:(lia)).
      unfold ret. eexists. eexists. split; [reflexivity|].
      unfold on_the_clock in H1.
      assert (Hd : Forall (fun b => Visual.alive b = false) bots').
      { specialize (H2 ltac:(lia)). rewrite Forall_forall. intros b Hb.
        destruct (Visual.alive b) eqn:Ea; [|reflexivity].
        assert (existsb Visual.alive bots' = true)
          by (apply existsb_exists; eauto).
        congruence. }
      unfold Visual.results. rewrite Forall_map.
      rewrite Forall_forall in *. intros b Hb.
      specialize (H1 b Hb). rewrite (Hd b Hb) in H1.
      apply in_clock_clocked. exact H1.
  - destruct (interrupted frame).
    + unfold ret. eexists. eexists. split; [reflexivity|].
      apply (results_clocked frame); [lia | exact H].
    + destruct (stepAlive_clock frame bots ltac:(lia) H c) as [H1 _].
      destruct (Visual.stepAlive random 1 bots c) as [bots' c1]. cbn [fst snd] in *.
      unfold bind, Math_random.
      destruct (existsb Visual.alive bots').
      * apply IH; [lia | lia | exact H1].
      * unfold ret. eexists. eexists. split; [reflexivity|].
        apply (results_clocked (S frame)); [lia | exact H1].
Qed.

End AtSpeed1.

(** X15.  At speed 1 a generation of the visual trainer always ends, within
    1802 frames, whether or not the buttons interrupt it, and the
    survival time it reports for a genome is one of the values that the
    clock of the game takes, at most 30.016666666666243. *)
Theorem visual_generation_ends :
  forall (random : N -> float) (interrupted : nat -> bool)
         (canvasWidth canvasHeight : float) (fuel : nat)
         (population : list (list float)) (c : N),
    (S MAX_STEPS <= fuel)%nat ->
    exists scored c',
      Visual.runSwarmGenerationVisual random interrupted canvasWidth canvasHeight 1 fuel
                                      population c = Ok (scored, c')
      /\ map genome scored = population
      /\ Forall clocked scored.
Proof.
  intros random interrupted cw ch fuel population c Hfuel.
  destruct (createBots_returns random cw ch population c) as (bots & c1 & Hb).
  destruct (createBots_spec random cw ch 1 population _ _ _ Hb) as [Hg Ha].
  destruct (simulationStep_returns random interrupted MAX_STEPS 0 fuel bots c1
              eq_refl Hfuel) as (scored & c' & Hs & Hc).
  { unfold on_the_clock. rewrite Forall_forall in *. intros b Hin.
    destruct (Ha b Hin) as [-> ->]. reflexivity. }
  exists scored, c'. unfold Visual.runSwarmGenerationVisual, bind. rewrite Hb.
  split; [exact Hs|]. split; [|exact Hc].
  apply simulationStep_genomes in Hs. congruence.
Qed.

Lemma visual_generation_ends_witness :
  exists scored c',
    Visual.runSwarmGenerationVisual half paused_at_3 800 450 1 1802 [jumper; still] 0%N
    = Ok (scored, c')
    /\ map genome scored = [jumper; still]
    /\ Forall clocked scored.
Proof.
  apply (visual_generation_ends half paused_at_3 800 450 1802 [jumper; still] 0%N).
  apply Nat.le_refl.
Defined.

End VisualFacts.

(* ===================================================================== *)
(** ** Values: comparing and bounding the results of binary64 arithmetic *)
(* ===================================================================== *)

Module Values.
Import Notions ValueNotions Rounding.
Local Open Scope Z_scope.

Lemma bounded_canonical (m : positive) (e : Z) :
  bounded prec emax m e = true ->
  fx (D m + e) = e /\ e <= 971 /\ -1074 <= e /\ Zpos m < 2 ^ 53
  /\ (-1074 < e -> 2 ^ 52 <= Zpos m).
Proof.
  unfold bounded, canonical_mantissa. rewrite andb_true_iff, Z.eqb_eq, Z.leb_le.
  fold (D m). fold (fx (D m + e)). change (emax - prec) with 971.
  intros [Hc He]. pose proof Hc as Hc'. rewrite fx_eq in Hc'.
  pose proof (D_bounds m) as [Bl Bu]. pose proof (D_pos m) as Hp.
  split; [exact Hc|]. split; [exact He|]. split; [lia|]. split.
  - assert (2 ^ D m <= 2 ^ 53) by (apply Z.pow_le_mono_r; lia). lia.
  - intros Hn. assert (E : D m = 53) by lia. rewrite E in Bl. exact Bl.
Qed.

Lemma units_pos (E : Z) (m : positive) (e : Z) :
  E <= e -> 0 < Zpos m * 2 ^ (e - E).
Proof.
  intros H. apply Z.mul_pos_pos; [lia|]. apply Z.pow_pos_nonneg; lia.
Qed.

(** Numbers in canonical form compare as their values do. *)
Lemma canonical_compare (E : Z) (mx : positive) (ex : Z) (my : positive) (ey : Z) :
  bounded prec emax mx ex = true -> bounded prec emax my ey = true ->
  E <= ex -> E <= ey ->
  (Zpos mx * 2 ^ (ex - E) ?= Zpos my * 2 ^ (ey - E))
  = match ex ?= ey with
    | Lt => Lt
    | Gt => Gt
    | Eq => Pos.compare mx my
    end.
Proof.
  intros Hx Hy Hex Hey.
  destruct (bounded_canonical mx ex Hx) as (_ & _ & Hxl & Hxu & Hxn).
  destruct (bounded_canonical my ey Hy) as (_ & _ & Hyl & Hyu & Hyn).
  change (2 ^ 53) with (2 * 2 ^ 52) in *.
  assert (G : forall (a b : positive) (ea eb : Z),
             E <= ea -> ea < eb -> Zpos a < 2 * 2 ^ 52 -> 2 ^ 52 <= Zpos b ->
             Zpos a * 2 ^ (ea - E) < Zpos b * 2 ^ (eb - E)).
  { intros a b ea eb Ha Hab Hau Hbl.
    assert (Hp : 0 < 2 ^ (ea - E)) by (apply Z.pow_pos_nonneg; lia).
    assert (Hq : 2 * 2 ^ (ea - E) <= 2 ^ (eb - E)).
    { replace (2 * 2 ^ (ea - E)) with (2 ^ (ea - E + 1))
        by (rewrite Z.pow_add_r by lia; lia).
      apply Z.pow_le_mono_r; lia. }
    assert (Zpos a * 2 ^ (ea - E) < 2 * 2 ^ 52 * 2 ^ (ea - E))
      by (apply Z.mul_lt_mono_pos_r; assumption).
    assert (2 ^ 52 * (2 * 2 ^ (ea - E)) <= 2 ^ 52 * 2 ^ (eb - E))
      by (apply Z.mul_le_mono_nonneg_l; [apply Z.pow_nonneg|]; lia).
    assert (2 ^ 52 * 2 ^ (eb - E) <= Zpos b * 2 ^ (eb - E)).
    { apply Z.mul_le_mono_nonneg_r; [|exact Hbl].
      apply Z.pow_nonneg; lia. }
    lia. }
  destruct (Z.compare_spec ex ey) as [Heq|Hlt|Hgt].
  - subst ey.
    assert (Hp : 0 < 2 ^ (ex - E)) by (apply Z.pow_pos_nonneg; lia).
    destruct (Pos.compare_spec mx my) as [E1|L1|G1].
    + subst. apply Z.compare_refl.
    + apply Z.compare_lt_iff. apply Z.mul_lt_mono_pos_r; [exact Hp|]. lia.
    + apply Z.compare_gt_iff. apply Z.mul_lt_mono_pos_r; [exact Hp|]. lia.
  - apply Z.compare_lt_iff. apply G; try assumption. apply Hyn. lia.
  - apply Z.compare_gt_iff. apply G; try assumption. apply Hxn. lia.
Qed.

Lemma SFcompare_units (E : Z) (x y : spec_float) :
  proper x -> proper y -> reaches E x -> reaches E y ->
  SFcompare x y = Some (units E x ?= units E y).
Proof.
  intros [Vx Fx] [Vy Fy] Rx Ry.
  destruct x as [sx|sx| |sx mx ex]; try discriminate;
    destruct y as [sy|sy| |sy my ey]; try discriminate;
    cbv beta iota delta [SFcompare units cond_Zopp reaches valid_binary] in *.
  - reflexivity.
  - pose proof (units_pos E my ey Ry). destruct sy; f_equal; symmetry.
    + apply Z.compare_gt_iff. lia.
    + apply Z.compare_lt_iff. lia.
  - pose proof (units_pos E mx ex Rx). destruct sx; f_equal; symmetry.
    + apply Z.compare_lt_iff. lia.
    + apply Z.compare_gt_iff. lia.
  - pose proof (units_pos E mx ex Rx). pose proof (units_pos E my ey Ry).
    destruct sx, sy.
    + rewrite Z.compare_opp. rewrite (canonical_compare E my ey mx ex) by assumption.
      rewrite (Z.compare_antisym ex ey).
      destruct (ex ?= ey); cbv beta iota delta [CompOpp]; try reflexivity.
      f_equal. change (Pos.compare_cont Eq mx my) with (Pos.compare mx my).
      rewrite (Pos.compare_antisym mx my). reflexivity.
    + f_equal. symmetry. apply Z.compare_lt_iff. lia.
    + f_equal. symmetry. apply Z.compare_gt_iff. lia.
    + rewrite (canonical_compare E mx ex my ey) by assumption.
      destruct (ex ?= ey); reflexivity.
Qed.


Lemma SFleb_units (E : Z) (x y : spec_float) :
  proper x -> proper y -> reaches E x -> reaches E y ->
  (SFleb x y = true <-> units E x <= units E y).
Proof.
  intros Hx Hy Rx Ry. unfold SFleb.
  rewrite (SFcompare_units E x y Hx Hy Rx Ry).
  destruct (Z.compare_spec (units E x) (units E y)); split; intros; try lia;
    try reflexivity; discriminate.
Qed.

Lemma SFltb_units (E : Z) (x y : spec_float) :
  proper x -> proper y -> reaches E x -> reaches E y ->
  (SFltb x y = true <-> units E x < units E y).
Proof.
  intros Hx Hy Rx Ry. unfold SFltb.
  rewrite (SFcompare_units E x y Hx Hy Rx Ry).
  destruct (Z.compare_spec (units E x) (units E y)); split; intros; try lia;
    try reflexivity; discriminate.
Qed.

(** *** What rounding keeps of a bound *)

Lemma below_leb (mx : positive) (ex : Z) (r : spec_float) :
  below false ex mx r -> r <> S754_nan -> SFleb r (S754_finite false mx ex) = true.
Proof.
  unfold SFleb. destruct r as [s'|s'| |s' m e];
    cbv beta iota delta [below SFcompare]; intros H Hn;
    try contradiction; try (subst; reflexivity); try congruence.
  destruct H as [-> H]. change (Pos.compare_cont Eq m mx) with (Pos.compare m mx).
  destruct (Z.compare_spec e ex); destruct (Pos.compare_spec m mx); auto; lia.
Qed.

Lemma above_geb (mx : positive) (ex : Z) (r : spec_float) :
  above false ex mx r -> r <> S754_nan -> SFleb (S754_finite false mx ex) r = true.
Proof.
  unfold SFleb. destruct r as [s'|s'| |s' m e];
    cbv beta iota delta [above SFcompare]; intros H Hn;
    try contradiction; try (subst; reflexivity); try congruence.
  destruct H as [-> H]. change (Pos.compare_cont Eq mx m) with (Pos.compare mx m).
  destruct (Z.compare_spec ex e); destruct (Pos.compare_spec mx m); auto; lia.
Qed.

Lemma above_leb_negative (mx : positive) (ex : Z) (r : spec_float) :
  above true ex mx r -> r <> S754_nan -> SFleb r (S754_finite true mx ex) = true.
Proof.
  unfold SFleb. destruct r as [s'|s'| |s' m e];
    cbv beta iota delta [above SFcompare]; intros H Hn;
    try contradiction; try (subst; reflexivity); try congruence.
  destruct H as [-> H]. change (Pos.compare_cont Eq m mx) with (Pos.compare m mx).
  destruct (Z.compare_spec e ex); destruct (Pos.compare_spec m mx);
    cbv beta iota delta [CompOpp]; auto; lia.
Qed.

Lemma below_geb_negative (mx : positive) (ex : Z) (r : spec_float) :
  below true ex mx r -> r <> S754_nan -> SFleb (S754_finite true mx ex) r = true.
Proof.
  unfold SFleb. destruct r as [s'|s'| |s' m e];
    cbv beta iota delta [below SFcompare]; intros H Hn;
    try contradiction; try (subst; reflexivity); try congruence.
  destruct H as [-> H]. change (Pos.compare_cont Eq mx m) with (Pos.compare mx m).
  destruct (Z.compare_spec ex e); destruct (Pos.compare_spec mx m);
    cbv beta iota delta [CompOpp]; auto; lia.
Qed.

Lemma not_positive_leb (r b : spec_float) :
  signed true r -> r <> S754_nan -> SFfinite b = true ->
  match b with S754_finite true _ _ => False | _ => True end ->
  SFleb r b = true.
Proof.
  unfold SFleb.
  destruct r as [s'|s'| |s' m e]; destruct b as [sb|sb| |sb mb eb];
    cbv beta iota delta [signed SFcompare SFfinite]; intros H Hn Hf Hb;
    try discriminate; try congruence; subst; try reflexivity;
    destruct sb; try contradiction; reflexivity.
Qed.

Lemma not_negative_geb (r b : spec_float) :
  signed false r -> r <> S754_nan -> SFfinite b = true ->
  match b with S754_finite false _ _ => False | _ => True end ->
  SFleb b r = true.
Proof.
  unfold SFleb.
  destruct r as [s'|s'| |s' m e]; destruct b as [sb|sb| |sb mb eb];
    cbv beta iota delta [signed SFcompare SFfinite]; intros H Hn Hf Hb;
    try discriminate; try congruence; subst; try reflexivity;
    destruct sb; try contradiction; reflexivity.
Qed.

Lemma pos_le_pos_iff (p q : positive) : Zpos p <= Zpos q -> (p <= q)%positive.
Proof. intros H. exact H. Qed.

(** A number that needs no rounding. *)
Lemma binary_round_exact (s : bool) (A : positive) (e : Z) :
  fx (D A + e) <= e ->
  binary_round prec emax s A e
  = rounded s (Zpos A * 2 ^ (e - fx (D A + e))) (fx (D A + e)).
Proof.
  intros Hf. unfold binary_round. fold (D A). fold (fx (D A + e)).
  set (f := fx (D A + e)) in *.
  pose proof (shl_align_spec A e f) as Hs.
  destruct (shl_align A e f) as [mz ez].
  destruct Hs as (Hez & Hmz & HDz).
  rewrite Z.min_r in Hez by lia. subst ez.
  assert (Hfz : fx (D mz + f) = f) by (rewrite HDz; reflexivity).
  destruct (bra_spec s mz f) as (m2 & _ & Hx & _ & _ & Hr).
  { rewrite Hfz. lia. }
  rewrite Hfz in Hx, Hr. rewrite Z.sub_diag in Hx.
  change (2 ^ 0) with 1 in Hx. rewrite Z.mod_1_r, Z.div_1_r in Hx.
  specialize (Hx eq_refl). subst m2.
  rewrite Hr, Hmz. reflexivity.
Qed.

Lemma exact_mantissa (A : positive) (e : Z) :
  fx (D A + e) <= e ->
  0 < Zpos A * 2 ^ (e - fx (D A + e)) < 2 ^ 53.
Proof.
  intros Hf. set (f := fx (D A + e)) in *.
  assert (Hp : 0 < 2 ^ (e - f)) by (apply Z.pow_pos_nonneg; lia).
  split; [lia|].
  pose proof (D_bounds A) as [_ Bu]. pose proof (D_pos A).
  assert (Zpos A * 2 ^ (e - f) < 2 ^ D A * 2 ^ (e - f))
    by (apply Z.mul_lt_mono_pos_r; assumption).
  rewrite <- Z.pow_add_r in H0 by lia.
  assert (2 ^ (D A + (e - f)) <= 2 ^ 53).
  { apply Z.pow_le_mono_r; [lia|]. unfold f. rewrite fx_eq. lia. }
  lia.
Qed.

(** Rounding does not cross a number of binary64, whatever the exponent
    at which the exact number is written. *)
Lemma binary_round_below_any (s : bool) (A : positive) (e E : Z) (mx : positive) (ex : Z) :
  bounded prec emax mx ex = true ->
  E <= e -> E <= ex ->
  Zpos A * 2 ^ (e - E) <= Zpos mx * 2 ^ (ex - E) ->
  below s ex mx (binary_round prec emax s A e).
Proof.
  intros Hb He Hex Hle.
  assert (Hp : 0 < 2 ^ (e - E)) by (apply Z.pow_pos_nonneg; lia).
  destruct (Z.le_gt_cases e ex) as [L|G].
  - apply binary_round_below; [exact Hb | exact L |].
    replace (ex - E) with ((ex - e) + (e - E)) in Hle by lia.
    rewrite Z.pow_add_r in Hle by lia. rewrite Z.mul_assoc in Hle.
    apply Z.mul_le_mono_pos_r in Hle; assumption.
  - destruct (bounded_canonical mx ex Hb) as (Hc & Hmax & _ & _ & _).
    assert (HA : Zpos A * 2 ^ (e - ex) <= Zpos mx).
    { replace (e - E) with ((e - ex) + (ex - E)) in Hle by lia.
      rewrite Z.pow_add_r in Hle by lia. rewrite Z.mul_assoc in Hle.
      apply Z.mul_le_mono_pos_r in Hle; [exact Hle|].
      apply Z.pow_pos_nonneg; lia. }
    assert (Hf : fx (D A + e) <= ex).
    { pose proof (D_le A mx (e - ex) 0 ltac:(lia) ltac:(lia)) as HD.
      rewrite Z.pow_0_r, Z.mul_1_r in HD. specialize (HD HA).
      rewrite <- Hc. rewrite !fx_eq. lia. }
    rewrite binary_round_exact by lia.
    pose proof (exact_mantissa A e ltac:(lia)) as [M0 M1].
    set (f := fx (D A + e)) in *.
    unfold rounded, below.
    destruct (Z.eqb_spec (Zpos A * 2 ^ (e - f)) 0); [lia|].
    destruct (Z.ltb_spec (Zpos A * 2 ^ (e - f)) (2 ^ 53)); [|lia].
    destruct (Z.leb_spec f 971); [|lia].
    split; [reflexivity|].
    destruct (Z.eq_dec f ex) as [E1|E1]; [right|left; lia].
    split; [exact E1|]. apply pos_le_pos_iff. rewrite Z2Pos.id by lia. rewrite E1. lia.
Qed.

Lemma binary_round_above_any (s : bool) (A : positive) (e E : Z) (mx : positive) (ex : Z) :
  bounded prec emax mx ex = true ->
  E <= e -> E <= ex ->
  Zpos mx * 2 ^ (ex - E) <= Zpos A * 2 ^ (e - E) ->
  above s ex mx (binary_round prec emax s A e).
Proof.
  intros Hb He Hex Hle.
  assert (Hp : 0 < 2 ^ (e - E)) by (apply Z.pow_pos_nonneg; lia).
  destruct (Z.le_gt_cases e ex) as [L|G].
  - apply binary_round_above; [exact Hb | exact L |].
    replace (ex - E) with ((ex - e) + (e - E)) in Hle by lia.
    rewrite Z.pow_add_r in Hle by lia. rewrite Z.mul_assoc in Hle.
    apply Z.mul_le_mono_pos_r in Hle; assumption.
  - destruct (bounded_canonical mx ex Hb) as (Hc & Hmax & Hmin & _ & _).
    assert (HA : Zpos mx <= Zpos A * 2 ^ (e - ex)).
    { replace (e - E) with ((e - ex) + (ex - E)) in Hle by lia.
      rewrite Z.pow_add_r in Hle by lia. rewrite Z.mul_assoc in Hle.
      apply Z.mul_le_mono_pos_r in Hle; [exact Hle|].
      apply Z.pow_pos_nonneg; lia. }
    assert (Hf : ex <= fx (D A + e)).
    { pose proof (D_le mx A 0 (e - ex) ltac:(lia) ltac:(lia)) as HD.
      rewrite Z.pow_0_r, Z.mul_1_r in HD. specialize (HD HA).
      rewrite <- Hc at 1. rewrite !fx_eq. lia. }
    destruct (Z.le_gt_cases (fx (D A + e)) e) as [Lf|Gf].
    + rewrite binary_round_exact by lia.
      pose proof (exact_mantissa A e ltac:(lia)) as [M0 M1].
      set (f := fx (D A + e)) in *.
      unfold rounded, above.
      destruct (Z.eqb_spec (Zpos A * 2 ^ (e - f)) 0); [lia|].
      destruct (Z.ltb_spec (Zpos A * 2 ^ (e - f)) (2 ^ 53)); [|lia].
      destruct (Z.leb_spec f 971); [|reflexivity].
      split; [reflexivity|].
      destruct (Z.eq_dec f ex) as [E1|E1]; [right|left; lia].
      split; [exact E1|]. apply pos_le_pos_iff. rewrite Z2Pos.id by lia. rewrite E1. lia.
    + destruct (binary_round_spec s A e) as (m2 & Hm2 & -> & Hdiv).
      set (f := fx (D A + e)) in *.
      destruct (Hdiv ltac:(lia)) as [[Hlo _] _].
      assert (Hfd : f = D A + e - 53) by (unfold f in *; rewrite fx_eq in *; lia).
      pose proof (D_bounds A) as [B1 _]. pose proof (D_pos A).
      assert (Hq : 2 ^ 52 <= Z.pos A / 2 ^ (f - e)).
      { apply Z.div_le_lower_bound; [apply Z.pow_pos_nonneg; lia|].
        rewrite <- Z.pow_add_r by lia.
        replace (f - e + 52) with (D A - 1) by lia. exact B1. }
      unfold rounded, above.
      destruct (Z.eqb_spec m2 0); [lia|].
      destruct (Z.ltb_spec m2 (2 ^ 53)).
      * destruct (f <=? 971); [|reflexivity]. split; [reflexivity|]. left. lia.
      * destruct (f + 1 <=? 971); [|reflexivity]. split; [reflexivity|]. left. lia.
Qed.

Lemma pow_split (a b : Z) : 0 <= a -> 0 <= b -> 2 ^ (a + b) = 2 ^ a * 2 ^ b.
Proof. intros. apply Z.pow_add_r; assumption. Qed.

(** A number that is at most a number of binary64 is rounded to at most
    that number. *)
Lemma normalize_le (n e E : Z) (sz : bool) (b : spec_float) :
  proper b -> E <= e -> reaches E b ->
  n * 2 ^ (e - E) <= units E b ->
  SFleb (binary_normalize prec emax n e sz) b = true.
Proof.
  intros [Vb Fb] HE Rb Hle.
  assert (Hp : 0 < 2 ^ (e - E)) by (apply Z.pow_pos_nonneg; lia).
  assert (Hnan : binary_normalize prec emax n e sz <> S754_nan)
    by apply FloatFacts.binary_normalize_not_nan.
  destruct n as [|A|A]; unfold binary_normalize in *.
  - destruct b as [sb|sb| |sb mb eb]; try discriminate.
    + reflexivity.
    + destruct sb; [|reflexivity].
      cbv beta iota delta [units cond_Zopp reaches] in *.
      pose proof (units_pos E mb eb Rb). lia.
  - destruct b as [sb|sb| |sb mb eb]; try discriminate;
      cbv beta iota delta [units cond_Zopp reaches] in *; try lia.
    pose proof (units_pos E mb eb Rb).
    destruct sb; [lia|].
    apply below_leb; [|exact Hnan].
    apply (binary_round_below_any false A e E); [exact Vb | exact HE | exact Rb | exact Hle].
  - pose proof (binary_round_signed true A e) as Hs.
    destruct b as [sb|sb| |sb mb eb]; try discriminate.
    + apply not_positive_leb; auto; exact I.
    + destruct sb.
      * cbv beta iota delta [units cond_Zopp reaches] in *.
        apply above_leb_negative; [|exact Hnan].
        apply (binary_round_above_any true A e E); [exact Vb | exact HE | exact Rb | lia].
      * apply not_positive_leb; auto; exact I.
Qed.

(** A number that is at least a number of binary64 is rounded to at least
    that number. *)
Lemma normalize_ge (n e E : Z) (sz : bool) (b : spec_float) :
  proper b -> E <= e -> reaches E b ->
  units E b <= n * 2 ^ (e - E) ->
  SFleb b (binary_normalize prec emax n e sz) = true.
Proof.
  intros [Vb Fb] HE Rb Hle.
  assert (Hp : 0 < 2 ^ (e - E)) by (apply Z.pow_pos_nonneg; lia).
  assert (Hnan : binary_normalize prec emax n e sz <> S754_nan)
    by apply FloatFacts.binary_normalize_not_nan.
  destruct n as [|A|A]; unfold binary_normalize in *.
  - destruct b as [sb|sb| |sb mb eb]; try discriminate.
    + reflexivity.
    + destruct sb; [reflexivity|].
      cbv beta iota delta [units cond_Zopp reaches] in *.
      pose proof (units_pos E mb eb Rb). lia.
  - pose proof (binary_round_signed false A e) as Hs.
    destruct b as [sb|sb| |sb mb eb]; try discriminate.
    + apply not_negative_geb; auto; exact I.
    + destruct sb.
      * apply not_negative_geb; auto; exact I.
      * cbv beta iota delta [units cond_Zopp reaches] in *.
        apply above_geb; [|exact Hnan].
        apply (binary_round_above_any false A e E); [exact Vb | exact HE | exact Rb | exact Hle].
  - destruct b as [sb|sb| |sb mb eb]; try discriminate;
      cbv beta iota delta [units cond_Zopp reaches] in *; try lia.
    pose proof (units_pos E mb eb Rb).
    destruct sb; [|lia].
    apply below_geb_negative; [|exact Hnan].
    apply (binary_round_below_any true A e E); [exact Vb | exact HE | exact Rb | lia].
Qed.


(** *** Sums *)

Lemma SFadd_finite (sx : bool) (mx : positive) (ex : Z) (sy : bool) (my : positive) (ey : Z) :
  forall E, E <= Z.min ex ey ->
  SF64add (S754_finite sx mx ex) (S754_finite sy my ey)
  = binary_normalize prec emax
      (cond_Zopp sx (Zpos mx * 2 ^ (ex - Z.min ex ey))
       + cond_Zopp sy (Zpos my * 2 ^ (ey - Z.min ex ey)))
      (Z.min ex ey) false.
Proof.
  intros E HE. unfold SF64add, SFadd.
  set (ez := Z.min ex ey).
  pose proof (shl_align_spec mx ex ez) as Hax.
  pose proof (shl_align_spec my ey ez) as Hay.
  destruct (shl_align mx ex ez) as [mx' ex'].
  destruct (shl_align my ey ez) as [my' ey'].
  destruct Hax as (Hex' & Hmx' & _). destruct Hay as (Hey' & Hmy' & _).
  assert (Eex : ex' = ez) by (unfold ez in *; lia).
  assert (Eey : ey' = ez) by (unfold ez in *; lia).
  rewrite Eex in Hmx'. rewrite Eey in Hmy'.
  cbn [fst]. rewrite Hmx', Hmy'. reflexivity.
Qed.

Lemma units_rescale (E e0 : Z) (s : bool) (m : positive) (e : Z) :
  E <= e0 -> e0 <= e ->
  units E (S754_finite s m e) = cond_Zopp s (Zpos m * 2 ^ (e - e0)) * 2 ^ (e0 - E).
Proof.
  intros H1 H2. cbv beta iota delta [units].
  replace (e - E) with ((e - e0) + (e0 - E)) by lia.
  rewrite pow_split by lia. destruct s; cbv beta iota delta [cond_Zopp]; lia.
Qed.

Lemma SFadd_zero_l (s : bool) (y : spec_float) :
  SFfinite y = true -> (forall s', y <> S754_zero s') -> SF64add (S754_zero s) y = y.
Proof.
  destruct y as [sy|sy| |sy my ey]; intros Hf Hz; try discriminate; [|reflexivity].
  exfalso. apply (Hz sy). reflexivity.
Qed.

(** The sum of two finite numbers is at most a number that their exact
    sum does not exceed. *)
Lemma SFadd_le (E : Z) (x y b : spec_float) :
  proper x -> proper y -> proper b ->
  reaches E x -> reaches E y -> reaches E b ->
  units E x + units E y <= units E b ->
  SFleb (SF64add x y) b = true.
Proof.
  intros Px Py Pb Rx Ry Rb Hle.
  destruct x as [sx|sx| |sx mx ex]; try (destruct Px; discriminate);
    destruct y as [sy|sy| |sy my ey]; try (destruct Py; discriminate).
  - assert (Hz : forall s, SFleb (S754_zero s) b = true).
    { intros s.
      apply (proj2 (SFleb_units E (S754_zero s) b (conj eq_refl eq_refl) Pb I Rb)).
      exact Hle. }
    unfold SF64add, SFadd. destruct sx, sy; apply Hz.
  - change (SF64add (S754_zero sx) (S754_finite sy my ey)) with (S754_finite sy my ey).
    apply (proj2 (SFleb_units E _ b Py Pb Ry Rb)). exact Hle.
  - change (SF64add (S754_finite sx mx ex) (S754_zero sy)) with (S754_finite sx mx ex).
    apply (proj2 (SFleb_units E _ b Px Pb Rx Rb)).
    cbv beta iota delta [units] in Hle |- *. lia.
  - cbv beta iota delta [reaches] in *.
    rewrite (SFadd_finite sx mx ex sy my ey E) by lia.
    apply (normalize_le _ _ E); auto; [lia|].
    rewrite Z.mul_add_distr_r.
    rewrite <- (units_rescale E (Z.min ex ey) sx mx ex) by lia.
    rewrite <- (units_rescale E (Z.min ex ey) sy my ey) by lia.
    exact Hle.
Qed.

(** The sum of two finite numbers is at least a number that their exact
    sum is not below. *)
Lemma SFadd_ge (E : Z) (x y b : spec_float) :
  proper x -> proper y -> proper b ->
  reaches E x -> reaches E y -> reaches E b ->
  units E b <= units E x + units E y ->
  SFleb b (SF64add x y) = true.
Proof.
  intros Px Py Pb Rx Ry Rb Hle.
  destruct x as [sx|sx| |sx mx ex]; try (destruct Px; discriminate);
    destruct y as [sy|sy| |sy my ey]; try (destruct Py; discriminate).
  - assert (Hz : forall s, SFleb b (S754_zero s) = true).
    { intros s.
      apply (proj2 (SFleb_units E b (S754_zero s) Pb (conj eq_refl eq_refl) Rb I)).
      exact Hle. }
    unfold SF64add, SFadd. destruct sx, sy; apply Hz.
  - change (SF64add (S754_zero sx) (S754_finite sy my ey)) with (S754_finite sy my ey).
    apply (proj2 (SFleb_units E b _ Pb Py Rb Ry)). exact Hle.
  - change (SF64add (S754_finite sx mx ex) (S754_zero sy)) with (S754_finite sx mx ex).
    apply (proj2 (SFleb_units E b _ Pb Px Rb Rx)).
    cbv beta iota delta [units] in Hle |- *. lia.
  - cbv beta iota delta [reaches] in *.
    rewrite (SFadd_finite sx mx ex sy my ey E) by lia.
    apply (normalize_ge _ _ E); auto; [lia|].
    rewrite Z.mul_add_distr_r.
    rewrite <- (units_rescale E (Z.min ex ey) sx mx ex) by lia.
    rewrite <- (units_rescale E (Z.min ex ey) sy my ey) by lia.
    exact Hle.
Qed.

(** *** Products *)

Lemma binary_round_unshifted (s : bool) (A : positive) (e : Z) :
  e <= fx (D A + e) ->
  binary_round prec emax s A e = binary_round_aux prec emax s (Zpos A) e loc_Exact.
Proof.
  intros H. unfold binary_round, shl_align.
  fold (D A). fold (fx (D A + e)).
  destruct (fx (D A + e) - e) as [|d|d] eqn:Ed; try reflexivity. lia.
Qed.

Lemma product_unshifted (mx : positive) (ex : Z) (my : positive) (ey : Z) :
  bounded prec emax mx ex = true -> bounded prec emax my ey = true ->
  ex + ey <= fx (D (mx * my) + (ex + ey)).
Proof.
  intros Hx Hy.
  destruct (bounded_canonical mx ex Hx) as (Hcx & _ & Hxl & _ & _).
  destruct (bounded_canonical my ey Hy) as (Hcy & _ & Hyl & _ & _).
  rewrite fx_eq in *.
  assert (Dx : D mx <= D (mx * my)).
  { pose proof (D_le mx (mx * my) 0 0 ltac:(lia) ltac:(lia)) as H.
    rewrite !Z.add_0_r in H. apply H. rewrite Z.pow_0_r. nia. }
  assert (Dy : D my <= D (mx * my)).
  { pose proof (D_le my (mx * my) 0 0 ltac:(lia) ltac:(lia)) as H.
    rewrite !Z.add_0_r in H. apply H. rewrite Z.pow_0_r. nia. }
  lia.
Qed.

Lemma SFmul_finite (sx : bool) (mx : positive) (ex : Z) (sy : bool) (my : positive) (ey : Z) :
  bounded prec emax mx ex = true -> bounded prec emax my ey = true ->
  SF64mul (S754_finite sx mx ex) (S754_finite sy my ey)
  = binary_normalize prec emax (cond_Zopp (xorb sx sy) (Zpos (mx * my))) (ex + ey) false.
Proof.
  intros Hx Hy. unfold SF64mul, SFmul.
  pose proof (product_unshifted mx ex my ey Hx Hy) as Hu.
  destruct (xorb sx sy); cbv beta iota delta [cond_Zopp Z.opp binary_normalize];
    rewrite binary_round_unshifted by exact Hu; reflexivity.
Qed.

(** The product of two finite numbers is at most a number that their
    exact product does not exceed; the product is counted in units of
    [2 ^ (Ex + Ey)]. *)
Lemma SFmul_le (Ex Ey : Z) (x y b : spec_float) :
  proper x -> proper y -> proper b ->
  reaches Ex x -> reaches Ey y -> reaches (Ex + Ey) b ->
  units Ex x * units Ey y <= units (Ex + Ey) b ->
  SFleb (SF64mul x y) b = true.
Proof.
  intros Px Py Pb Rx Ry Rb Hle.
  assert (Hz : 0 <= units (Ex + Ey) b -> forall s, SFleb (S754_zero s) b = true).
  { intros H0 s.
    apply (proj2 (SFleb_units (Ex + Ey) (S754_zero s) b (conj eq_refl eq_refl) Pb I Rb)).
    exact H0. }
  destruct x as [sx|sx| |sx mx ex]; try (destruct Px; discriminate);
    destruct y as [sy|sy| |sy my ey]; try (destruct Py; discriminate);
    try (apply Hz; cbv beta iota delta [units] in Hle |- *; lia).
  cbv beta iota delta [reaches] in *.
  destruct Px as [Vx _]. destruct Py as [Vy _].
  rewrite SFmul_finite by assumption.
  apply (normalize_le _ _ (Ex + Ey)); auto; [lia|].
  cbv beta iota delta [units] in Hle.
  replace (ex + ey - (Ex + Ey)) with ((ex - Ex) + (ey - Ey)) by lia.
  rewrite pow_split by lia.
  destruct sx, sy; cbv beta iota delta [cond_Zopp xorb] in *;
    rewrite Pos2Z.inj_mul;
    match goal with
    | |- ?L <= _ => match type of Hle with ?L' <= _ => replace L with L' by ring end
    end; exact Hle.
Qed.

Lemma SFmul_ge (Ex Ey : Z) (x y b : spec_float) :
  proper x -> proper y -> proper b ->
  reaches Ex x -> reaches Ey y -> reaches (Ex + Ey) b ->
  units (Ex + Ey) b <= units Ex x * units Ey y ->
  SFleb b (SF64mul x y) = true.
Proof.
  intros Px Py Pb Rx Ry Rb Hle.
  assert (Hz : units (Ex + Ey) b <= 0 -> forall s, SFleb b (S754_zero s) = true).
  { intros H0 s.
    apply (proj2 (SFleb_units (Ex + Ey) b (S754_zero s) Pb (conj eq_refl eq_refl) Rb I)).
    exact H0. }
  destruct x as [sx|sx| |sx mx ex]; try (destruct Px; discriminate);
    destruct y as [sy|sy| |sy my ey]; try (destruct Py; discriminate);
    try (apply Hz; cbv beta iota delta [units] in Hle |- *; lia).
  cbv beta iota delta [reaches] in *.
  destruct Px as [Vx _]. destruct Py as [Vy _].
  rewrite SFmul_finite by assumption.
  apply (normalize_ge _ _ (Ex + Ey)); auto; [lia|].
  cbv beta iota delta [units] in Hle.
  replace (ex + ey - (Ex + Ey)) with ((ex - Ex) + (ey - Ey)) by lia.
  rewrite pow_split by lia.
  destruct sx, sy; cbv beta iota delta [cond_Zopp xorb] in *;
    rewrite Pos2Z.inj_mul;
    match goal with
    | |- _ <= ?L => match type of Hle with _ <= ?L' => replace L with L' by ring end
    end; exact Hle.
Qed.

Lemma SFsub_finite (sx : bool) (mx : positive) (ex : Z) (sy : bool) (my : positive) (ey : Z) :
  SF64sub (S754_finite sx mx ex) (S754_finite sy my ey)
  = binary_normalize prec emax
      (cond_Zopp sx (Zpos mx * 2 ^ (ex - Z.min ex ey))
       - cond_Zopp sy (Zpos my * 2 ^ (ey - Z.min ex ey)))
      (Z.min ex ey) false.
Proof.
  unfold SF64sub, SFsub.
  set (ez := Z.min ex ey).
  pose proof (shl_align_spec mx ex ez) as Hax.
  pose proof (shl_align_spec my ey ez) as Hay.
  destruct (shl_align mx ex ez) as [mx' ex'].
  destruct (shl_align my ey ez) as [my' ey'].
  destruct Hax as (Hex' & Hmx' & _). destruct Hay as (Hey' & Hmy' & _).
  assert (Eex : ex' = ez) by (unfold ez in *; lia).
  assert (Eey : ey' = ez) by (unfold ez in *; lia).
  rewrite Eex in Hmx'. rewrite Eey in Hmy'.
  cbn [fst]. rewrite Hmx', Hmy'. reflexivity.
Qed.

Lemma SFopp_proper (y : spec_float) : proper y -> proper (SFopp y).
Proof.
  destruct y as [s|s| |s m e]; intros [V F]; split; try discriminate; auto.
Qed.

Lemma SFopp_units (E : Z) (y : spec_float) : units E (SFopp y) = - units E y.
Proof.
  destruct y as [s|s| |s m e]; try reflexivity.
  cbv beta iota delta [SFopp units]. destruct s; cbv beta iota delta [negb cond_Zopp]; lia.
Qed.

Lemma SFopp_reaches (E : Z) (y : spec_float) : reaches E y -> reaches E (SFopp y).
Proof. destruct y; auto. Qed.

(** A difference of finite numbers is the sum with the opposite. *)
Lemma SFsub_add (x y : spec_float) :
  proper x -> proper y -> SF64sub x y = SF64add x (SFopp y).
Proof.
  intros [_ Fx] [_ Fy].
  destruct x as [sx|sx| |sx mx ex]; try discriminate;
    destruct y as [sy|sy| |sy my ey]; try discriminate; try reflexivity.
  - unfold SF64sub, SF64add, SFsub, SFadd, SFopp. destruct sx, sy; reflexivity.
  - rewrite SFsub_finite. cbv beta iota delta [SFopp].
    rewrite (SFadd_finite _ _ _ _ _ _ (Z.min ex ey)) by lia.
    f_equal. destruct sy; cbv beta iota delta [negb cond_Zopp]; lia.
Qed.

(** *** Numbers of the program *)

Lemma finite_proper (x : float) : is_finite x = true -> proper (Prim2SF x).
Proof.
  intros H. split; [apply Prim2SF_valid | rewrite <- FloatFacts.is_finite_spec; exact H].
Qed.

Lemma proper_reaches (x : spec_float) : proper x -> reaches (-1074) x.
Proof.
  intros [V _]. destruct x as [s|s| |s m e]; try exact I.
  cbv beta iota delta [reaches].
  apply bounded_canonical in V. lia.
Qed.

Lemma proper_reaches_twice (x : spec_float) : proper x -> reaches (-1074 + -1074) x.
Proof.
  intros H. apply proper_reaches in H. destruct x; auto.
  cbv beta iota delta [reaches] in *. lia.
Qed.

Lemma units_twice (x : spec_float) :
  proper x -> units (-1074 + -1074) x = units (-1074) x * 2 ^ 1074.
Proof.
  intros H. pose proof (proper_reaches x H) as R.
  destruct x as [s|s| |s m e]; try reflexivity.
  cbv beta iota delta [reaches] in R.
  cbv beta iota delta [units].
  replace (e - (-1074 + -1074)) with ((e - -1074) + 1074) by lia.
  rewrite pow_split by lia.
  destruct s; cbv beta iota delta [cond_Zopp]; ring.
Qed.

(** Finite numbers compare as their values do. *)
Lemma leb_quanta (x y : float) :
  is_finite x = true -> is_finite y = true ->
  ((x <=? y)%float = true <-> quanta x <= quanta y).
Proof.
  intros Hx Hy. rewrite leb_spec.
  apply finite_proper in Hx, Hy.
  apply SFleb_units; auto using proper_reaches.
Qed.

Lemma ltb_quanta (x y : float) :
  is_finite x = true -> is_finite y = true ->
  ((x <? y)%float = true <-> quanta x < quanta y).
Proof.
  intros Hx Hy. rewrite ltb_spec.
  apply finite_proper in Hx, Hy.
  apply SFltb_units; auto using proper_reaches.
Qed.

(** A number between two finite numbers is finite. *)
Lemma between_finite (lo x hi : float) :
  is_finite lo = true -> is_finite hi = true ->
  (lo <=? x)%float = true -> (x <=? hi)%float = true -> is_finite x = true.
Proof.
  rewrite !FloatFacts.is_finite_spec, !leb_spec.
  destruct (Prim2SF lo) as [s1|s1| |s1 m1 e1]; try discriminate;
    destruct (Prim2SF hi) as [s2|s2| |s2 m2 e2]; try discriminate;
    intros _ _; unfold SFleb; destruct (Prim2SF x) as [s|s| |s m e]; simpl; auto;
    destruct s; try discriminate; try destruct s1; try destruct s2; discriminate.
Qed.

(** Sums, differences and products of finite numbers against a finite
    bound: the rounded result is on the side of the bound on which the
    exact result is. *)
Lemma add_le (x y b : float) :
  is_finite x = true -> is_finite y = true -> is_finite b = true ->
  quanta x + quanta y <= quanta b -> (x + y <=? b)%float = true.
Proof.
  intros Hx Hy Hb H. rewrite leb_spec, add_spec.
  apply finite_proper in Hx, Hy, Hb.
  apply (SFadd_le (-1074)); auto using proper_reaches.
Qed.

Lemma add_ge (x y b : float) :
  is_finite x = true -> is_finite y = true -> is_finite b = true ->
  quanta b <= quanta x + quanta y -> (b <=? x + y)%float = true.
Proof.
  intros Hx Hy Hb H. rewrite leb_spec, add_spec.
  apply finite_proper in Hx, Hy, Hb.
  apply (SFadd_ge (-1074)); auto using proper_reaches.
Qed.

Lemma sub_le (x y b : float) :
  is_finite x = true -> is_finite y = true -> is_finite b = true ->
  quanta x - quanta y <= quanta b -> (x - y <=? b)%float = true.
Proof.
  intros Hx Hy Hb H. rewrite leb_spec, sub_spec.
  apply finite_proper in Hx, Hy, Hb.
  rewrite SFsub_add by assumption.
  apply (SFadd_le (-1074)); auto using proper_reaches, SFopp_proper, SFopp_reaches.
  rewrite SFopp_units. unfold quanta in H. lia.
Qed.

Lemma sub_ge (x y b : float) :
  is_finite x = true -> is_finite y = true -> is_finite b = true ->
  quanta b <= quanta x - quanta y -> (b <=? x - y)%float = true.
Proof.
  intros Hx Hy Hb H. rewrite leb_spec, sub_spec.
  apply finite_proper in Hx, Hy, Hb.
  rewrite SFsub_add by assumption.
  apply (SFadd_ge (-1074)); auto using proper_reaches, SFopp_proper, SFopp_reaches.
  rewrite SFopp_units. unfold quanta in H. lia.
Qed.

Lemma mul_le (x y b : float) :
  is_finite x = true -> is_finite y = true -> is_finite b = true ->
  quanta x * quanta y <= quanta b * 2 ^ 1074 -> (x * y <=? b)%float = true.
Proof.
  intros Hx Hy Hb H. rewrite leb_spec, mul_spec.
  apply finite_proper in Hx, Hy, Hb.
  apply (SFmul_le (-1074) (-1074)); auto using proper_reaches, proper_reaches_twice.
  rewrite units_twice by assumption. exact H.
Qed.

Lemma mul_ge (x y b : float) :
  is_finite x = true -> is_finite y = true -> is_finite b = true ->
  quanta b * 2 ^ 1074 <= quanta x * quanta y -> (b <=? x * y)%float = true.
Proof.
  intros Hx Hy Hb H. rewrite leb_spec, mul_spec.
  apply finite_proper in Hx, Hy, Hb.
  apply (SFmul_ge (-1074) (-1074)); auto using proper_reaches, proper_reaches_twice.
  rewrite units_twice by assumption. exact H.
Qed.

(** A mantissa of at most 53 digits at an exponent of the format is a
    number, exactly. *)
Lemma dyadic_spec (A : positive) (e : Z) :
  Zpos A < 2 ^ 53 -> -1074 <= e <= 971 ->
  is_finite (dyadic (Zpos A) e) = true
  /\ quanta (dyadic (Zpos A) e) = Zpos A * 2 ^ (e + 1074).
Proof.
  intros HA He.
  pose proof (D_bounds A) as [Bl Bu]. pose proof (D_pos A) as HD.
  assert (HD53 : D A <= 53).
  { destruct (Z.le_gt_cases (D A) 53) as [L|G]; [exact L|].
    assert (2 ^ 53 <= 2 ^ (D A - 1)) by (apply Z.pow_le_mono_r; lia). lia. }
  assert (Hf : fx (D A + e) <= e) by (rewrite fx_eq; lia).
  assert (Hf' : -1074 <= fx (D A + e)) by (rewrite fx_eq; lia).
  pose proof (binary_round_exact false A e Hf) as Hb.
  pose proof (exact_mantissa A e Hf) as [M0 M1].
  set (f := fx (D A + e)) in *.
  set (M := Zpos A * 2 ^ (e - f)) in *.
  assert (Hr : rounded false M f = S754_finite false (Z.to_pos M) f).
  { unfold rounded.
    destruct (Z.eqb_spec M 0); [lia|].
    destruct (Z.ltb_spec M (2 ^ 53)); [|lia].
    destruct (Z.leb_spec f 971); [reflexivity|lia]. }
  rewrite Hr in Hb.
  assert (HM : Zpos (Z.to_pos M) = M) by (apply Z2Pos.id; lia).
  assert (HDM : D (Z.to_pos M) + f = D A + e).
  { assert (D (Z.to_pos M) + 0 <= D A + (e - f)).
    { apply D_le; [lia|lia|]. rewrite HM, Z.pow_0_r. unfold M. lia. }
    assert (D A + (e - f) <= D (Z.to_pos M) + 0).
    { apply D_le; [lia|lia|]. rewrite HM, Z.pow_0_r. unfold M. lia. }
    lia. }
  assert (V : valid_binary (S754_finite false (Z.to_pos M) f) = true).
  { unfold valid_binary, bounded, canonical_mantissa.
    fold (D (Z.to_pos M)). fold (fx (D (Z.to_pos M) + f)). rewrite HDM. fold f.
    rewrite Z.eqb_refl, andb_true_l. apply Z.leb_le.
    change (emax - prec) with 971. lia. }
  assert (P : Prim2SF (dyadic (Zpos A) e) = S754_finite false (Z.to_pos M) f).
  { unfold dyadic. cbv beta iota delta [binary_normalize]. rewrite Hb.
    apply Prim2SF_SF2Prim. exact V. }
  split.
  - rewrite FloatFacts.is_finite_spec, P. reflexivity.
  - unfold quanta. rewrite P. cbv beta iota delta [units cond_Zopp].
    rewrite HM. unfold M. rewrite <- Z.mul_assoc, <- pow_split by lia.
    f_equal. f_equal. lia.
Qed.

Lemma of_Z_quanta (z : Z) :
  0 <= z < 2 ^ 53 ->
  is_finite (JS.of_Z z) = true /\ quanta (JS.of_Z z) = z * 2 ^ 1074.
Proof.
  intros [H0 H1]. destruct z as [|p|p]; [split; reflexivity| |lia].
  apply (dyadic_spec p 0 H1). lia.
Qed.

(** The floor of a finite number from an integer [k] of 1 or more on and
    below [k + 1]. *)
Lemma floor_between (x : float) (k : Z) :
  is_finite x = true -> 1 <= k < 2 ^ 52 ->
  k * 2 ^ 1074 <= quanta x < (k + 1) * 2 ^ 1074 ->
  JS.Math_floor x = JS.of_Z k.
Proof.
  intros Fx Hk [Hlo Hhi].
  pose proof (finite_proper x Fx) as [V _].
  unfold quanta in Hlo, Hhi. unfold JS.Math_floor.
  assert (K0 : 0 < 2 ^ 1074) by (apply Z.pow_pos_nonneg; lia).
  destruct (Prim2SF x) as [s|s| |s m e]; cbv beta iota delta [units] in Hlo, Hhi;
    try (exfalso; clear - Hlo Hk K0; nia).
  apply bounded_canonical in V. destruct V as (_ & _ & Hmin & Hm & Hnorm).
  assert (Pe : 0 < 2 ^ (e - -1074)) by (apply Z.pow_pos_nonneg; lia).
  destruct s; cbv beta iota delta [cond_Zopp] in Hlo, Hhi;
    [exfalso; clear - Hlo Hk K0 Pe; nia|].
  destruct e as [|pe|pe].
  - exfalso. specialize (Hnorm ltac:(lia)). change (0 - -1074) with 1074 in *.
    clear - Hhi Hk Hnorm K0. nia.
  - exfalso. specialize (Hnorm ltac:(lia)).
    assert (2 ^ 1074 <= 2 ^ (Zpos pe - -1074)) by (apply Z.pow_le_mono_r; lia).
    clear - Hhi Hk Hnorm K0 H. nia.
  - f_equal. rewrite Z.pow_pos_fold.
    assert (Hs : 2 ^ 1074 = 2 ^ Zpos pe * 2 ^ (Zneg pe - -1074)).
    { rewrite <- pow_split by lia. f_equal. lia. }
    rewrite Hs in Hlo, Hhi.
    assert (P1 : 0 < 2 ^ Zpos pe) by (apply Z.pow_pos_nonneg; lia).
    rewrite Z.mul_assoc in Hlo, Hhi.
    apply Z.mul_le_mono_pos_r in Hlo; [|exact Pe].
    apply Z.mul_lt_mono_pos_r in Hhi; [|exact Pe].
    symmetry. apply (Z.div_unique_pos _ _ k (Zpos m - k * 2 ^ Zpos pe)); lia.
Qed.

End Values.

(* ===================================================================== *)
(** ** Spawn delays *)
(* ===================================================================== *)

Module SpawnFacts.
Import Notions ValueNotions Values SpawnNotions.
Local Open Scope float_scope.

Lemma quanta_0 : quanta 0 = 0%Z.
Proof. reflexivity. Qed.

Lemma quanta_1 : quanta 1 = (2 ^ 1074)%Z.
Proof. vm_compute. reflexivity. Qed.

(** A number below a finite number and not below another is finite. *)
Lemma below_finite (lo x hi : float) :
  is_finite lo = true -> is_finite hi = true ->
  (lo <=? x) = true -> (x <? hi) = true -> is_finite x = true.
Proof.
  rewrite !FloatFacts.is_finite_spec, leb_spec, ltb_spec.
  destruct (Prim2SF lo) as [s1|s1| |s1 m1 e1]; try discriminate;
    destruct (Prim2SF hi) as [s2|s2| |s2 m2 e2]; try discriminate;
    intros _ _; unfold SFleb, SFltb; destruct (Prim2SF x) as [s|s| |s m e]; simpl; auto;
    destruct s; try discriminate; try destruct s1; try destruct s2; discriminate.
Qed.

Lemma unit_draw_finite (r : float) : unit_draw r = true -> is_finite r = true.
Proof.
  unfold unit_draw. rewrite andb_true_iff. intros [H0 H1].
  apply (below_finite 0 r 1); auto.
Qed.

Lemma unit_draw_quanta (r : float) :
  unit_draw r = true -> (0 <= quanta r < 2 ^ 1074)%Z.
Proof.
  intros H. pose proof (unit_draw_finite r H) as F.
  unfold unit_draw in H. rewrite andb_true_iff in H. destruct H as [H0 H1].
  apply (leb_quanta 0 r eq_refl F) in H0.
  apply (ltb_quanta r 1 F eq_refl) in H1.
  rewrite quanta_0 in H0. rewrite quanta_1 in H1. split; assumption.
Qed.

(** A draw of [Math.random] times a span that is not negative is from 0
    to the span. *)
Lemma scale_unit (r s : float) :
  unit_draw r = true -> is_finite s = true -> (0 <= quanta s)%Z ->
  (0 <=? r * s) = true /\ (r * s <=? s) = true.
Proof.
  intros Hr Fs Hs. pose proof (unit_draw_finite r Hr) as Fr.
  apply unit_draw_quanta in Hr.
  set (K := (2 ^ 1074)%Z) in *.
  split.
  - apply mul_ge; auto. rewrite quanta_0. fold K.
    rewrite Z.mul_0_l. apply Z.mul_nonneg_nonneg; lia.
  - apply mul_le; auto. fold K. rewrite (Z.mul_comm (quanta r)).
    apply Z.mul_le_mono_nonneg_l; lia.
Qed.

Lemma delay_constants :
  is_finite minSpawnDelay = true /\ is_finite maxSpawnDelay = true
  /\ is_finite (maxSpawnDelay - minSpawnDelay) = true
  /\ (0 < quanta minSpawnDelay)%Z
  /\ (0 <= quanta (maxSpawnDelay - minSpawnDelay))%Z
  /\ (quanta minSpawnDelay + quanta (maxSpawnDelay - minSpawnDelay)
      = quanta maxSpawnDelay)%Z.
Proof. vm_compute. repeat split; discriminate. Qed.

Lemma in_delay_range_quanta (d : float) :
  in_delay_range d = true ->
  is_finite d = true /\ (quanta minSpawnDelay <= quanta d <= quanta maxSpawnDelay)%Z.
Proof.
  destruct delay_constants as (F1 & F2 & _).
  unfold in_delay_range. rewrite andb_true_iff. intros [H0 H1].
  assert (F : is_finite d = true) by (apply (between_finite minSpawnDelay d maxSpawnDelay); auto).
  split; [exact F|].
  apply (leb_quanta _ _ F1 F) in H0. apply (leb_quanta _ _ F F2) in H1. lia.
Qed.

(** The delay that a draw of [Math.random] gives. *)
Lemma getRandomDelay_range (random : N -> float) (c : N) :
  unit_draw (random c) = true ->
  in_delay_range (fst (Game.getRandomDelay random c)) = true
  /\ snd (Game.getRandomDelay random c) = N.succ c.
Proof.
  intros Hr. split; [|reflexivity].
  destruct delay_constants as (F1 & F2 & F3 & _ & P3 & Hsum).
  unfold Game.getRandomDelay. cbn [fst].
  set (span := maxSpawnDelay - minSpawnDelay) in *.
  destruct (scale_unit (random c) span Hr F3 P3) as [W0 W1].
  assert (Fw : is_finite (random c * span) = true)
    by (apply (between_finite 0 _ span); auto).
  apply (leb_quanta 0 _ eq_refl Fw) in W0. rewrite quanta_0 in W0.
  apply (leb_quanta _ _ Fw F3) in W1.
  unfold in_delay_range. rewrite andb_true_iff. split.
  - apply add_ge; auto. lia.
  - apply add_le; auto. lia.
Qed.

(** X16.  Every spawn delay is within the configured range: for a draw of
    [Math.random] from 0 inclusive to 1 exclusive, [getRandomDelay]
    returns a number from [minSpawnDelay] = 0.8 to [maxSpawnDelay] = 2.5,
    both inclusive, in binary64 arithmetic, and it consumes one draw. *)
Theorem spawn_delay_in_range (random : N -> float) (c : N) :
  unit_draw (random c) = true ->
  in_delay_range (fst (Game.getRandomDelay random c)) = true
  /\ snd (Game.getRandomDelay random c) = N.succ c.
Proof. apply getRandomDelay_range. Qed.

Lemma spawn_delay_in_range_witness :
  unit_draw (half 0%N) = true
  /\ in_delay_range (fst (Game.getRandomDelay half 0%N)) = true
  /\ snd (Game.getRandomDelay half 0%N) = N.succ 0%N.
Proof.
  split; [reflexivity|]. apply (spawn_delay_in_range half 0%N). reflexivity.
Defined.

(** A timer of zero is below every delay of the range. *)
Lemma zero_pending (d : float) :
  in_delay_range d = true -> JS.geb 0 d = false.
Proof.
  intros H. apply in_delay_range_quanta in H. destruct H as [F [H _]].
  destruct delay_constants as (_ & _ & _ & P & _).
  unfold JS.geb. destruct (d <=? 0) eqn:E; [|reflexivity].
  apply (leb_quanta d 0 F eq_refl) in E. rewrite quanta_0 in E. lia.
Qed.

Lemma create_pending (random : N -> float) (genome : list float) (c : N) :
  unit_draw (random c) = true ->
  timer_pending (fst (Game.create random genome c)).
Proof.
  intros Hr. destruct (getRandomDelay_range random c Hr) as [Hd _].
  unfold Game.create.
  destruct (Game.getRandomDelay random c) as [d c'] eqn:E.
  cbn [fst] in *. unfold timer_pending. cbn [Game.nextSpawnDelay Game.spawnTimer].
  split; [exact Hd | apply zero_pending; exact Hd].
Qed.

Lemma step_pending (random : N -> float) (dt : float) (g : Game.t) (c : N) :
  (forall k, unit_draw (random k) = true) ->
  in_delay_range (Game.nextSpawnDelay g) = true ->
  timer_pending (fst (Game.step random dt g c)).
Proof.
  intros Hr Hg. unfold Game.step.
  destruct (JS.geb (Game.spawnTimer g + dt) (Game.nextSpawnDelay g)) eqn:E.
  - destruct (getRandomDelay_range random c (Hr c)) as [Hd _].
    destruct (Game.getRandomDelay random c) as [d c'].
    cbn [fst] in *. unfold timer_pending. cbn [Game.nextSpawnDelay Game.spawnTimer].
    split; [exact Hd | apply zero_pending; exact Hd].
  - cbn [fst]. unfold timer_pending. cbn [Game.nextSpawnDelay Game.spawnTimer].
    split; [exact Hg | exact E].
Qed.

(** X17.  In every state of a headless game, whatever the genome, the step
    length and the number of steps, the next spawn delay is within
    [minSpawnDelay, maxSpawnDelay] and the spawn timer has not reached it:
    the check [spawnTimer >= nextSpawnDelay] fails for the state that a
    step leaves, so a step spawns at most one obstacle and none is owed.
    [Math.random] returns numbers from 0 inclusive to 1 exclusive. *)
Theorem spawn_timer_below_delay
    (random : N -> float) (dt : float) (genome : list float) (c : N) (n : nat) :
  (forall k, unit_draw (random k) = true) ->
  timer_pending
    (fst (steps random dt n (fst (Game.create random genome c))
                            (snd (Game.create random genome c)))).
Proof.
  intros Hr.
  pose proof (create_pending random genome c (Hr c)) as H0.
  generalize dependent (snd (Game.create random genome c)).
  generalize dependent (fst (Game.create random genome c)).
  induction n as [|n IH]; intros g Hg c0; [exact Hg|].
  cbn [steps].
  pose proof (step_pending random dt g c0 Hr (proj1 Hg)) as Hs.
  destruct (Game.step random dt g c0) as [g' c']. cbn [fst] in Hs.
  apply IH. exact Hs.
Qed.

Lemma spawn_timer_below_delay_witness :
  (forall k, unit_draw (half k) = true)
  /\ timer_pending
       (fst (steps half Game.FIXED_DT 60
                   (fst (Game.create half [1; 1; 1] 0%N))
                   (snd (Game.create half [1; 1; 1] 0%N)))).
Proof.
  split; [intros k; reflexivity|].
  apply (spawn_timer_below_delay half Game.FIXED_DT [1; 1; 1] 0%N 60).
  intros k. reflexivity.
Defined.

Lemma timer_after_early (k : nat) :
  (k <= 47)%nat ->
  is_finite (timer_after k) = true /\ (timer_after k <? minSpawnDelay) = true.
Proof.
  intros Hk.
  assert (H : forallb (fun k => is_finite (timer_after k) && (timer_after k <? minSpawnDelay))
                      (seq 0 48) = true) by (vm_compute; reflexivity).
  rewrite forallb_forall in H.
  specialize (H k). rewrite in_seq in H. specialize (H ltac:(lia)).
  apply andb_true_iff in H. exact H.
Qed.

(** A step whose timer stays below [minSpawnDelay] spawns nothing. *)
Lemma step_without_spawn (random : N -> float) (dt : float) (g : Game.t) (c : N) :
  in_delay_range (Game.nextSpawnDelay g) = true ->
  is_finite (Game.spawnTimer g + dt) = true ->
  (Game.spawnTimer g + dt <? minSpawnDelay) = true ->
  snd (Game.step random dt g c) = c
  /\ Game.spawnTimer (fst (Game.step random dt g c)) = Game.spawnTimer g + dt
  /\ Game.nextSpawnDelay (fst (Game.step random dt g c)) = Game.nextSpawnDelay g
  /\ Game.obstacles (fst (Game.step random dt g c))
     = Game.updateObstacles dt (Game.obstacles g).
Proof.
  intros Hd Ft Hlt.
  apply in_delay_range_quanta in Hd. destruct Hd as [Fd [Hd _]].
  destruct delay_constants as (F1 & _).
  apply (ltb_quanta _ _ Ft F1) in Hlt.
  assert (E : JS.geb (Game.spawnTimer g + dt) (Game.nextSpawnDelay g) = false).
  { unfold JS.geb.
    destruct (Game.nextSpawnDelay g <=? Game.spawnTimer g + dt) eqn:E; [|reflexivity].
    apply (leb_quanta _ _ Fd Ft) in E. lia. }
  unfold Game.step. rewrite E. cbn [fst snd]. repeat split; reflexivity.
Qed.

Lemma updateObstacles_length (dt : float) (obs : list Obstacle.t) :
  (List.length (Game.updateObstacles dt obs) <= List.length obs)%nat.
Proof.
  induction obs as [|o obs IH]; [apply le_n|].
  cbn [Game.updateObstacles fold_right List.length].
  fold (Game.updateObstacles dt obs).
  destruct (Obstacle.isOffScreen (Obstacle.update dt o)); cbn [List.length]; lia.
Qed.

(** X18.  Obstacles are at least 48 frames apart.  From a state whose spawn
    timer is 0, as [create] and every spawning step leave it, the next 47
    steps of [FIXED_DT] = 1/60 spawn nothing, whatever the delay of the
    range that was drawn: [Math.random] is not called, the delay stays,
    the timer is the sum of the steps, and the list of obstacles does not
    grow. *)
Theorem no_spawn_within_47_steps
    (random : N -> float) (g : Game.t) (c : N) (n : nat) :
  Game.spawnTimer g = 0 ->
  in_delay_range (Game.nextSpawnDelay g) = true ->
  (n <= 47)%nat ->
  snd (steps random Game.FIXED_DT n g c) = c
  /\ Game.spawnTimer (fst (steps random Game.FIXED_DT n g c)) = timer_after n
  /\ Game.nextSpawnDelay (fst (steps random Game.FIXED_DT n g c)) = Game.nextSpawnDelay g
  /\ (List.length (Game.obstacles (fst (steps random Game.FIXED_DT n g c)))
      <= List.length (Game.obstacles g))%nat.
Proof.
  intros Ht Hd Hn.
  assert (G : forall m k g c,
             (k + m <= 47)%nat ->
             Game.spawnTimer g = timer_after k ->
             in_delay_range (Game.nextSpawnDelay g) = true ->
             snd (steps random Game.FIXED_DT m g c) = c
             /\ Game.spawnTimer (fst (steps random Game.FIXED_DT m g c)) = timer_after (k + m)
             /\ Game.nextSpawnDelay (fst (steps random Game.FIXED_DT m g c))
                = Game.nextSpawnDelay g
             /\ (List.length (Game.obstacles (fst (steps random Game.FIXED_DT m g c)))
                 <= List.length (Game.obstacles g))%nat).
  { clear. induction m as [|m IH]; intros k g c Hk Ht Hd.
    - cbn [steps fst snd]. rewrite Nat.add_0_r. auto.
    - cbn [steps].
      destruct (timer_after_early (S k) ltac:(lia)) as [Fk Lk].
      cbn [timer_after] in Fk, Lk. rewrite <- Ht in Fk, Lk.
      destruct (step_without_spawn random Game.FIXED_DT g c Hd Fk Lk)
        as (Ec & Et & Ed & Eo).
      destruct (Game.step random Game.FIXED_DT g c) as [g' c'].
      cbn [fst snd] in Ec, Et, Ed, Eo. subst c'.
      destruct (IH (S k) g' c ltac:(lia)) as (Rc & Rt & Rd & Ro).
      + rewrite Et, Ht. reflexivity.
      + rewrite Ed. exact Hd.
      + split; [exact Rc|]. split; [rewrite Rt; f_equal; lia|].
        split; [rewrite Rd; exact Ed|].
        rewrite Eo in Ro.
        pose proof (updateObstacles_length Game.FIXED_DT (Game.obstacles g)). lia. }
  apply (G n 0%nat g c); auto.
Qed.

Lemma no_spawn_within_47_steps_witness :
  Game.spawnTimer (fst fresh_game) = 0
  /\ in_delay_range (Game.nextSpawnDelay (fst fresh_game)) = true
  /\ (47 <= 47)%nat
  /\ snd (steps half Game.FIXED_DT 47 (fst fresh_game) (snd fresh_game))
     = snd fresh_game.
Proof.
  split; [reflexivity|]. split; [reflexivity|]. split; [apply le_n|].
  apply (no_spawn_within_47_steps half (fst fresh_game) (snd fresh_game) 47);
    [reflexivity | reflexivity | apply le_n].
Defined.

(** *** The interactive game *)

Lemma load_pending (random : N -> float) (width height : float) (c : N) :
  unit_draw (random c) = true ->
  main_timer_pending (fst (Main.load random width height c)).
Proof.
  intros Hr. destruct (getRandomDelay_range random c Hr) as [Hd _].
  unfold Main.load.
  destruct (Game.getRandomDelay random c) as [d c'].
  cbn [fst] in *. unfold main_timer_pending.
  cbn [Main.nextSpawnDelay Main.spawnTimer].
  split; [exact Hd | apply zero_pending; exact Hd].
Qed.

Lemma update_pending (random : N -> float) (t : float) (s : Main.state) (c : N) :
  (forall k, unit_draw (random k) = true) ->
  main_timer_pending s ->
  main_timer_pending (fst (fst (Main.update random t s c))).
Proof.
  intros Hr [Hs _]. unfold Main.update.
  destruct (JS.geb (Main.spawnTimer s + (t - Main.lastTime s) / 1000)
                   (Main.nextSpawnDelay s)) eqn:E.
  - destruct (getRandomDelay_range random c (Hr c)) as [Hd _].
    destruct (Game.getRandomDelay random c) as [d c'].
    cbn [fst] in *. unfold main_timer_pending.
    cbn [Main.nextSpawnDelay Main.spawnTimer].
    split; [exact Hd | apply zero_pending; exact Hd].
  - cbn [fst]. unfold main_timer_pending. cbn [Main.nextSpawnDelay Main.spawnTimer].
    split; [exact Hs | exact E].
Qed.

Lemma keydown_pending (random : N -> float) (key : string) (s : Main.state) (c : N) :
  (forall k, unit_draw (random k) = true) ->
  main_timer_pending s ->
  main_timer_pending (fst (Main.keydown random key s c)).
Proof.
  intros Hr Hs. unfold Main.keydown.
  destruct (String.eqb key "r" || String.eqb key "R").
  - destruct (getRandomDelay_range random c (Hr c)) as [Hd _].
    destruct (Game.getRandomDelay random c) as [d c'].
    cbn [fst] in *. unfold main_timer_pending.
    cbn [Main.nextSpawnDelay Main.spawnTimer].
    split; [exact Hd | apply zero_pending; exact Hd].
  - cbn [fst]. exact Hs.
Qed.

Lemma handle_pending (random : N -> float) (e : Main.event) (s : Main.state) (c : N) :
  (forall k, unit_draw (random k) = true) ->
  main_timer_pending s ->
  main_timer_pending (fst (Main.handle random e s c)).
Proof.
  intros Hr Hs. destruct e as [t|key|best]; cbn [Main.handle].
  - pose proof (update_pending random t s c Hr Hs) as H.
    destruct (Main.update random t s c) as [[s' b] c']. exact H.
  - apply keydown_pending; assumption.
  - exact Hs.
Qed.

(** X19.  In the interactive game too the spawn delay stays within
    [minSpawnDelay, maxSpawnDelay] and the spawn timer below it: after
    the script is loaded and after any sequence of frames, key presses
    (a reset with [r] draws a new delay) and training results.
    [Math.random] returns numbers from 0 inclusive to 1 exclusive. *)
Theorem interactive_spawn_timer_below_delay
    (random : N -> float) (width height : float) (c : N) (es : list Main.event) :
  (forall k, unit_draw (random k) = true) ->
  main_timer_pending
    (fst (Main.handle_all random es (fst (Main.load random width height c))
                                    (snd (Main.load random width height c)))).
Proof.
  intros Hr.
  pose proof (load_pending random width height c (Hr c)) as H0.
  generalize dependent (snd (Main.load random width height c)).
  generalize dependent (fst (Main.load random width height c)).
  induction es as [|e es IH]; intros s Hs c0; [exact Hs|].
  cbn [Main.handle_all].
  pose proof (handle_pending random e s c0 Hr Hs) as He.
  destruct (Main.handle random e s c0) as [s' c']. cbn [fst] in He.
  apply IH. exact He.
Qed.

Lemma interactive_spawn_timer_below_delay_witness :
  (forall k, unit_draw (half k) = true)
  /\ main_timer_pending
       (fst (Main.handle_all half session (fst (Main.load half 800 450 0%N))
                                          (snd (Main.load half 800 450 0%N)))).
Proof.
  split; [intros k; reflexivity|].
  apply (interactive_spawn_timer_below_delay half 800 450 0%N session).
  intros k. reflexivity.
Defined.

End SpawnFacts.

(* ===================================================================== *)
(** ** The elite count of the visual trainer *)
(* ===================================================================== *)

Module EliteFacts.
Import Notions ValueNotions Rounding Values GA EliteNotions.
Local Open Scope Z_scope.

Lemma tenth_constant :
  is_finite 0.1%float = true /\ quanta 0.1%float = 7205759403792794 * 2 ^ 1018.
Proof. vm_compute. split; reflexivity. Qed.

(** [Math.floor(n * 0.1)] is the whole part of [n / 10]: the product is
    rounded, and 0.1 is not a tenth, but the result stays from [n / 10]
    rounded down to an integer on and below the next integer. *)
Lemma eliteCount_tenth (n : nat) :
  Z.of_nat n < 2 ^ 52 -> eliteCount n = JS.of_nat (n / 10).
Proof.
  intros Hn.
  destruct (Nat.le_gt_cases n 9) as [L|G].
  { rewrite (TrainerFacts.eliteCount_below_10 n L).
    rewrite Nat.div_small by lia. reflexivity. }
  pose proof (Nat.div_mod_eq n 10) as Hdm.
  pose proof (Nat.mod_upper_bound n 10 ltac:(lia)) as Hmod.
  set (k := (n / 10)%nat) in *.
  assert (Hk : (1 <= k)%nat) by lia.
  assert (Hkn : 10 * Z.of_nat k <= Z.of_nat n <= 10 * Z.of_nat k + 9) by lia.
  change (2 ^ 52) with 4503599627370496 in Hn.
  destruct tenth_constant as [Ft Qt].
  destruct (of_Z_quanta (Z.of_nat n)) as [Fn Qn];
    [change (2 ^ 53) with 9007199254740992; lia|].
  destruct (of_Z_quanta (Z.of_nat k)) as [Fk Qk];
    [change (2 ^ 53) with 9007199254740992; lia|].
  assert (HA : 0 < 16 * Z.of_nat k + 15 < 2 ^ 53)
    by (change (2 ^ 53) with 9007199254740992; lia).
  destruct (16 * Z.of_nat k + 15) as [|A|A] eqn:EA; try lia.
  destruct (dyadic_spec A (-4) (proj2 HA) ltac:(lia)) as [Fb Qb].
  replace (-4 + 1074) with 1070 in Qb by lia.
  set (b := dyadic (Zpos A) (-4)) in *.
  unfold eliteCount. unfold JS.of_nat at 1.
  set (x := (JS.of_Z (Z.of_nat n) * 0.1)%float).
  set (L := 2 ^ 1018).
  assert (L0 : 0 < L) by (apply Z.pow_pos_nonneg; lia).
  assert (K74 : 2 ^ 1074 = 72057594037927936 * L)
    by (unfold L; change 72057594037927936 with (2 ^ 56); rewrite <- pow_split by lia; reflexivity).
  assert (K70 : 2 ^ 1070 = 4503599627370496 * L)
    by (unfold L; change 4503599627370496 with (2 ^ 52); rewrite <- pow_split by lia; reflexivity).
  fold L in Qt. rewrite K74 in Qn, Qk. rewrite K70 in Qb.
  assert (KL : 0 < 72057594037927936 * L * L) by (apply Z.mul_pos_pos; lia).
  assert (Hlo : (JS.of_Z (Z.of_nat k) <=? x)%float = true).
  { apply mul_ge; auto. rewrite Qk, Qn, Qt, K74.
    replace (Z.of_nat k * (72057594037927936 * L) * (72057594037927936 * L))
      with ((72057594037927936 * L * L) * (Z.of_nat k * 72057594037927936)) by ring.
    replace (Z.of_nat n * (72057594037927936 * L) * (7205759403792794 * L))
      with ((72057594037927936 * L * L) * (Z.of_nat n * 7205759403792794)) by ring.
    apply Z.mul_le_mono_nonneg_l; lia. }
  assert (Hhi : (x <=? b)%float = true).
  { apply mul_le; auto. rewrite Qb, Qn, Qt, K74.
    replace (Z.pos A * (4503599627370496 * L) * (72057594037927936 * L))
      with ((72057594037927936 * L * L) * (Z.pos A * 4503599627370496)) by ring.
    replace (Z.of_nat n * (72057594037927936 * L) * (7205759403792794 * L))
      with ((72057594037927936 * L * L) * (Z.of_nat n * 7205759403792794)) by ring.
    apply Z.mul_le_mono_nonneg_l; lia. }
  assert (Fx : is_finite x = true)
    by (apply (between_finite (JS.of_Z (Z.of_nat k)) x b); auto).
  apply (leb_quanta _ _ Fk Fx) in Hlo. apply (leb_quanta _ _ Fx Fb) in Hhi.
  rewrite Qk in Hlo. rewrite Qb in Hhi.
  unfold JS.of_nat.
  apply floor_between; [exact Fx | lia |].
  rewrite K74. lia.
Qed.

(** [slice(0, k)] for an integer [k] is the first [k] elements. *)
Lemma slice0_of_nat {A : Type} (l : list A) (k : nat) :
  Z.of_nat k < 2 ^ 53 -> JS.slice0 l (JS.of_nat k) = firstn k l.
Proof.
  intros Hk. unfold JS.of_nat.
  destruct (Z.of_nat k) as [|p|p] eqn:E; try lia.
  - assert (k = 0%nat) by lia. subst k. reflexivity.
  - destruct (of_Z_finite p Hk) as (mn & Hp & Hmn & Hr).
    pose proof (D_pos p) as HD.
    pose proof (D_bounds p) as [Bl Bu].
    assert (HD53 : D p <= 53).
    { destruct (Z.le_gt_cases (D p) 53) as [L|G]; [exact L|].
      assert (2 ^ 53 <= 2 ^ (D p - 1)) by (apply Z.pow_le_mono_r; lia). lia. }
    unfold JS.slice0. rewrite Hp.
    assert (T : match D p - 53 with
                | Zneg q => Z.pos mn / Z.pow_pos 2 q
                | _ => Z.pos mn * 2 ^ (D p - 53)
                end = Zpos p).
    { destruct (D p - 53) as [|q|q] eqn:Ed; try lia.
      - assert (D p = 53) by lia. rewrite Hmn, H. 
        change (2 ^ (53 - 53)) with 1. change (2 ^ 0) with 1. lia.
      - rewrite Z.pow_pos_fold, Hmn.
        replace (53 - D p) with (Zpos q) by lia.
        apply Z.div_mul. apply Z.pow_nonzero; lia. }
    rewrite T. f_equal. lia.
Qed.

Lemma first_tenth {A : Type} (ranked : list A) :
  Z.of_nat (List.length ranked) < 2 ^ 52 ->
  eliteCount (List.length ranked) = JS.of_nat (List.length ranked / 10)
  /\ JS.slice0 ranked (eliteCount (List.length ranked))
     = firstn (List.length ranked / 10) ranked.
Proof.
  intros Hn. pose proof (eliteCount_tenth _ Hn) as E.
  split; [exact E|]. rewrite E. apply slice0_of_nat.
  pose proof (Nat.Div0.div_le_upper_bound (List.length ranked) 10 (List.length ranked)
                ltac:(lia)).
  change (2 ^ 52) with 4503599627370496 in Hn.
  change (2 ^ 53) with 9007199254740992. lia.
Qed.

(** X20.  The visual trainer keeps the first tenth of the ranking, rounded
    down: for a ranking of [n] records, [scored.slice(0, Math.floor(n *
    0.1))] is its first [n / 10] records (integer division), although
    the product with 0.1 is rounded in binary64.  The ranking has fewer
    than 2^52 records. *)
Theorem swarm_elites_are_the_first_tenth (ranked : list scored) :
  Z.of_nat (List.length ranked) < 2 ^ 52 ->
  eliteCount (List.length ranked) = JS.of_nat (List.length ranked / 10)
  /\ JS.slice0 ranked (eliteCount (List.length ranked))
     = firstn (List.length ranked / 10) ranked.
Proof. apply first_tenth. Qed.

Lemma swarm_elites_are_the_first_tenth_witness :
  Z.of_nat (List.length fifteen) < 2 ^ 52
  /\ JS.slice0 fifteen (eliteCount (List.length fifteen)) = firstn 1 fifteen.
Proof.
  assert (H : Z.of_nat (List.length fifteen) < 2 ^ 52) by (vm_compute; reflexivity).
  split; [exact H|].
  exact (proj2 (swarm_elites_are_the_first_tenth fifteen H)).
Defined.

(** X21.  From ten records on, a round of the visual trainer breeds.  With
    at least ten records (and fewer than 2^52) the round returns the
    ranking and a next population that starts with the genomes of the
    first tenth of the ranking, in order, followed by the bred children
    that fill it up to [targetPopSize]; no parent is read from
    [undefined].  [Math.random] returns numbers strictly between 0 and 1,
    and the loops of [randn] have fuel for one draw. *)
Theorem swarm_breeds_from_ten_records
    (random : N -> float) (Math_log Math_cos : float -> float) (fuel : nat)
    (targetPopSize : nat) (results : list scored) (rate : float) (c : N) :
  (forall k, (0 <? random k)%float && (random k <? 1)%float = true) ->
  (1 <= fuel)%nat ->
  (10 <= List.length results)%nat ->
  Z.of_nat (List.length results) < 2 ^ 52 ->
  exists children c',
    swarmNextPopulation random Math_log Math_cos fuel targetPopSize results rate c
    = Ok (sortByFitness results,
          map genome (firstn (List.length results / 10) (sortByFitness results))
          ++ children,
          c')
    /\ List.length children = (targetPopSize - List.length results / 10)%nat.
Proof.
  intros Hr Hf Hn Hb.
  pose proof (ElitismFacts.sortByFitness_length results) as Hs.
  assert (Hb' : Z.of_nat (List.length (sortByFitness results)) < 2 ^ 52)
    by (rewrite Hs; exact Hb).
  pose proof (proj2 (first_tenth (sortByFitness results) Hb')) as He.
  rewrite Hs in He.
  assert (Hd : (1 <= List.length results / 10)%nat)
    by (apply Nat.div_le_lower_bound; lia).
  assert (Hd' : (List.length results / 10 <= List.length results)%nat)
    by (apply Nat.Div0.div_le_upper_bound; lia).
  destruct (TrainingFacts.swarmNextPopulation_returns random Math_log Math_cos fuel
              Hr Hf targetPopSize results rate c) as (ranked & pop & c' & H).
  { change (2 ^ 52) with 4503599627370496 in Hb.
    change (2 ^ 53) with 9007199254740992. lia. }
  { rewrite He, length_firstn, Hs. lia. }
  pose proof H as H'. pose proof H as Hrun.
  apply ElitismFacts.swarmNextPopulation_elites in H'. destruct H' as [-> _].
  unfold swarmNextPopulation in H. rewrite Hs in H.
  destruct (sortByFitness results) as [|s0 rest] eqn:E; [discriminate|].
  apply ElitismFacts.bind_Ok in H. destruct H as (p & c1 & Hbreed & H).
  apply ElitismFacts.ret_Ok in H. destruct H as [H Hc].
  injection H as Hp. subst pop c'.
  apply ElitismFacts.breedNextGeneration_extends in Hbreed.
  destruct Hbreed as (children & Hpop & Hl).
  rewrite He in Hpop, Hl.
  exists children, c1. rewrite <- Hpop. split; [exact Hrun|].
  rewrite Hl, length_firstn. cbn [List.length] in *. f_equal. lia.
Qed.

Lemma swarm_breeds_from_ten_records_witness :
  exists children c',
    swarmNextPopulation half log_const cos_const 1 12 fifteen 0.5 0%N
    = Ok (sortByFitness fifteen,
          map genome (firstn (List.length fifteen / 10) (sortByFitness fifteen))
          ++ children,
          c')
    /\ List.length children = (12 - List.length fifteen / 10)%nat.
Proof.
  apply (swarm_breeds_from_ten_records half log_const cos_const 1 12 fifteen 0.5 0%N).
  - intros k. reflexivity.
  - apply le_n.
  - vm_compute. lia.
  - vm_compute. reflexivity.
Defined.

End EliteFacts.

(* ===================================================================== *)
(** ** Genomes stay in range *)
(* ===================================================================== *)

Module PopulationFacts.
Import Notions ValueNotions Values SpawnNotions SpawnFacts GA PopulationNotions.
Import ElitismFacts.
Local Open Scope float_scope.

Lemma range_constants :
  quanta 2 = (2 * 2 ^ 1074)%Z /\ quanta (-2) = (- (2 * 2 ^ 1074))%Z
  /\ quanta (-1) = (- 2 ^ 1074)%Z
  /\ quanta 4 = (4 * 2 ^ 1074)%Z /\ quanta (-4) = (- (4 * 2 ^ 1074))%Z.
Proof. vm_compute. repeat split; reflexivity. Qed.

Lemma within_quanta (v : float) :
  within v = true ->
  is_finite v = true /\ (- (2 * 2 ^ 1074) <= quanta v <= 2 * 2 ^ 1074)%Z.
Proof.
  intros H. pose proof (FloatFacts.within_finite v H) as F. split; [exact F|].
  unfold within in H. rewrite andb_true_iff in H. destruct H as [H0 H1].
  destruct range_constants as (Q2 & Qm2 & _).
  apply (leb_quanta (-2) v eq_refl F) in H0. apply (leb_quanta v 2 F eq_refl) in H1.
  rewrite Qm2 in H0. rewrite Q2 in H1. lia.
Qed.

Lemma within_one_within (v : float) : within_one v = true -> within v = true.
Proof.
  unfold within_one, within. rewrite !andb_true_iff. intros [H0 H1].
  assert (F : is_finite v = true) by (apply (between_finite (-1) v 1); auto).
  destruct range_constants as (Q2 & Qm2 & Qm1 & _).
  apply (leb_quanta (-1) v eq_refl F) in H0. apply (leb_quanta v 1 F eq_refl) in H1.
  rewrite Qm1 in H0. rewrite quanta_1 in H1.
  assert (K0 : (0 < 2 ^ 1074)%Z) by (apply Z.pow_pos_nonneg; lia).
  split.
  - apply (leb_quanta (-2) v eq_refl F). rewrite Qm2. lia.
  - apply (leb_quanta v 2 F eq_refl). rewrite Q2. lia.
Qed.

(** [Math.random() * 2 - 1] is from -1 to 1. *)
Lemma gene_within_one (r : float) : unit_draw r = true -> within_one (r * 2 - 1) = true.
Proof.
  intros Hr. pose proof (unit_draw_finite r Hr) as Fr.
  apply unit_draw_quanta in Hr.
  destruct range_constants as (Q2 & _ & Qm1 & _).
  set (K := (2 ^ 1074)%Z) in *.
  assert (H0 : (0 <=? r * 2) = true).
  { apply mul_ge; auto. rewrite quanta_0, Q2. fold K. 
    rewrite Z.mul_0_l. apply Z.mul_nonneg_nonneg; lia. }
  assert (H1 : (r * 2 <=? 2) = true).
  { apply mul_le; auto. rewrite Q2. fold K. rewrite (Z.mul_comm (quanta r)).
    apply Z.mul_le_mono_nonneg_l; lia. }
  assert (F : is_finite (r * 2) = true) by (apply (between_finite 0 _ 2); auto).
  apply (leb_quanta 0 _ eq_refl F) in H0. apply (leb_quanta _ 2 F eq_refl) in H1.
  rewrite quanta_0 in H0. rewrite Q2 in H1. fold K in H1.
  unfold within_one. rewrite andb_true_iff. split.
  - apply sub_ge; auto. rewrite Qm1, quanta_1. fold K. lia.
  - apply sub_le; auto. rewrite quanta_1. fold K. lia.
Qed.

Section WithRandom.

Variable random : N -> float.
Variables Math_log Math_cos : float -> float.
Variable fuel : nat.

Hypothesis random_unit : forall k, (0 <=? random k) && (random k <? 1) = true.

Lemma randGenome_spec (c c' : N) (g : list float) :
  randGenome random c = Ok (g, c') ->
  List.length g = 3%nat /\ Forall (fun v => within_one v = true) g.
Proof.
  unfold randGenome. intros H.
  bind_inv H as r1 c1 H1. bind_inv H as r2 c2 H2. bind_inv H as r3 c3 H3.
  apply ret_Ok in H. destruct H as [-> _].
  apply MutationFacts.Math_random_Ok in H1, H2, H3.
  destruct H1 as [-> _]. destruct H2 as [-> _]. destruct H3 as [-> _].
  split; [reflexivity|].
  repeat constructor; apply gene_within_one; apply random_unit.
Qed.

Lemma randGenome_well_formed (c c' : N) (g : list float) :
  randGenome random c = Ok (g, c') -> well_formed g.
Proof.
  intros H. apply randGenome_spec in H. destruct H as [Hl Hw].
  split; [exact Hl|]. unfold all_within.
  eapply Forall_impl; [|exact Hw]. apply within_one_within.
Qed.

Lemma initialPopulation_well_formed (n : nat) :
  forall (c c' : N) (pop : list (list float)),
    initialPopulation random n c = Ok (pop, c') -> all_well_formed pop.
Proof.
  induction n as [|n IH]; intros c c' pop H; cbn [initialPopulation] in H.
  - apply ret_Ok in H. destruct H as [-> _]. constructor.
  - bind_inv H as g c1 Hg. bind_inv H as gs c2 Hgs.
    apply ret_Ok in H. destruct H as [-> _].
    constructor; [eapply randGenome_well_formed; eassumption | eapply IH; eassumption].
Qed.

End WithRandom.

(** *** The spread of the elites *)

Lemma within_below_infinity (v : float) :
  within v = true -> (neg_infinity <? v) = true /\ (v <? infinity) = true.
Proof.
  intros H. apply FloatFacts.within_finite in H.
  rewrite FloatFacts.is_finite_spec in H. rewrite !ltb_spec.
  change (Prim2SF neg_infinity) with (S754_infinity true).
  change (Prim2SF infinity) with (S754_infinity false).
  destruct (Prim2SF v) as [s|s| |s m e]; try discriminate; destruct s; split; reflexivity.
Qed.

Lemma within_not_nan (v : float) : within v = true -> is_nan v = false.
Proof.
  intros H. apply FloatFacts.is_finite_not_nan, FloatFacts.within_finite, H.
Qed.

Lemma Math_max_within (a v : float) :
  within a = true -> within v = true -> within (JS.Math_max a v) = true.
Proof.
  intros Ha Hv.
  destruct (FloatFacts.Math_max_spec a v (within_not_nan a Ha) (within_not_nan v Hv))
    as [[-> | ->] _]; assumption.
Qed.

Lemma Math_min_within (a v : float) :
  within a = true -> within v = true -> within (JS.Math_min a v) = true.
Proof.
  intros Ha Hv.
  destruct (FloatFacts.Math_min_spec a v (within_not_nan a Ha) (within_not_nan v Hv))
    as [[-> | ->] _]; assumption.
Qed.

Lemma fold_max_within (vals : list float) :
  forall a, within a = true -> all_within vals ->
            within (fold_left JS.Math_max vals a) = true.
Proof.
  induction vals as [|v vals IH]; intros a Ha Hv; [exact Ha|].
  inversion Hv; subst. cbn [fold_left]. apply IH; [|assumption].
  apply Math_max_within; assumption.
Qed.

Lemma fold_min_within (vals : list float) :
  forall a, within a = true -> all_within vals ->
            within (fold_left JS.Math_min vals a) = true.
Proof.
  induction vals as [|v vals IH]; intros a Ha Hv; [exact Ha|].
  inversion Hv; subst. cbn [fold_left]. apply IH; [|assumption].
  apply Math_min_within; assumption.
Qed.

Lemma Math_max_all_within (v : float) (vals : list float) :
  all_within (v :: vals) -> within (Math_max_all (v :: vals)) = true.
Proof.
  intros H. inversion H; subst. unfold Math_max_all. cbn [fold_left].
  apply fold_max_within; [|assumption].
  destruct (within_below_infinity v H2) as [L _].
  unfold JS.Math_max. rewrite (within_not_nan v H2).
  change (is_nan neg_infinity) with false. cbn [orb]. rewrite L. exact H2.
Qed.

Lemma Math_min_all_within (v : float) (vals : list float) :
  all_within (v :: vals) -> within (Math_min_all (v :: vals)) = true.
Proof.
  intros H. inversion H; subst. unfold Math_min_all. cbn [fold_left].
  apply fold_min_within; [|assumption].
  destruct (within_below_infinity v H2) as [_ L].
  unfold JS.Math_min. rewrite (within_not_nan v H2).
  change (is_nan infinity) with false. cbn [orb].
  destruct (infinity <? v) eqn:E.
  - exfalso. apply FloatFacts.within_finite in H2.
    rewrite FloatFacts.is_finite_spec in H2. rewrite ltb_spec in E.
    change (Prim2SF infinity) with (S754_infinity false) in E.
    destruct (Prim2SF v) as [s|s| |s m e]; try discriminate; destruct s; discriminate.
  - rewrite L. exact H2.
Qed.

(** The spread of genes within [-2, 2] is a finite number. *)
Lemma spread_finite (vals : list float) :
  all_within vals -> is_finite (spread vals) = true.
Proof.
  intros H. destruct vals as [|v vals]; [reflexivity|].
  pose proof (Math_max_all_within v vals H) as HM.
  pose proof (Math_min_all_within v vals H) as Hm.
  unfold spread.
  set (M := Math_max_all (v :: vals)) in *. set (m := Math_min_all (v :: vals)) in *.
  apply within_quanta in HM, Hm. destruct HM as [FM QM]. destruct Hm as [Fm Qm].
  destruct range_constants as (_ & _ & _ & Q4 & Qm4).
  assert (Fd : is_finite (M - m) = true).
  { apply (between_finite (-4) _ 4); auto.
    - apply sub_ge; auto. rewrite Qm4. lia.
    - apply sub_le; auto. rewrite Q4. lia. }
  destruct (FloatFacts.Math_max_spec 0.1 (M - m) eq_refl
              (FloatFacts.is_finite_not_nan _ Fd)) as [[-> | ->] _];
    [reflexivity | exact Fd].
Qed.

Lemma firstn_subset {A : Type} (n : nat) (l : list A) (x : A) :
  In x (firstn n l) -> In x l.
Proof.
  revert l. induction n as [|n IH]; intros [|a l] H; cbn [firstn] in H;
    try contradiction.
  destruct H as [->|H]; [left; reflexivity | right; apply IH; exact H].
Qed.

Lemma well_formed_slots (g : list float) :
  well_formed g ->
  within (JS.num_at g 0) = true /\ within (JS.num_at g 1) = true
  /\ within (JS.num_at g 2) = true.
Proof.
  intros [Hl Hw].
  destruct g as [|g0 [|g1 [|g2 [|]]]]; try discriminate.
  inversion Hw as [|? ? H0 Hw1]; subst. inversion Hw1 as [|? ? H1 Hw2]; subst.
  inversion Hw2 as [|? ? H2 _]; subst. auto.
Qed.

Lemma slots_within (elites : list scored) (i : nat) :
  (i < 3)%nat ->
  Forall (fun e => well_formed (genome e)) elites ->
  all_within (map (fun e => JS.num_at (genome e) i) elites).
Proof.
  intros Hi H. unfold all_within. rewrite Forall_map.
  eapply Forall_impl; [|exact H]. intros e He. cbv beta.
  destruct (well_formed_slots _ He) as (H0 & H1 & H2).
  destruct i as [|[|[|i]]]; try assumption. lia.
Qed.

Section Breeding.

Variable random : N -> float.
Variables Math_log Math_cos : float -> float.
Variable fuel : nat.

Hypothesis random_unit : forall k, (0 <=? random k) && (random k <? 1) = true.
Hypothesis gauss_finite : forall u v,
    (0 <? u) = true -> (u <? 1) = true -> (0 <? v) = true -> (v <? 1) = true ->
    is_finite (sqrt (-2 * Math_log u) * Math_cos (2 * Math_PI * v)) = true.

(** A parent is the genome of an elite. *)
Lemma pickParent_In (elites : list scored) (count : float) (c c' : N) (g : list float) :
  pickParent random elites count c = Ok (g, c') ->
  exists e, In e elites /\ g = genome e.
Proof.
  unfold pickParent. intros H. bind_inv H as r c1 Hr.
  unfold JS.index in H.
  destruct (JS.to_integer (JS.Math_floor (r * count))) as [z|]; [|discriminate].
  destruct (z <? 0)%Z; [discriminate|].
  destruct (nth_error elites (Z.to_nat z)) as [e|] eqn:E; [|discriminate].
  apply ret_Ok in H. destruct H as [-> _].
  exists e. split; [eapply nth_error_In; eassumption | reflexivity].
Qed.

Lemma offspring_well_formed (parent : list float) (s1 s2 sb : float) (c c' : N)
    (child : list float) :
  offspring random Math_log Math_cos fuel parent s1 s2 sb c = Ok (child, c') ->
  well_formed parent ->
  is_finite s1 = true -> is_finite s2 = true -> is_finite sb = true ->
  well_formed child.
Proof.
  intros H Hp S1 S2 S3.
  destruct (well_formed_slots _ Hp) as (P0 & P1 & P2).
  apply FloatFacts.within_finite in P0, P1, P2.
  split.
  - apply MutationFacts.offspring_spec in H.
    destruct H as (n1 & n2 & n3 & c1 & c2 & _ & _ & _ & ->). reflexivity.
  - eapply (MutationFacts.offspring_within random Math_log Math_cos fuel
              random_unit gauss_finite); eassumption.
Qed.

Lemma fillNewPop_well_formed (missing : nat) (elites : list scored)
    (count s1 s2 sb : float) :
  Forall (fun e => well_formed (genome e)) elites ->
  is_finite s1 = true -> is_finite s2 = true -> is_finite sb = true ->
  forall (acc pop : list (list float)) (c c' : N),
    fillNewPop random Math_log Math_cos fuel missing elites count s1 s2 sb acc c
    = Ok (pop, c') ->
    all_well_formed acc -> all_well_formed pop.
Proof.
  intros He S1 S2 S3.
  induction missing as [|missing IH]; intros acc pop c c' H Hacc; cbn [fillNewPop] in H.
  - apply ret_Ok in H. destruct H as [-> _]. exact Hacc.
  - bind_inv H as parent c1 Hp. bind_inv H as child c2 Hc.
    apply IH in H; [exact H|].
    apply Forall_app. split; [exact Hacc|]. constructor; [|constructor].
    apply pickParent_In in Hp. destruct Hp as (e & Hin & ->).
    rewrite Forall_forall in He.
    eapply offspring_well_formed; eauto.
Qed.

Lemma replacement_well_formed (ranked : list scored) (c c' : N)
    (newPop : list (list float)) :
  replacement random Math_log Math_cos fuel ranked c = Ok (newPop, c') ->
  Forall (fun e => well_formed (genome e)) ranked ->
  all_well_formed newPop.
Proof.
  unfold replacement. rewrite runGA_elites. intros H Hr.
  assert (He : Forall (fun e => well_formed (genome e)) (firstn 5 ranked)).
  { rewrite Forall_forall in *. intros e Hin. apply Hr.
    eapply firstn_subset; eassumption. }
  eapply fillNewPop_well_formed in H; try exact He.
  - exact H.
  - apply spread_finite, slots_within; [lia | exact He].
  - apply spread_finite, slots_within; [lia | exact He].
  - apply spread_finite, slots_within; [lia | exact He].
  - unfold all_well_formed. rewrite Forall_map. exact He.
Qed.

Lemma generation_well_formed (population : list (list float)) (c c' : N)
    (ranked : list scored) (newPop : list (list float)) :
  generation random Math_log Math_cos fuel population c = Ok (ranked, newPop, c') ->
  all_well_formed population -> all_well_formed newPop.
Proof.
  unfold generation. intros H Hp.
  bind_inv H as results c1 Hev.
  pose proof (evaluateAll_genomes _ _ _ _ _ _ Hev) as Hg.
  assert (Hr : Forall (fun e => well_formed (genome e)) (sortByFitness results)).
  { rewrite Forall_forall. intros e Hin. apply RankingFacts.sortByFitness_In in Hin.
    unfold all_well_formed in Hp. rewrite <- Hg, Forall_map, Forall_forall in Hp.
    apply Hp. exact Hin. }
  destruct (sortByFitness results) as [|s0 rest] eqn:E; [discriminate|].
  bind_inv H as pop c2 Hrep. apply ret_Ok in H. destruct H as [H _].
  injection H as _ <-.
  eapply replacement_well_formed; eassumption.
Qed.

Lemma generations_well_formed (n : nat) :
  forall (population : list (list float)) (hist : list float) (c c' : N)
         (final : list (list float)) (hist' : list float),
    generations random Math_log Math_cos fuel n population hist c
    = Ok (final, hist', c') ->
    all_well_formed population -> all_well_formed final.
Proof.
  induction n as [|n IH]; intros population hist c c' final hist' H Hp;
    cbn [generations] in H.
  - apply ret_Ok in H. destruct H as [H _]. injection H as <- _. exact Hp.
  - bind_inv H as rp c1 Hgen. destruct rp as [ranked newPop].
    cbn [fst snd] in H. apply IH in H; [exact H|].
    eapply generation_well_formed; eassumption.
Qed.

Lemma mutateGenome_well_formed (parent : list float) (rate : float) (c c' : N)
    (child : list float) :
  mutateGenome random Math_log Math_cos fuel parent rate c = Ok (child, c') ->
  well_formed parent -> well_formed child.
Proof.
  intros H [Hl Hw]. split.
  - pose proof (MutationFacts.mutateGenes_range random Math_log Math_cos fuel
                  random_unit gauss_finite parent rate c c' child H
                  (MutationFacts.all_within_finite _ Hw)) as HF.
    rewrite <- Hl. symmetry. eapply Forall2_length; eassumption.
  - eapply (MutationFacts.mutateGenes_within random Math_log Math_cos fuel
              random_unit gauss_finite); eassumption.
Qed.

Lemma fillOffspring_well_formed (missing : nat) (elites : list scored) (rate : float) :
  Forall (fun e => well_formed (genome e)) elites ->
  forall (acc pop : list (list float)) (c c' : N),
    fillOffspring random Math_log Math_cos fuel missing elites rate acc c = Ok (pop, c') ->
    all_well_formed acc -> all_well_formed pop.
Proof.
  intros He.
  induction missing as [|missing IH]; intros acc pop c c' H Hacc;
    cbn [fillOffspring] in H.
  - apply ret_Ok in H. destruct H as [-> _]. exact Hacc.
  - bind_inv H as parent c1 Hp. bind_inv H as child c2 Hc.
    apply IH in H; [exact H|].
    apply Forall_app. split; [exact Hacc|]. constructor; [|constructor].
    apply pickParent_In in Hp. destruct Hp as (e & Hin & ->).
    rewrite Forall_forall in He.
    eapply mutateGenome_well_formed; eauto.
Qed.

Lemma swarmNextPopulation_well_formed (targetPopSize : nat) (results : list scored)
    (rate : float) (c c' : N) (ranked : list scored) (pop : list (list float)) :
  swarmNextPopulation random Math_log Math_cos fuel targetPopSize results rate c
  = Ok (ranked, pop, c') ->
  Forall (fun r => well_formed (genome r)) results ->
  all_well_formed pop.
Proof.
  unfold swarmNextPopulation. intros H Hres.
  assert (Hr : Forall (fun e => well_formed (genome e)) (sortByFitness results)).
  { rewrite Forall_forall in *. intros e Hin. apply Hres.
    apply RankingFacts.sortByFitness_In. exact Hin. }
  destruct (sortByFitness results) as [|s0 rest] eqn:E; [discriminate|].
  bind_inv H as p c1 Hb. apply ret_Ok in H. destruct H as [H _].
  injection H as _ <-.
  unfold breedNextGeneration in Hb.
  set (elites := JS.slice0 (s0 :: rest) (eliteCount (List.length (s0 :: rest)))) in *.
  assert (He : Forall (fun e => well_formed (genome e)) elites).
  { destruct (TrainerFacts.slice0_firstn (s0 :: rest)
                (eliteCount (List.length (s0 :: rest)))) as [n Hn].
    unfold elites. rewrite Hn. rewrite Forall_forall in *. intros e Hin.
    apply Hr. eapply firstn_subset; eassumption. }
  eapply fillOffspring_well_formed in Hb; [exact Hb | exact He |].
  unfold all_well_formed. rewrite Forall_map. exact He.
Qed.

End Breeding.

(** X22.  The genes of a fresh genome: [randGenome] returns three genes,
    each from -1 to 1 in binary64 arithmetic, and consumes three draws of
    [Math.random], for draws from 0 inclusive to 1 exclusive. *)
Theorem randGenome_genes_within_one (random : N -> float) (c : N) :
  (forall k, unit_draw (random k) = true) ->
  exists g,
    randGenome random c = Ok (g, N.succ (N.succ (N.succ c)))
    /\ List.length g = 3%nat
    /\ Forall (fun v => within_one v = true) g.
Proof.
  intros Hr. eexists. split; [reflexivity|].
  eapply randGenome_spec; [exact Hr | reflexivity].
Qed.

Lemma randGenome_genes_within_one_witness :
  exists g,
    randGenome half 0%N = Ok (g, N.succ (N.succ (N.succ 0%N)))
    /\ List.length g = 3%nat
    /\ Forall (fun v => within_one v = true) g.
Proof.
  apply (randGenome_genes_within_one half 0%N). intros k. reflexivity.
Defined.

(** X23.  The populations of [runGA] stay in range.  The initial population
    and the population after any number of generations hold only genomes
    of three genes within [-2, 2], and so does the genome that [runGA]
    returns: the spreads of the elites are finite numbers, so no child
    gets a gene that is not a number.  [Math.random] returns numbers from
    0 inclusive to 1 exclusive, and the engine's [Math.log] and
    [Math.cos] make the Box-Muller sample finite. *)
Theorem runGA_populations_in_range
    (random : N -> float) (Math_log Math_cos : float -> float) (fuel : nat)
    (random_unit : forall k, unit_draw (random k) = true)
    (gauss_finite : forall u v,
        (0 <? u) = true -> (u <? 1) = true -> (0 <? v) = true -> (v <? 1) = true ->
        is_finite (sqrt (-2 * Math_log u) * Math_cos (2 * Math_PI * v)) = true) :
  (forall (n : nat) (c c' : N) (pop : list (list float)),
      initialPopulation random n c = Ok (pop, c') -> all_well_formed pop)
  /\ (forall (n : nat) (population : list (list float)) (hist : list float) (c c' : N)
             (final : list (list float)) (hist' : list float),
        generations random Math_log Math_cos fuel n population hist c
        = Ok (final, hist', c') ->
        all_well_formed population -> all_well_formed final)
  /\ (forall (c c' : N) (best : option (list float)),
        runGA random Math_log Math_cos fuel c = Ok (best, c') ->
        exists g, best = Some g /\ well_formed g).
Proof.
  split; [|split].
  - intros n c c' pop H. eapply initialPopulation_well_formed; eassumption.
  - intros. eapply generations_well_formed; eassumption.
  - intros c c' best H.
    apply RankingFacts.runGA_result in H.
    destruct H as (initial & last & final & h1 & c0 & c1 & c2 & results & ranked & top
                   & Hi & Hg & He & _ & _ & _ & _ & Hin & -> & _).
    exists (genome top). split; [reflexivity|].
    apply (initialPopulation_well_formed random random_unit) in Hi.
    apply (generations_well_formed random Math_log Math_cos fuel random_unit gauss_finite)
      in Hg; [|exact Hi].
    apply evaluateAll_genomes in He.
    unfold all_well_formed in Hg. rewrite <- He, Forall_map, Forall_forall in Hg.
    apply Hg. exact Hin.
Qed.

Lemma runGA_populations_in_range_witness :
  (forall k, unit_draw (half k) = true)
  /\ all_well_formed [[0; 0; 0]; [0; 0; 0]].
Proof.
  assert (U : forall k, unit_draw (half k) = true) by (intros k; reflexivity).
  assert (G : forall u v,
             (0 <? u) = true -> (u <? 1) = true -> (0 <? v) = true -> (v <? 1) = true ->
             is_finite (sqrt (-2 * log_const u) * cos_const (2 * Math_PI * v)) = true)
    by (intros; reflexivity).
  split; [exact U|].
  apply (proj1 (runGA_populations_in_range half log_const cos_const 1 U G)
               2%nat 0%N 6%N).
  reflexivity.
Defined.

(** X24.  The populations of the visual trainer stay in range too: from
    records whose genomes have three genes within [-2, 2], a round of the
    trainer, when it returns, returns a population of such genomes; the
    elites are copied and every child is a mutated copy of an elite.  The
    assumptions on [Math.random], [Math.log] and [Math.cos] are those of
    the headless trainer. *)
Theorem swarm_populations_in_range
    (random : N -> float) (Math_log Math_cos : float -> float) (fuel : nat)
    (targetPopSize : nat) (results : list scored) (rate : float) (c c' : N)
    (ranked : list scored) (pop : list (list float)) :
  (forall k, unit_draw (random k) = true) ->
  (forall u v,
      (0 <? u) = true -> (u <? 1) = true -> (0 <? v) = true -> (v <? 1) = true ->
      is_finite (sqrt (-2 * Math_log u) * Math_cos (2 * Math_PI * v)) = true) ->
  swarmNextPopulation random Math_log Math_cos fuel targetPopSize results rate c
  = Ok (ranked, pop, c') ->
  Forall (fun r => well_formed (genome r)) results ->
  all_well_formed pop.
Proof.
  intros U G H Hres.
  eapply (swarmNextPopulation_well_formed random Math_log Math_cos fuel U G);
    eassumption.
Qed.

Lemma swarm_populations_in_range_witness :
  match swarmNextPopulation half log_const cos_const 1 12 records10 0.5 0%N with
  | Ok (_, pop, _) => all_well_formed pop
  | Err _ => False
  end.
Proof.
  assert (U : forall k, unit_draw (half k) = true) by (intros k; reflexivity).
  assert (G : forall u v,
             (0 <? u) = true -> (u <? 1) = true -> (0 <? v) = true -> (v <? 1) = true ->
             is_finite (sqrt (-2 * log_const u) * cos_const (2 * Math_PI * v)) = true)
    by (intros; reflexivity).
  assert (W : Forall (fun r => well_formed (genome r)) records10).
  { unfold records10. rewrite Forall_map. apply Forall_forall. intros k _.
    split; [reflexivity | repeat constructor]. }
  destruct (swarmNextPopulation half log_const cos_const 1 12 records10 0.5 0%N)
    as [[[ranked pop] c']|e] eqn:E.
  - exact (swarm_populations_in_range half log_const cos_const 1 12 records10 0.5
             0%N c' ranked pop U G E W).
  - vm_compute in E. discriminate E.
Defined.

(** *** The clamp *)

Lemma within_order (v : float) :
  within v = true ->
  (2 <? v) = false /\ (v <? -2) = false.
Proof.
  intros H. apply within_quanta in H. destruct H as [F Q].
  destruct range_constants as (Q2 & Qm2 & _).
  assert (K0 : (0 < 2 ^ 1074)%Z) by (apply Z.pow_pos_nonneg; lia).
  split.
  - destruct (2 <? v) eqn:E; [|reflexivity].
    apply (ltb_quanta 2 v eq_refl F) in E. rewrite Q2 in E. lia.
  - destruct (v <? -2) eqn:E; [|reflexivity].
    apply (ltb_quanta v (-2) F eq_refl) in E. rewrite Qm2 in E. lia.
Qed.

(** X25.  The clamp of the trainers, [Math.max(-2, Math.min(2, v))], leaves
    every gene within [-2, 2] as it is, bit for bit, and clamping twice
    is clamping once, for every value including NaN, the infinities and
    the zeros. *)
Theorem clamp_fixes_genes_in_range (v : float) :
  (within v = true -> clamp v = v)
  /\ clamp (clamp v) = clamp v.
Proof.
  assert (Fix : forall w, within w = true -> clamp w = w).
  { intros w H. pose proof (within_not_nan w H) as Hn.
    destruct (within_order w H) as (A & B).
    unfold clamp.
    assert (Hmin : JS.Math_min 2 w = w).
    { unfold JS.Math_min. rewrite Hn. change (is_nan 2) with false. cbn [orb].
      rewrite A. destruct (w <? 2); reflexivity. }
    rewrite Hmin. unfold JS.Math_max. rewrite Hn.
    change (is_nan (-2)) with false. cbn [orb].
    destruct (-2 <? w) eqn:E; [reflexivity|].
    rewrite B. reflexivity. }
  split; [apply Fix|].
  destruct (is_nan v) eqn:Hn.
  - rewrite (FloatFacts.clamp_nan v Hn). reflexivity.
  - apply Fix. apply FloatFacts.clamp_within. exact Hn.
Qed.

End PopulationFacts.

(* ===================================================================== *)
(** ** The obstacles of a headless run *)
(* ===================================================================== *)

Module TrafficFacts.
Import Notions ValueNotions Values SpawnNotions SpawnFacts TrafficNotions.
Local Open Scope float_scope.

Lemma on_screen_table (a : nat) :
  (a <= 199)%nat -> on_screen a = (a <=? 198)%nat.
Proof.
  intros Ha.
  assert (H : forallb (fun a => Bool.eqb (on_screen a) (a <=? 198)%nat) (seq 0 200) = true)
    by (vm_compute; reflexivity).
  rewrite forallb_forall in H. specialize (H a).
  rewrite in_seq in H. specialize (H ltac:(lia)).
  apply Bool.eqb_prop in H. exact H.
Qed.

Lemma spaced_map_S (ages : list nat) : spaced ages -> spaced (map S ages).
Proof.
  unfold spaced. induction 1 as [|a l Hs IH Ha]; cbn [map]; constructor; [exact IH|].
  rewrite Forall_map. eapply Forall_impl; [|exact Ha]. intros b Hb. cbv beta in *. lia.
Qed.

Lemma spaced_filter (p : nat -> bool) (ages : list nat) :
  spaced ages -> spaced (filter p ages).
Proof.
  unfold spaced. induction 1 as [|a l Hs IH Ha]; cbn [filter]; [constructor|].
  destruct (p a); [|exact IH].
  constructor; [exact IH|].
  rewrite Forall_forall in *. intros b Hb. apply filter_In in Hb. apply Ha, Hb.
Qed.

Lemma spaced_advance (ages : list nat) : spaced ages -> spaced (advance ages).
Proof. intros H. apply spaced_filter, spaced_map_S, H. Qed.

Lemma advance_bounds (ages : list nat) :
  Forall (fun a => (a <= 198)%nat) ages ->
  Forall (fun a => (1 <= a <= 198)%nat) (advance ages).
Proof.
  intros H. unfold advance. rewrite Forall_forall in *. intros b Hb.
  apply filter_In in Hb. destruct Hb as [Hb Hon].
  apply in_map_iff in Hb. destruct Hb as (a & <- & Ha).
  apply H in Ha. rewrite on_screen_table in Hon by lia.
  apply Nat.leb_le in Hon. lia.
Qed.

Lemma advance_head (a : nat) (rest : list nat) :
  (a <= 197)%nat -> advance (a :: rest) = S a :: advance rest.
Proof.
  intros Ha. unfold advance. cbn [map filter].
  rewrite on_screen_table by lia.
  destruct (Nat.leb_spec (S a) 198); [reflexivity | lia].
Qed.

Lemma advance_obstacles (ages : list nat) :
  Game.updateObstacles Game.FIXED_DT (map obstacle_at (rev ages))
  = map obstacle_at (rev (advance ages)).
Proof.
  rewrite StepFacts.updateObstacles_filter. unfold advance.
  rewrite <- filter_rev, <- map_rev.
  induction (rev ages) as [|a l IH]; [reflexivity|].
  cbn [map filter].
  change (Obstacle.update Game.FIXED_DT (obstacle_at a)) with (obstacle_at (S a)).
  rewrite IH.
  assert (Hon : on_screen (S a) = negb (Obstacle.isOffScreen (obstacle_at (S a))))
    by reflexivity.
  rewrite <- Hon. destruct (on_screen (S a)); reflexivity.
Qed.

(** Ages that are at least 48 apart, from [lo] on and below [lo + 48 * k],
    are at most [k]. *)
Lemma spaced_length (ages : list nat) :
  spaced ages ->
  forall lo k, Forall (fun a => (lo <= a < lo + 48 * k)%nat) ages ->
               (List.length ages <= k)%nat.
Proof.
  unfold spaced. induction 1 as [|a l Hs IH Ha]; intros lo k Hb; [cbn; lia|].
  inversion Hb as [|? ? Hlo Hrest]; subst.
  destruct k as [|k]; [lia|].
  cbn [List.length]. apply le_n_S. apply (IH (lo + 48)%nat).
  rewrite Forall_forall in *. intros b Hin.
  specialize (Ha b Hin). specialize (Hrest b Hin). cbv beta in *. lia.
Qed.

Lemma traffic_length (g : Game.t) (ages : list nat) :
  traffic g ages -> (List.length (Game.obstacles g) <= 5)%nat.
Proof.
  intros (Ho & Hs & Hb & _). rewrite Ho, length_map, length_rev.
  apply (spaced_length ages Hs 1%nat 5%nat).
  eapply Forall_impl; [|exact Hb]. intros a Ha. cbv beta in *. lia.
Qed.

(** A timer below [minSpawnDelay] has not reached a delay of the range. *)
Lemma timer_not_due (t d : float) :
  in_delay_range d = true -> is_finite t = true -> (t <? minSpawnDelay) = true ->
  JS.geb t d = false.
Proof.
  intros Hd Ft Hlt.
  apply in_delay_range_quanta in Hd. destruct Hd as [Fd [Hd _]].
  destruct delay_constants as (F1 & _).
  apply (ltb_quanta _ _ Ft F1) in Hlt.
  unfold JS.geb. destruct (d <=? t) eqn:E; [|reflexivity].
  apply (leb_quanta _ _ Fd Ft) in E. lia.
Qed.

Lemma create_regular (random : N -> float) (genome : list float) (c : N) :
  unit_draw (random c) = true ->
  regular (fst (Game.create random genome c)).
Proof.
  intros Hr. destruct (getRandomDelay_range random c Hr) as [Hd _].
  unfold Game.create. destruct (Game.getRandomDelay random c) as [d c'].
  cbn [fst] in *. unfold regular.
  cbn [Game.canvasWidth Game.canvasHeight Game.nextSpawnDelay].
  repeat split; try exact Hd.
  exists []. unfold traffic. cbn [Game.obstacles Game.spawnTimer].
  split; [reflexivity|]. split; [constructor|]. split; [constructor|].
  intros a rest H. discriminate H.
Qed.

Lemma step_regular (random : N -> float) (g : Game.t) (c : N) :
  (forall k, unit_draw (random k) = true) ->
  regular g -> regular (fst (Game.step random Game.FIXED_DT g c)).
Proof.
  intros Hr (Hw & Hh & Hd & ages & Ho & Hs & Hb & Ht).
  assert (Hb0 : Forall (fun a => (a <= 198)%nat) ages)
    by (eapply Forall_impl; [|exact Hb]; intros a Ha; cbv beta in *; lia).
  unfold Game.step.
  destruct (JS.geb (Game.spawnTimer g + Game.FIXED_DT) (Game.nextSpawnDelay g)) eqn:E.
  - (* a spawn *)
    destruct (getRandomDelay_range random c (Hr c)) as [Hd' _].
    destruct (Game.getRandomDelay random c) as [d c'].
    cbn [fst] in *. unfold regular.
    cbn [Game.canvasWidth Game.canvasHeight Game.nextSpawnDelay].
    split; [exact Hw|]. split; [exact Hh|]. split; [exact Hd'|].
    assert (Hold : Forall (fun a => (48 <= a)%nat) ages).
    { destruct ages as [|a rest]; [constructor|].
      assert (Ha : (48 <= a)%nat).
      { destruct (Nat.le_gt_cases 48 a) as [L|G]; [exact L|exfalso].
        inversion Hb as [|? ? Ha1 _]; subst.
        specialize (Ht a rest eq_refl ltac:(lia)).
        destruct (timer_after_early a ltac:(lia)) as [Fa La].
        replace a with (S (a - 1)) in Fa, La by lia.
        cbn [timer_after] in Fa, La. rewrite <- Ht in Fa, La.
        rewrite (timer_not_due _ _ Hd Fa La) in E. discriminate E. }
      constructor; [exact Ha|].
      inversion Hs as [|? ? _ Hall]; subst.
      eapply Forall_impl; [|exact Hall]. intros b Hb'. cbv beta in *. lia. }
    exists (advance (0%nat :: ages)). unfold traffic.
    cbn [Game.obstacles Game.spawnTimer].
    split; [|split; [|split]].
    + rewrite Hw, Hh, Ho. rewrite <- advance_obstacles. cbn [rev].
      rewrite map_app. reflexivity.
    + apply spaced_advance. constructor; [exact Hs|].
      eapply Forall_impl; [|exact Hold]. intros b Hb'. cbv beta in *. lia.
    + apply advance_bounds. constructor; [lia | exact Hb0].
    + intros a rest Heq _. rewrite advance_head in Heq by lia.
      injection Heq as <- _. reflexivity.
  - (* no spawn *)
    cbn [fst]. unfold regular.
    cbn [Game.canvasWidth Game.canvasHeight Game.nextSpawnDelay].
    split; [exact Hw|]. split; [exact Hh|]. split; [exact Hd|].
    exists (advance ages). unfold traffic.
    cbn [Game.obstacles Game.spawnTimer].
    split; [|split; [|split]].
    + rewrite Ho. apply advance_obstacles.
    + apply spaced_advance, Hs.
    + apply advance_bounds, Hb0.
    + intros a' rest' Heq Ha'.
      destruct ages as [|a rest]; [discriminate Heq|].
      inversion Hb as [|? ? Ha1 _]; subst.
      destruct (Nat.le_gt_cases a 197) as [L|G].
      * rewrite advance_head in Heq by exact L. injection Heq as <- _.
        rewrite (Ht a rest eq_refl ltac:(lia)).
        replace (S a - 1)%nat with (S (a - 1)) by lia. reflexivity.
      * exfalso. assert (a = 198%nat) by lia. subst a.
        unfold advance in Heq. cbn [map filter] in Heq.
        rewrite on_screen_table in Heq by lia.
        change (199 <=? 198)%nat with false in Heq.
        assert (Hin : In a' (filter on_screen (map S rest)))
          by (rewrite Heq; left; reflexivity).
        apply filter_In in Hin. destruct Hin as [Hin _].
        apply in_map_iff in Hin. destruct Hin as (b & <- & Hb').
        inversion Hs as [|? ? _ Hall]; subst.
        rewrite Forall_forall in Hall. specialize (Hall b Hb'). cbv beta in Hall. lia.
Qed.

Lemma steps_regular (random : N -> float) (genome : list float) (c : N) (n : nat) :
  (forall k, unit_draw (random k) = true) ->
  regular (fst (steps random Game.FIXED_DT n
                      (fst (Game.create random genome c))
                      (snd (Game.create random genome c)))).
Proof.
  intros Hr.
  pose proof (create_regular random genome c (Hr c)) as H0.
  generalize dependent (snd (Game.create random genome c)).
  generalize dependent (fst (Game.create random genome c)).
  induction n as [|n IH]; intros g Hg c0; [exact Hg|].
  cbn [steps].
  pose proof (step_regular random g c0 Hr Hg) as Hs.
  destruct (Game.step random Game.FIXED_DT g c0) as [g' c']. cbn [fst] in Hs.
  apply IH. exact Hs.
Qed.

(** X26.  A headless run never holds more than five obstacles.  In every
    state that steps of [FIXED_DT] = 1/60 reach from a new game, the
    obstacles are the spawned obstacle moved once per step of its age;
    the ages are from 1 to 198 steps (the 199th step takes an obstacle
    off the screen), the oldest first, and at least 48 steps apart, so
    there are at most five.  [Math.random] returns numbers from 0
    inclusive to 1 exclusive. *)
Theorem at_most_five_obstacles
    (random : N -> float) (genome : list float) (c : N) (n : nat) :
  (forall k, unit_draw (random k) = true) ->
  (List.length
     (Game.obstacles (fst (steps random Game.FIXED_DT n
                                 (fst (Game.create random genome c))
                                 (snd (Game.create random genome c))))) <= 5)%nat
  /\ exists ages,
       Game.obstacles (fst (steps random Game.FIXED_DT n
                                  (fst (Game.create random genome c))
                                  (snd (Game.create random genome c))))
       = map obstacle_at (rev ages)
       /\ spaced ages
       /\ Forall (fun a => (1 <= a <= 198)%nat) ages.
Proof.
  intros Hr.
  destruct (steps_regular random genome c n Hr) as (_ & _ & _ & ages & Ht).
  split; [eapply traffic_length; exact Ht|].
  destruct Ht as (Ho & Hs & Hb & _). exists ages. auto.
Qed.

Lemma at_most_five_obstacles_witness :
  (List.length
     (Game.obstacles (fst (steps half Game.FIXED_DT 300
                                 (fst (Game.create half jumper 0%N))
                                 (snd (Game.create half jumper 0%N))))) <= 5)%nat.
Proof.
  apply (at_most_five_obstacles half jumper 0%N 300).
  intros k. reflexivity.
Defined.

(** *** The obstacle that the policy looks at *)

Lemma ahead_table (a b : nat) :
  (1 <= b)%nat -> (b <= a)%nat -> (a <= 198)%nat ->
  (Obstacle.x (obstacle_at a) <=? Obstacle.x (obstacle_at b)) = true.
Proof.
  intros H1 H2 H3.
  assert (H : forallb (fun a => forallb (fun b =>
                 if (b <=? a)%nat
                 then Obstacle.x (obstacle_at a) <=? Obstacle.x (obstacle_at b)
                 else true) (seq 1 198)) (seq 1 198) = true)
    by (vm_compute; reflexivity).
  rewrite forallb_forall in H. specialize (H a).
  rewrite in_seq in H. specialize (H ltac:(lia)).
  rewrite forallb_forall in H. specialize (H b).
  rewrite in_seq in H. specialize (H ltac:(lia)).
  destruct (Nat.leb_spec b a); [exact H | lia].
Qed.

Lemma sorted_snoc {A : Type} (R : A -> A -> Prop) (l : list A) (a : A) :
  StronglySorted R l -> Forall (fun b => R b a) l -> StronglySorted R (l ++ [a]).
Proof.
  induction 1 as [|b l Hs IH Hb]; intros Ha; cbn [app].
  - constructor; constructor.
  - inversion Ha; subst. constructor; [apply IH; assumption|].
    apply Forall_app. split; [exact Hb | constructor; [assumption | constructor]].
Qed.

Lemma sorted_rev {A : Type} (R : A -> A -> Prop) (l : list A) :
  StronglySorted R l -> StronglySorted (fun a b => R b a) (rev l).
Proof.
  induction 1 as [|a l Hs IH Ha]; cbn [rev]; [constructor|].
  apply sorted_snoc; [exact IH|].
  rewrite Forall_forall in *. intros b Hb. apply Ha. apply in_rev. exact Hb.
Qed.

(** The obstacles of a regular game are in the order of their positions,
    the leftmost first. *)
Lemma traffic_ordered (g : Game.t) (ages : list nat) :
  traffic g ages ->
  StronglySorted (fun o o' => (Obstacle.x o <=? Obstacle.x o') = true) (Game.obstacles g)
  /\ Forall (fun o => (Obstacle.x o <=? Obstacle.x o) = true) (Game.obstacles g).
Proof.
  intros (Ho & Hs & Hb & _). rewrite Ho. clear Ho.
  apply sorted_rev in Hs.
  assert (Hb' : Forall (fun a => (1 <= a <= 198)%nat) (rev ages)).
  { rewrite Forall_forall in *. intros a Ha. apply Hb. apply in_rev. exact Ha. }
  clear Hb. induction Hs as [|a l Hs IH Ha]; cbn [map]; [split; constructor|].
  inversion Hb' as [|? ? Ha1 Hl]; subst.
  destruct (IH Hl) as [IH1 IH2].
  split; constructor; auto.
  - rewrite Forall_map. rewrite Forall_forall in *. intros b Hin.
    specialize (Ha b Hin). specialize (Hl b Hin). cbv beta in *.
    apply ahead_table; lia.
  - apply ahead_table; lia.
Qed.

Lemma find_leftmost (p : Obstacle.t -> bool) (l : list Obstacle.t) (o : Obstacle.t) :
  StronglySorted (fun o o' => (Obstacle.x o <=? Obstacle.x o') = true) l ->
  Forall (fun o => (Obstacle.x o <=? Obstacle.x o) = true) l ->
  find p l = Some o ->
  forall o', In o' l -> p o' = true -> (Obstacle.x o <=? Obstacle.x o') = true.
Proof.
  induction 1 as [|a l Hs IH Ha]; intros Hr Hf o' Hin Hp; [contradiction|].
  inversion Hr as [|? ? Hra Hrl]; subst.
  cbn [find] in Hf. destruct (p a) eqn:E.
  - injection Hf as <-. destruct Hin as [<-|Hin]; [exact Hra|].
    rewrite Forall_forall in Ha. apply Ha, Hin.
  - destruct Hin as [<-|Hin]; [congruence|].
    apply IH; assumption.
Qed.

(** X27.  The policy looks at the nearest obstacle ahead.  In every state
    that steps of [FIXED_DT] reach from a new game the obstacles are
    listed from left to right, so the obstacle that [find] returns, the
    first whose right edge is beyond the left edge of the player, is
    among all such obstacles one with the least [x]; and when [find]
    returns none, no obstacle is ahead.  [Math.random] returns numbers
    from 0 inclusive to 1 exclusive. *)
Theorem policy_sees_nearest_obstacle
    (random : N -> float) (genome : list float) (c : N) (n : nat) (p : Player.t) :
  (forall k, unit_draw (random k) = true) ->
  match Game.nextObstacle
          (Game.obstacles (fst (steps random Game.FIXED_DT n
                                      (fst (Game.create random genome c))
                                      (snd (Game.create random genome c))))) p with
  | Some o =>
      JS.gtb (Obstacle.x o + Obstacle.width o) (Player.x p) = true
      /\ forall o',
           In o' (Game.obstacles (fst (steps random Game.FIXED_DT n
                                             (fst (Game.create random genome c))
                                             (snd (Game.create random genome c))))) ->
           JS.gtb (Obstacle.x o' + Obstacle.width o') (Player.x p) = true ->
           (Obstacle.x o <=? Obstacle.x o') = true
  | None =>
      forall o',
        In o' (Game.obstacles (fst (steps random Game.FIXED_DT n
                                          (fst (Game.create random genome c))
                                          (snd (Game.create random genome c))))) ->
        JS.gtb (Obstacle.x o' + Obstacle.width o') (Player.x p) = false
  end.
Proof.
  intros Hr.
  destruct (steps_regular random genome c n Hr) as (_ & _ & _ & ages & Ht).
  destruct (traffic_ordered _ _ Ht) as [Hs Hrefl].
  set (obs := Game.obstacles _) in *.
  unfold Game.nextObstacle.
  destruct (find _ obs) as [o|] eqn:E.
  - split; [apply find_some in E; apply E|].
    intros o' Hin Hp.
    exact (find_leftmost _ obs o Hs Hrefl E o' Hin Hp).
  - intros o' Hin. exact (find_none _ _ E o' Hin).
Qed.

Lemma policy_sees_nearest_obstacle_witness :
  (forall k, unit_draw (half k) = true)
  /\ match Game.nextObstacle
            (Game.obstacles (fst (steps half Game.FIXED_DT 300
                                        (fst (Game.create half jumper 0%N))
                                        (snd (Game.create half jumper 0%N)))))
            touching_player with
     | Some o =>
         JS.gtb (Obstacle.x o + Obstacle.width o) (Player.x touching_player) = true
         /\ forall o',
              In o' (Game.obstacles (fst (steps half Game.FIXED_DT 300
                                                (fst (Game.create half jumper 0%N))
                                                (snd (Game.create half jumper 0%N))))) ->
              JS.gtb (Obstacle.x o' + Obstacle.width o') (Player.x touching_player) = true ->
              (Obstacle.x o <=? Obstacle.x o') = true
     | None =>
         forall o',
           In o' (Game.obstacles (fst (steps half Game.FIXED_DT 300
                                             (fst (Game.create half jumper 0%N))
                                             (snd (Game.create half jumper 0%N))))) ->
           JS.gtb (Obstacle.x o' + Obstacle.width o') (Player.x touching_player) = false
     end.
Proof.
  split; [intros k; reflexivity|].
  apply (policy_sees_nearest_obstacle half jumper 0%N 300 touching_player).
  intros k. reflexivity.
Defined.

End TrafficFacts.
